(** * A shallow embedding of [particle_filter/scripts/pf_level2.py]

    The node localises a robot in a known occupancy map with a particle
    filter.  The embedding follows the Python source function by function.

    Numbers.  Python floats and numpy float64 scalars are idealised: a finite
    float is a real number (no rounding, no overflow, no signed zero), and the
    three special values are kept symbolic.  The two scalar types are kept
    apart because they divide differently: a Python float raises
    [ZeroDivisionError] on a zero divisor, a numpy scalar yields [inf] or
    [nan].

    Objects.  Particles are mutable objects: the filter holds a store of
    particle objects addressed by location, and [particle_cloud] is a list of
    locations, so that two entries of the cloud may be the same object.

    Randomness.  The draws of the global numpy generator are read from two
    oracles indexed by a tick counter kept in the state. *)

From Stdlib Require Import Reals Lra Lia ZArith List FunctionalExtensionality.
From stdpp Require Import base gmap list.

Local Open Scope R_scope.

(** ** Floating-point values *)

Inductive fval : Type :=
  | Fin (r : R)
  | PInf
  | NInf
  | NaN.

Definition fadd (a b : fval) : fval :=
  match a, b with
  | NaN, _ | _, NaN => NaN
  | Fin x, Fin y => Fin (x + y)
  | PInf, NInf | NInf, PInf => NaN
  | PInf, _ | _, PInf => PInf
  | NInf, _ | _, NInf => NInf
  end.

Definition fmul (a b : fval) : fval :=
  match a, b with
  | NaN, _ | _, NaN => NaN
  | Fin x, Fin y => Fin (x * y)
  | Fin x, PInf | PInf, Fin x =>
      if Rlt_dec 0 x then PInf else if Rlt_dec x 0 then NInf else NaN
  | Fin x, NInf | NInf, Fin x =>
      if Rlt_dec 0 x then NInf else if Rlt_dec x 0 then PInf else NaN
  | PInf, PInf | NInf, NInf => PInf
  | PInf, NInf | NInf, PInf => NInf
  end.

(** IEEE division, as numpy performs it. *)
Definition fdiv (a b : fval) : fval :=
  match a, b with
  | NaN, _ | _, NaN => NaN
  | Fin x, Fin y =>
      if Req_dec_T y 0
      then if Rlt_dec 0 x then PInf else if Rlt_dec x 0 then NInf else NaN
      else Fin (x / y)
  | Fin _, PInf | Fin _, NInf => Fin 0
  | PInf, Fin y => if Rle_dec 0 y then PInf else NInf
  | NInf, Fin y => if Rle_dec 0 y then NInf else PInf
  | PInf, PInf | PInf, NInf | NInf, PInf | NInf, NInf => NaN
  end.

Definition fzero (a : fval) : bool :=
  match a with
  | Fin r => if Req_dec_T r 0 then true else false
  | _ => false
  end.

(** [a > 0] on floats: false on [nan]. *)
Definition fpositive (a : fval) : Prop :=
  match a with
  | Fin r => 0 < r
  | PInf => True
  | NInf | NaN => False
  end.

(** [a >= 0] on floats: false on [nan]. *)
Definition fnonneg (a : fval) : Prop :=
  match a with
  | Fin r => 0 <= r
  | PInf => True
  | NInf | NaN => False
  end.

(** A scalar together with the type that carries it at run time. *)
Inductive num : Type :=
  | Py (v : fval)
  | Np (v : fval).

Definition val (a : num) : fval :=
  match a with Py v | Np v => v end.

Definition num_add (a b : num) : num :=
  match a, b with
  | Py x, Py y => Py (fadd x y)
  | _, _ => Np (fadd (val a) (val b))
  end.

Definition num_mul (a b : num) : num :=
  match a, b with
  | Py x, Py y => Py (fmul x y)
  | _, _ => Np (fmul (val a) (val b))
  end.

(** ** Exceptions and outcomes *)

Inductive exn : Type :=
  | ZeroDivisionError
  | TypeError
  | ValueError
  | KeyError
  | IndexError.

Inductive outcome (A : Type) : Type :=
  | Ret (a : A)
  | Raise (e : exn).

Arguments Ret {A} a.
Arguments Raise {A} e.

(** [a / b]: between two Python floats a zero divisor raises; as soon as a
    numpy scalar takes part the division is numpy's. *)
Definition num_div (a b : num) : outcome num :=
  match a, b with
  | Py x, Py y => if fzero y then Raise ZeroDivisionError else Ret (Py (fdiv x y))
  | _, _ => Ret (Np (fdiv (val a) (val b)))
  end.

(** [int(r)] on a finite float: truncation toward zero. *)
Definition py_int (r : R) : Z :=
  if Rle_dec 0 r then Zfloor r else Zceil r.

(** ** OccupancyField *)

(** [map.info]: [width] and [height] are unsigned cell counts. *)
Record MapInfo : Type := {
  width : Z;
  height : Z;
  resolution : R;
  origin_x : R;
  origin_y : R
}.

(** [closest_occupied] is the dictionary filled by the constructor: cell
    index to distance of the closest obstacle. *)
Record OccupancyField : Type := {
  info : MapInfo;
  closest_occupied : gmap Z R
}.

Definition get_closest_obstacle_distance
    (f : OccupancyField) (x y : R) : outcome fval :=
  let m := info f in
  if Req_dec_T (resolution m) 0 then Raise ZeroDivisionError else
  let x_coord := py_int ((x - origin_x m) / resolution m) in
  let y_coord := py_int ((y - origin_y m) / resolution m) in
  if ((x_coord >? width m) || (x_coord <? 0))%Z then Ret NaN else
  if ((y_coord >? height m) || (y_coord <? 0))%Z then Ret NaN else
  let ind := (x_coord + y_coord * width m)%Z in
  if ((ind >=? width m * height m) || (ind <? 0))%Z then Ret NaN else
  match closest_occupied f !! ind with
  | Some d => Ret (Fin d)
  | None => Raise KeyError
  end.

(** The constructor stores one entry per cell [i + j * width]. *)
Definition field_complete (f : OccupancyField) : Prop :=
  ∀ ind : Z, (0 <= ind < width (info f) * height (info f))%Z →
    is_Some (closest_occupied f !! ind).

(** The truncated grid indices of a world coordinate. *)
Definition grid_x (f : OccupancyField) (x : R) : Z :=
  py_int ((x - origin_x (info f)) / resolution (info f)).

Definition grid_y (f : OccupancyField) (y : R) : Z :=
  py_int ((y - origin_y (info f)) / resolution (info f)).

(** A two-by-two map of unit cells at the origin with its only obstacle in
    cell (0,0). *)
Definition two_by_two : OccupancyField :=
  {| info := {| width := 2; height := 2; resolution := 1;
                origin_x := 0; origin_y := 0 |};
     closest_occupied :=
       <[0%Z := 0]> (<[1%Z := 1]> (<[2%Z := 1]> (<[3%Z := sqrt 2]> ∅))) |}.

(** *** The constructor *)

(** [nav_msgs/OccupancyGrid]: the metadata and the row-major cell array,
    whose entries are negative for unknown, 0 for free and positive for
    occupied cells. *)
Record OccupancyGrid : Type := {
  grid_info : MapInfo;
  data : list Z
}.

(** The pairs (i, j) visited by [for i in range(width): for j in
    range(height)], in that order. *)
Definition grid_cells (m : MapInfo) : list (nat * nat) :=
  flat_map (fun i => map (fun j => (i, j)) (seq 0 (Z.to_nat (height m))))
    (seq 0 (Z.to_nat (width m))).

(** [ind = i + j * width] *)
Definition cell_index (m : MapInfo) (c : nat * nat) : Z :=
  (Z.of_nat c.1 + Z.of_nat c.2 * width m)%Z.

(** The second loop of the constructor: the coordinates of the cells whose
    entry is positive; [data[ind]] raises [IndexError] past the end of the
    array. *)
Fixpoint occupied_cell_coordinates (g : OccupancyGrid) (cells : list (nat * nat))
    : outcome (list (nat * nat)) :=
  match cells with
  | [] => Ret []
  | c :: rest =>
      match data g !! Z.to_nat (cell_index (grid_info g) c) with
      | None => Raise IndexError
      | Some v =>
          match occupied_cell_coordinates g rest with
          | Ret occ => Ret (if (v >? 0)%Z then c :: occ else occ)
          | Raise e => Raise e
          end
      end
  end.

(** The distance between two cells in grid-index space. *)
Definition cell_distance (a b : nat * nat) : R :=
  sqrt ((INR a.1 - INR b.1) ^ 2 + (INR a.2 - INR b.2) ^ 2).

(** [NearestNeighbors(n_neighbors=1).fit(occupied).kneighbors(cells)]: for
    each cell the distance to the closest fitted point; fitting an empty
    array raises [ValueError]. *)
Definition kneighbors (occupied : list (nat * nat)) (cells : list (nat * nat))
    : outcome (list R) :=
  match occupied with
  | [] => Raise ValueError
  | o :: rest =>
      Ret (map (fun c => fold_left Rmin (map (cell_distance c) rest)
                           (cell_distance c o))
               cells)
  end.

(** The third loop of the constructor: one entry per visited cell. *)
Fixpoint fill_closest_occupied (m : MapInfo) (cells : list (nat * nat))
    (distances : list R) (closest : gmap Z R) : outcome (gmap Z R) :=
  match cells, distances with
  | [], _ => Ret closest
  | _ :: _, [] => Raise IndexError
  | c :: cells', d :: distances' =>
      fill_closest_occupied m cells' distances'
        (<[cell_index m c := d * resolution m]> closest)
  end.

(** [OccupancyField.__init__] *)
Definition OccupancyField_init (g : OccupancyGrid) : outcome OccupancyField :=
  let m := grid_info g in
  let cell_coordinates := grid_cells m in
  match occupied_cell_coordinates g cell_coordinates with
  | Raise e => Raise e
  | Ret occupied =>
      match kneighbors occupied cell_coordinates with
      | Raise e => Raise e
      | Ret distances =>
          match fill_closest_occupied m cell_coordinates distances ∅ with
          | Raise e => Raise e
          | Ret closest => Ret {| info := m; closest_occupied := closest |}
          end
      end
  end.

(** ** Particles and poses *)

(** The pose of a particle of the cloud is finite; its weight is whatever
    scalar was last assigned to [w]. *)
Record Particle : Type := {
  x : R;
  y : R;
  theta : R;
  w : num
}.

Definition set_w (p : Particle) (v : num) : Particle :=
  {| x := x p; y := y p; theta := theta p; w := v |}.

(** [geometry_msgs/Pose]: a position and an orientation quaternion
    (x, y, z, w). *)
Record Pose : Type := {
  position : fval * fval * fval;
  orientation : fval * fval * fval * fval
}.

(** [Pose()] *)
Definition Pose_default : Pose :=
  {| position := (Fin 0, Fin 0, Fin 0);
     orientation := (Fin 0, Fin 0, Fin 0, Fin 0) |}.

(** [tf.transformations.quaternion_from_euler(0, 0, yaw)]: for a finite yaw
    the quaternion (0, 0, sin (yaw/2), cos (yaw/2)); [math.cos] propagates a
    nan and raises [ValueError] on an infinity. *)
Definition quaternion_from_yaw (yaw : fval) : outcome (fval * fval * fval * fval) :=
  match yaw with
  | Fin t => Ret (Fin 0, Fin 0, Fin (sin (t / 2)), Fin (cos (t / 2)))
  | NaN => Ret (NaN, NaN, NaN, NaN)
  | PInf | NInf => Raise ValueError
  end.

(** [Particle(px, py, ptheta).as_pose()], also used on the mean particle,
    whose fields are weighted sums. *)
Definition as_pose (px py ptheta : fval) : outcome Pose :=
  match quaternion_from_yaw ptheta with
  | Ret q => Ret {| position := (px, py, Fin 0); orientation := q |}
  | Raise e => Raise e
  end.

Definition Particle_as_pose (p : Particle) : outcome Pose :=
  as_pose (Fin (x p)) (Fin (y p)) (Fin (theta p)).

(** ** The filter object *)

Inductive topic : Type :=
  | rawcloud
  | odomcloud
  | lasercloud
  | resamplecloud
  | finalcloud.

Definition TAU : R := PI * 2.
Definition RADIAL_SIGMA : R := 3 / 100.
Definition ORIENTATION_SIGMA : R := 3 / 100 * TAU.

(** The attributes of [ParticleFilter] that the filter steps read or write.
    [store] and [next_loc] are the particle objects allocated so far;
    [published] is the sequence of clouds sent to the publishers, oldest
    first; [rng_ticks] counts the draws taken from the generator. *)
Record ParticleFilter : Type := mkPF {
  initialized : bool;
  n_particles : nat;
  d_thresh : R;
  a_thresh : R;
  occupancy_field : OccupancyField;
  store : nat → Particle;
  next_loc : nat;
  particle_cloud : list nat;
  current_odom_xy_theta : option (R * R * R);
  odom_pose : R * R * R;
  robot_pose : Pose;
  map_to_odom_source : option Pose;
  published : list (topic * list Pose);
  rng_ticks : nat
}.

Definition set_store (h : nat → Particle) (n : nat) (s : ParticleFilter) :=
  mkPF (initialized s) (n_particles s) (d_thresh s) (a_thresh s)
    (occupancy_field s) h n (particle_cloud s)
    (current_odom_xy_theta s) (odom_pose s) (robot_pose s)
    (map_to_odom_source s) (published s) (rng_ticks s).

Definition set_particle_cloud (c : list nat) (s : ParticleFilter) :=
  mkPF (initialized s) (n_particles s) (d_thresh s) (a_thresh s)
    (occupancy_field s) (store s) (next_loc s) c
    (current_odom_xy_theta s) (odom_pose s) (robot_pose s)
    (map_to_odom_source s) (published s) (rng_ticks s).

Definition set_current_odom_xy_theta (o : option (R * R * R)) (s : ParticleFilter) :=
  mkPF (initialized s) (n_particles s) (d_thresh s) (a_thresh s)
    (occupancy_field s) (store s) (next_loc s) (particle_cloud s)
    o (odom_pose s) (robot_pose s)
    (map_to_odom_source s) (published s) (rng_ticks s).

Definition set_odom_pose (o : R * R * R) (s : ParticleFilter) :=
  mkPF (initialized s) (n_particles s) (d_thresh s) (a_thresh s)
    (occupancy_field s) (store s) (next_loc s) (particle_cloud s)
    (current_odom_xy_theta s) o (robot_pose s)
    (map_to_odom_source s) (published s) (rng_ticks s).

Definition set_robot_pose (p : Pose) (s : ParticleFilter) :=
  mkPF (initialized s) (n_particles s) (d_thresh s) (a_thresh s)
    (occupancy_field s) (store s) (next_loc s) (particle_cloud s)
    (current_odom_xy_theta s) (odom_pose s) p
    (map_to_odom_source s) (published s) (rng_ticks s).

Definition set_map_to_odom_source (p : option Pose) (s : ParticleFilter) :=
  mkPF (initialized s) (n_particles s) (d_thresh s) (a_thresh s)
    (occupancy_field s) (store s) (next_loc s) (particle_cloud s)
    (current_odom_xy_theta s) (odom_pose s) (robot_pose s)
    p (published s) (rng_ticks s).

Definition set_published (l : list (topic * list Pose)) (s : ParticleFilter) :=
  mkPF (initialized s) (n_particles s) (d_thresh s) (a_thresh s)
    (occupancy_field s) (store s) (next_loc s) (particle_cloud s)
    (current_odom_xy_theta s) (odom_pose s) (robot_pose s)
    (map_to_odom_source s) l (rng_ticks s).

Definition set_rng_ticks (k : nat) (s : ParticleFilter) :=
  mkPF (initialized s) (n_particles s) (d_thresh s) (a_thresh s)
    (occupancy_field s) (store s) (next_loc s) (particle_cloud s)
    (current_odom_xy_theta s) (odom_pose s) (robot_pose s)
    (map_to_odom_source s) (published s) k.

(** [ParticleFilter.__init__], once the map has been received. *)
Definition ParticleFilter_init (f : OccupancyField) : ParticleFilter :=
  {| initialized := true;
     n_particles := 30;
     d_thresh := 4 / 100;
     a_thresh := 4 / 100 * TAU;
     occupancy_field := f;
     store := fun _ => {| x := 0; y := 0; theta := 0; w := Py (Fin 1) |};
     next_loc := 0;
     particle_cloud := [];
     current_odom_xy_theta := None;
     odom_pose := (0, 0, 0);
     robot_pose := Pose_default;
     map_to_odom_source := None;
     published := [];
     rng_ticks := 0 |}.

(** ** The monad of the filter methods

    A method runs on the filter object and either returns or raises; the
    mutations made before an exception stay. *)

Definition M (A : Type) : Type := ParticleFilter → outcome A * ParticleFilter.

Definition ret {A : Type} (a : A) : M A := fun s => (Ret a, s).

Definition raise {A : Type} (e : exn) : M A := fun s => (Raise e, s).

Definition bind {A B : Type} (c : M A) (k : A → M B) : M B :=
  fun s =>
    match c s with
    | (Ret a, s') => k a s'
    | (Raise e, s') => (Raise e, s')
    end.

Definition gets {A : Type} (f : ParticleFilter → A) : M A := fun s => (Ret (f s), s).

Definition modify (f : ParticleFilter → ParticleFilter) : M unit :=
  fun s => (Ret tt, f s).

Definition lift {A : Type} (o : outcome A) : M A := fun s => (o, s).

Notation "v <- c ;; k" := (bind c (fun v => k))
  (at level 100, c at next level, right associativity).
Notation "c ;; k" := (bind c (fun _ => k))
  (at level 100, right associativity).

(** [for a in l: body a] *)
Fixpoint for_each {A : Type} (body : A → M unit) (l : list A) : M unit :=
  match l with
  | [] => ret tt
  | a :: rest => body a ;; for_each body rest
  end.

(** [[f a for a in l]] *)
Fixpoint map_m {A B : Type} (f : A → M B) (l : list A) : M (list B) :=
  match l with
  | [] => ret []
  | a :: rest => b <- f a ;; bs <- map_m f rest ;; ret (b :: bs)
  end.

(** The same two loops for code that does not touch the filter object. *)
Fixpoint fold_outcome {A B : Type} (f : B → A → outcome B) (l : list A) (b : B)
    : outcome B :=
  match l with
  | [] => Ret b
  | a :: rest =>
      match f b a with
      | Ret b' => fold_outcome f rest b'
      | Raise e => Raise e
      end
  end.

(** *** Particle objects *)

Definition upd (h : nat → Particle) (l : nat) (p : Particle) : nat → Particle :=
  fun l' => if Nat.eqb l' l then p else h l'.

(** Assignment to the fields of the object at [l]. *)
Definition write_particle (l : nat) (p : Particle) : M unit :=
  modify (fun s => set_store (upd (store s) l p) (next_loc s) s).

Definition read_particle (l : nat) : M Particle :=
  gets (fun s => store s l).

(** [deepcopy(particle)]: a new object with the same field values. *)
Definition deepcopy (l : nat) : M nat :=
  fun s =>
    (Ret (next_loc s),
     set_store (upd (store s) (next_loc s) (store s l)) (S (next_loc s)) s).

(** [Particle(px, py, ptheta)], with the default weight [1.0]. *)
Definition new_particle (px py ptheta : R) : M nat :=
  fun s =>
    (Ret (next_loc s),
     set_store
       (upd (store s) (next_loc s)
          {| x := px; y := py; theta := ptheta; w := Py (Fin 1) |})
       (S (next_loc s)) s).

(** ** Helpers from the libraries the node calls *)

Definition Rgtb (a b : R) : bool := if Rgt_dec a b then true else false.
Definition Rltb (a b : R) : bool := if Rlt_dec a b then true else false.
Definition Rleb (a b : R) : bool := if Rle_dec a b then true else false.

(** [math.atan2(b, a)] *)
Definition atan2 (b a : R) : R :=
  if Rlt_dec 0 a then atan (b / a)
  else if Rlt_dec a 0 then
    if Rle_dec 0 b then atan (b / a) + PI else atan (b / a) - PI
  else if Rlt_dec 0 b then PI / 2
  else if Rlt_dec b 0 then - PI / 2
  else 0.

(** [a % b] on floats, for a positive [b]. *)
Definition py_fmod (a b : R) : R := a - b * IZR (Zfloor (a / b)).

(** [scipy.stats.norm.pdf(loc=loc, scale=scale, x=d)], a numpy scalar. *)
Definition norm_pdf (loc scale : R) (d : fval) : num :=
  Np match d with
     | Fin v => Fin (exp (- ((v - loc) / scale) ^ 2 / 2) / sqrt (2 * PI) / scale)
     | NaN => NaN
     | PInf | NInf => Fin 0
     end.

(** The values of an array of probabilities, if all are finite. *)
Fixpoint finite_values (p : list num) : option (list R) :=
  match p with
  | [] => Some []
  | a :: rest =>
      match val a, finite_values rest with
      | Fin r, Some rs => Some (r :: rs)
      | _, _ => None
      end
  end.

Definition Rsum (l : list R) : R := fold_right Rplus 0 l.

(** [p.cumsum()], started from [acc]. *)
Fixpoint cumsum (acc : R) (p : list R) : list R :=
  match p with
  | [] => []
  | a :: rest => (acc + a) :: cumsum (acc + a) rest
  end.

(** [cdf.searchsorted(u, side='right')] on a sorted array: the number of
    entries that are at most [u]. *)
Definition searchsorted_right (cdf : list R) (u : R) : nat :=
  length (List.filter (fun c => Rleb c u) cdf).

(** The tolerance of [numpy.random.choice] on the sum of [p]. *)
Definition choice_atol : R := / 2 ^ 26.

(** [filter_laser]: the dictionary of the readings inside (0, 3.5), keyed by
    their position in the scan. *)
Fixpoint filter_laser_from (i : nat) (ranges : list fval) (valid_ranges : gmap nat R)
    : gmap nat R :=
  match ranges with
  | [] => valid_ranges
  | r :: rest =>
      filter_laser_from (S i) rest
        match r with
        | Fin v => if Rltb 0 v && Rltb v (35 / 10) then <[i := v]> valid_ranges
                   else valid_ranges
        | _ => valid_ranges
        end
  end.

Definition filter_laser (ranges : list fval) : gmap nat R :=
  filter_laser_from 0 ranges ∅.

(** Calling a method that declares [params] parameters besides [self] with
    the positional arguments [args]: the call raises [TypeError] before the
    body runs when the counts differ. *)
Definition call_method {A B : Type} (params : nat) (args : list B) (body : M A)
    : M A :=
  if (length args =? params)%nat then body else raise TypeError.

(** What a scan callback sees of its message and of the transform listener:
    whether the two transforms are available, the odometry pose of the base
    as (x, y, yaw), and the ranges of the scan. *)
Record ScanInput : Type := {
  can_transform_laser : bool;
  can_transform_odom : bool;
  tf_odom_pose : R * R * R;
  ranges : list fval
}.

(** ** The methods of [ParticleFilter] *)

Section Filter.

(** The [k]-th standard normal draw and the [k]-th uniform draw of the
    generator. *)
Variable gauss : nat → R.
Variable unif : nat → R.

(** [d.keys()]: the keys of a dictionary, in the order of its hash table. *)
Variable dict_keys : gmap nat R → list nat.

Definition tick (s : ParticleFilter) : ParticleFilter :=
  set_rng_ticks (S (rng_ticks s)) s.

(** [random_sample()] *)
Definition random_sample : M R :=
  fun s => (Ret (unif (rng_ticks s)), tick s).

(** [np.random.normal(loc, scale)] *)
Definition np_random_normal (loc scale : R) : M R :=
  fun s => (Ret (loc + scale * gauss (rng_ticks s)), tick s).

(** [np.random.choice(a, p=p)]: [p] must hold finite, non-negative values
    that sum to one within [choice_atol]; the draw inverts the cumulative
    distribution at a uniform sample.  Rejecting a nan in [p] is what current
    numpy does; no property below rests on it. *)
Definition np_random_choice (a : list nat) (p : list num) : M nat :=
  match a, finite_values p with
  | [], _ => raise ValueError
  | _, None => raise ValueError
  | _, Some pr =>
      if negb (length pr =? length a)%nat then raise ValueError
      else if existsb (fun v => Rltb v 0) pr then raise ValueError
      else if Rgtb (Rabs (Rsum pr - 1)) choice_atol then raise ValueError
      else
        u <- random_sample ;;
        let cdf := cumsum 0 pr in
        let cdf := map (fun c => c / List.last cdf 0) cdf in
        match a !! searchsorted_right cdf u with
        | Some l => ret l
        | None => raise IndexError
        end
  end.

(** The running [sum] of the first loop of [normalize_particles]. *)
Definition total_weight (h : nat → Particle) (cloud : list nat) : num :=
  fold_left (fun acc l => num_add acc (w (h l))) cloud (Py (Fin 0)).

Definition normalize_particles : M unit :=
  cloud <- gets particle_cloud ;;
  sum <- gets (fun s => total_weight (store s) cloud) ;;
  for_each
    (fun l =>
       p <- read_particle l ;;
       q <- lift (num_div (w p) sum) ;;
       write_particle l (set_w p q))
    cloud.

(** The three accumulators of [update_robot_pose]; only their values
    matter, not the scalar type that carries them. *)
Definition weighted_total (f : Particle → R) (h : nat → Particle)
    (cloud : list nat) : fval :=
  fold_left (fun acc l => fadd acc (fmul (val (w (h l))) (Fin (f (h l)))))
    cloud (Fin 0).

Definition update_robot_pose : M unit :=
  normalize_particles ;;
  cloud <- gets particle_cloud ;;
  mean_x <- gets (fun s => weighted_total x (store s) cloud) ;;
  mean_y <- gets (fun s => weighted_total y (store s) cloud) ;;
  mean_theta <- gets (fun s => weighted_total theta (store s) cloud) ;;
  pose <- lift (as_pose mean_x mean_y mean_theta) ;;
  modify (set_robot_pose pose).

(** The body of the particle loop of [update_particles_with_odom], given
    the three noise terms drawn for the particle. *)
Definition move_particle (r1 delta_distance r2 : R)
    (delta_random_radius delta_random_mean_angle delta_random_orient_angle : R)
    (p : Particle) : Particle :=
  let delta_random_x := delta_random_radius * cos delta_random_mean_angle in
  let delta_random_y := delta_random_radius * sin delta_random_mean_angle in
  let theta1 := theta p + r1 in
  {| x := x p + (cos theta1 * delta_distance + delta_random_x);
     y := y p + (sin theta1 * delta_distance + delta_random_y);
     theta := theta1 + (r2 + delta_random_orient_angle);
     w := w p |}.

Definition update_particles_with_odom : M unit :=
  new_odom_xy_theta <- gets odom_pose ;;
  current <- gets current_odom_xy_theta ;;
  modify (set_current_odom_xy_theta (Some new_odom_xy_theta)) ;;
  match current with
  | None => ret tt
  | Some old_odom_xy_theta =>
      let '(nx, ny, nt) := new_odom_xy_theta in
      let '(ox, oy, ot) := old_odom_xy_theta in
      let delta := (nx - ox, ny - oy, nt - ot) in
      let r1 := atan2 (delta.1.2) (delta.1.1) - ot in
      let delta_distance := sqrt (delta.1.1 ^ 2 + delta.1.2 ^ 2) in
      let r2 := delta.2 - r1 in
      cloud <- gets particle_cloud ;;
      for_each
        (fun l =>
           delta_random_radius <- np_random_normal 0 RADIAL_SIGMA ;;
           u <- random_sample ;;
           let delta_random_mean_angle := u * TAU / 2 in
           delta_random_orient_angle <- np_random_normal 0 ORIENTATION_SIGMA ;;
           p <- read_particle l ;;
           write_particle l
             (move_particle r1 delta_distance r2 delta_random_radius
                delta_random_mean_angle delta_random_orient_angle p))
        cloud
  end.

Definition resample_particles : M unit :=
  normalize_particles ;;
  cloud <- gets particle_cloud ;;
  probabilities <- gets (fun s => map (fun l => w (store s l)) cloud) ;;
  n <- gets n_particles ;;
  new_particle_cloud <-
    map_m (fun _ : nat =>
             chosen <- np_random_choice cloud probabilities ;;
             deepcopy chosen)
          (seq 0 n) ;;
  modify (set_particle_cloud new_particle_cloud).

(** One pass of the beam loop of [update_particles_with_laser]: the new
    value of [density_product] after beam [i]. *)
Definition beam_step (f : OccupancyField) (valid_ranges : gmap nat R)
    (keys : list nat) (valid_len num_pt_check : nat) (p : Particle)
    (density_product : num) (i : nat) : outcome num :=
  match keys !! (i * valid_len / num_pt_check)%nat with
  | None => Raise IndexError
  | Some index =>
      match valid_ranges !! index with
      | None => Raise KeyError
      | Some radius =>
          let angle := py_fmod (INR index + 25 / 100 * TAU) TAU in
          let beam_x := cos (angle + theta p) * radius + x p in
          let beam_y := sin (angle + theta p) * radius + y p in
          match get_closest_obstacle_distance f beam_x beam_y with
          | Raise e => Raise e
          | Ret dist_to_nearest_neighbor =>
              let probability_density :=
                norm_pdf 0 (5 / 100) dist_to_nearest_neighbor in
              Ret (num_mul density_product
                     (num_add (Py (Fin 1)) probability_density))
          end
      end
  end.

Definition update_particles_with_laser (scan : list fval) : M unit :=
  let valid_ranges := filter_laser scan in
  let keys := dict_keys valid_ranges in
  let valid_len := length keys in
  let num_pt_check := 25%nat in
  cloud <- gets particle_cloud ;;
  f <- gets occupancy_field ;;
  for_each
    (fun l =>
       if (num_pt_check <=? valid_len)%nat then
         p <- read_particle l ;;
         density_product <-
           lift (fold_outcome
                   (beam_step f valid_ranges keys valid_len num_pt_check p)
                   (seq 0 num_pt_check) (Py (Fin 1))) ;;
         write_particle l (set_w p density_product)
       else ret tt)
    cloud.

(** [initialize_particle_cloud(self)]: it declares no parameter besides
    [self]. *)
Definition initialize_particle_cloud_params : nat := 0.

Definition initialize_particle_cloud : M unit :=
  modify (set_particle_cloud []) ;;
  map_info <- gets (fun s => info (occupancy_field s)) ;;
  n <- gets n_particles ;;
  for_each
    (fun _ : nat =>
       u1 <- random_sample ;;
       let px := u1 * IZR (width map_info) * resolution map_info * (5 / 100) in
       u2 <- random_sample ;;
       let px := if Rgtb u2 (5 / 10) then - px else px in
       u3 <- random_sample ;;
       let py := u3 * IZR (height map_info) * resolution map_info * (1 / 10) in
       u4 <- random_sample ;;
       let py := if Rgtb u4 (5 / 10) then - py else py in
       let ptheta := 34 / 100 * TAU in
       l <- new_particle px py ptheta ;;
       modify (fun s => set_particle_cloud (particle_cloud s ++ [l]) s))
    (seq 0 n) ;;
  normalize_particles ;;
  update_robot_pose.

(** [fix_map_to_odom_transform] recomputes the map-to-odom transform from
    [robot_pose] through the transform listener; it writes no attribute
    that the filter steps read.  Only the pose it started from is kept. *)
Definition fix_map_to_odom_transform : M unit :=
  modify (fun s => set_map_to_odom_source (Some (robot_pose s)) s).

Definition update_initial_pose (xy_theta : R * R * R) : M unit :=
  call_method initialize_particle_cloud_params [xy_theta]
    initialize_particle_cloud ;;
  fix_map_to_odom_transform.

Definition publish_particles (pub : topic) : M unit :=
  cloud <- gets particle_cloud ;;
  particles_conv <-
    map_m (fun l => p <- read_particle l ;; lift (Particle_as_pose p)) cloud ;;
  modify (fun s => set_published (published s ++ [(pub, particles_conv)]) s).

(** The test of the [elif] of [scan_received]. *)
Definition moved_enough (s : ParticleFilter) (new_odom_xy_theta : R * R * R)
    : outcome bool :=
  match current_odom_xy_theta s with
  | None => Raise IndexError
  | Some current =>
      Ret (Rgtb (Rabs (new_odom_xy_theta.1.1 - current.1.1)) (d_thresh s)
           || Rgtb (Rabs (new_odom_xy_theta.1.2 - current.1.2)) (d_thresh s)
           || Rgtb (Rabs (new_odom_xy_theta.2 - current.2)) (a_thresh s))
  end.

Definition scan_received (msg : ScanInput) : M unit :=
  init <- gets initialized ;;
  if negb init then ret tt
  else if negb (can_transform_laser msg) then ret tt
  else if negb (can_transform_odom msg) then ret tt
  else
    modify (set_odom_pose (tf_odom_pose msg)) ;;
    new_odom_xy_theta <- gets odom_pose ;;
    cloud <- gets particle_cloud ;;
    match cloud with
    | [] =>
        call_method initialize_particle_cloud_params (@nil unit)
          initialize_particle_cloud ;;
        modify (set_current_odom_xy_theta (Some new_odom_xy_theta)) ;;
        fix_map_to_odom_transform
    | _ :: _ =>
        moved <- (fun s => (moved_enough s new_odom_xy_theta, s)) ;;
        if (moved : bool) then
          publish_particles rawcloud ;;
          update_particles_with_odom ;;
          publish_particles odomcloud ;;
          update_particles_with_laser (ranges msg) ;;
          publish_particles lasercloud ;;
          resample_particles ;;
          update_robot_pose ;;
          fix_map_to_odom_transform
        else ret tt
    end ;;
    publish_particles finalcloud.

End Filter.

(** ** Definitions used to state the properties *)

(** The real value of a particle's weight, when it is finite. *)
Definition rweight (p : Particle) : R :=
  match val (w p) with Fin r => r | _ => 0 end.

(** The store after every object of [locs] has been rewritten by [g]. *)
Definition update_all (g : Particle → Particle) (locs : list nat)
    (h : nat → Particle) : nat → Particle :=
  fun l => if bool_decide (l ∈ locs) then g (h l) else h l.

(** The value of [a / b] when the division does not raise. *)
Definition quotient (a b : num) : num :=
  match a, b with
  | Py u, Py v => Py (fdiv u v)
  | _, _ => Np (fdiv (val a) (val b))
  end.

(** Two particle objects whose weights are the numpy scalar [0.0]. *)
Definition zero_weight_filter : ParticleFilter :=
  set_particle_cloud [0; 1]%nat
    (set_store (fun _ => {| x := 0; y := 0; theta := 0; w := Np (Fin 0) |}) 2
       (ParticleFilter_init two_by_two)).

(** Two particle objects with the default weight [1.0]. *)
Definition two_particle_filter : ParticleFilter :=
  set_particle_cloud [0; 1]%nat
    (set_store (store (ParticleFilter_init two_by_two)) 2
       (ParticleFilter_init two_by_two)).

(** The rotate-translate-rotate step as the specification words it: turn
    by [r1], advance by [translation] along the new heading, turn by [r2]. *)
Definition rotate_translate_rotate (r1 translation r2 : R) (p : Particle)
    : Particle :=
  let theta1 := theta p + r1 in
  {| x := x p + cos theta1 * translation;
     y := y p + sin theta1 * translation;
     theta := theta1 + r2;
     w := w p |}.

(** One particle at pose (0, 0, 0); the odometry baseline is (0, 0, 0) and
    the odometry now reads (1, 0, 0). *)
Definition one_step_filter : ParticleFilter :=
  set_odom_pose (1, 0, 0)
    (set_current_odom_xy_theta (Some (0, 0, 0))
       (set_particle_cloud [0%nat]
          (set_store (store (ParticleFilter_init two_by_two)) 1
             (ParticleFilter_init two_by_two)))).

(** The weighted arithmetic mean of the specification: the mean of [f] over
    the cloud, the weights being divided by their sum [s]. *)
Definition weighted_mean (f : Particle → R) (h : nat → Particle)
    (cloud : list nat) (s : R) : R :=
  Rsum (map (fun l => rweight (h l) / s * f (h l)) cloud).



(** Two particle objects carry the same pose. *)
Definition same_pose (p q : Particle) : Prop :=
  x p = x q ∧ y p = y q ∧ theta p = theta q.

(** An order of the keys of a dictionary. *)
Definition hash_order_keys (m : gmap nat R) : list nat := (map_to_list m).*1.

(** A scan of 25 readings of one metre. *)
Definition full_scan : list fval := replicate 25 (Fin 1).

(** One particle a hundred metres to the left of the two-by-two map. *)
Definition outside_filter : ParticleFilter :=
  set_particle_cloud [0%nat]
    (set_store (fun _ => {| x := -100; y := 0; theta := 0; w := Py (Fin 1) |}) 1
       (ParticleFilter_init two_by_two)).

(** A weight that is nan or a real number not below one. *)
Definition nan_or_at_least_one (q : num) : Prop :=
  val q = NaN ∨ ∃ r, val q = Fin r ∧ 1 <= r.

(** The pose message of a particle of the cloud. *)
Definition particle_pose (p : Particle) : Pose :=
  {| position := (Fin (x p), Fin (y p), Fin 0);
     orientation := (Fin 0, Fin 0, Fin (sin (theta p / 2)), Fin (cos (theta p / 2))) |}.

(** The pose array that [publish_particles] sends. *)
Definition cloud_poses (s : ParticleFilter) : list Pose :=
  map (fun l => particle_pose (store s l)) (particle_cloud s).

(** The body of the [elif] of [scan_received]: one filter cycle, from the
    motion update to the pose estimate. *)
Definition filter_cycle (gauss unif : nat → R)
    (dict_keys : gmap nat R → list nat) (scan : list fval) : M unit :=
  publish_particles rawcloud ;;
  update_particles_with_odom gauss unif ;;
  publish_particles odomcloud ;;
  update_particles_with_laser dict_keys scan ;;
  publish_particles lasercloud ;;
  resample_particles unif ;;
  update_robot_pose ;;
  fix_map_to_odom_transform.

(** The gate of the code: some coordinate of the odometry differs from the
    recorded one by more than its threshold. *)
Definition axis_moved (s : ParticleFilter) (cur new : R * R * R) : Prop :=
  Rabs (new.1.1 - cur.1.1) > d_thresh s
  ∨ Rabs (new.1.2 - cur.1.2) > d_thresh s
  ∨ Rabs (new.2 - cur.2) > a_thresh s.

(** The linear displacement of the specification between two odometry
    samples: the distance between their positions. *)
Definition linear_displacement (cur new : R * R * R) : R :=
  sqrt ((new.1.1 - cur.1.1) ^ 2 + (new.1.2 - cur.1.2) ^ 2).

(** The angular displacement of the specification between two odometry
    samples. *)
Definition angular_displacement (cur new : R * R * R) : R :=
  Rabs (new.2 - cur.2).

(** The filter after its first scan at odometry (0, 0, 0), with two
    particles. *)
Definition parked_filter : ParticleFilter :=
  set_current_odom_xy_theta (Some (0, 0, 0)) two_particle_filter.

(** A scan received after the robot has moved 3 cm along x and 3 cm along
    y. *)
Definition diagonal_scan : ScanInput :=
  {| can_transform_laser := true;
     can_transform_odom := true;
     tf_odom_pose := (3 / 100, 3 / 100, 0);
     ranges := full_scan |}.

(** What the steps of a cycle after the motion update may do to the
    recorded odometry and to the publications: keep the first, extend the
    second. *)
Definition log_grows (s s' : ParticleFilter) : Prop :=
  current_odom_xy_theta s' = current_odom_xy_theta s
  ∧ odom_pose s' = odom_pose s
  ∧ ∃ more, published s' = published s ++ more.

(** Every run of [c] relates the state before to the state after by [R]. *)
Definition steps {A : Type} (R : ParticleFilter → ParticleFilter → Prop) (c : M A)
    : Prop :=
  ∀ s o s', c s = (o, s') → R s s'.

(** Cell [c] of the grid is occupied: its entry of [data] is positive. *)
Definition occupied (g : OccupancyGrid) (c : nat * nat) : Prop :=
  ∃ v, data g !! Z.to_nat (cell_index (grid_info g) c) = Some v ∧ (0 < v)%Z.

(** Cell [c] lies in the grid. *)
Definition in_grid (m : MapInfo) (c : nat * nat) : Prop :=
  (Z.of_nat c.1 < width m)%Z ∧ (Z.of_nat c.2 < height m)%Z.

(** A two-by-two grid of unit cells whose only obstacle is cell (0,0). *)
Definition corner_grid : OccupancyGrid :=
  {| grid_info := info two_by_two; data := [100; 0; 0; -1]%Z |}.

(** ** The angle helpers of [ParticleFilter] *)

(** [ParticleFilter.angle_normalize], on a finite angle. *)
Definition angle_normalize (z : R) : R := atan2 (sin z) (cos z).

(** [ParticleFilter.angle_diff], on finite angles. *)
Definition angle_diff (a b : R) : R :=
  let a := angle_normalize a in
  let b := angle_normalize b in
  let d1 := a - b in
  let d2 := 2 * PI - Rabs d1 in
  let d2 := if Rgtb d1 0 then d2 * -1 else d2 in
  if Rltb (Rabs d1) (Rabs d2) then d1 else d2.


(** * Properties *)

(** ** Truncation *)

Lemma py_int_nonneg (r : R) (z : Z) :
  IZR z <= r < IZR z + 1 → 0 <= r → py_int r = z.
Proof.
  intros Hz Hr. unfold py_int.
  destruct (Rle_dec 0 r) as [_ | Hn]; [| contradiction].
  now apply Zfloor_eq.
Qed.

Lemma py_int_neg (r : R) : r <= -1 → (py_int r < 0)%Z.
Proof.
  intros Hr. unfold py_int.
  destruct (Rle_dec 0 r) as [H0 | _]; [lra |].
  destruct (Zceil_bound r) as [Hlo Hhi].
  assert (Hc : (Zceil r <= -1)%Z).
  { unfold Zceil.
    assert (Hf : (1 <= Zfloor (- r))%Z) by (apply Zfloor_lub; simpl; lra).
    lia. }
  lia.
Qed.

Lemma py_int_sign (r : R) : 0 <= r → (0 <= py_int r)%Z.
Proof.
  intros Hr. unfold py_int.
  destruct (Rle_dec 0 r) as [_ | Hn]; [| contradiction].
  now apply Zfloor_lub.
Qed.

(** ** get_closest_obstacle_distance *)

Lemma get_closest_obstacle_distance_unfold (f : OccupancyField) (px py : R) :
  resolution (info f) ≠ 0 →
  get_closest_obstacle_distance f px py =
    let gx := grid_x f px in
    let gy := grid_y f py in
    if ((gx >? width (info f)) || (gx <? 0))%Z then Ret NaN else
    if ((gy >? height (info f)) || (gy <? 0))%Z then Ret NaN else
    if ((gx + gy * width (info f) >=? width (info f) * height (info f))
        || (gx + gy * width (info f) <? 0))%Z then Ret NaN else
    match closest_occupied f !! (gx + gy * width (info f))%Z with
    | Some d => Ret (Fin d)
    | None => Raise KeyError
    end.
Proof.
  intros Hres. unfold get_closest_obstacle_distance, grid_x, grid_y.
  destruct (Req_dec_T (resolution (info f)) 0) as [E | _]; [contradiction |].
  reflexivity.
Qed.

(** Inside the grid the query returns the entry of the cell it falls in. *)
Lemma get_closest_obstacle_distance_inside (f : OccupancyField) (px py : R) :
  resolution (info f) ≠ 0 →
  field_complete f →
  (0 <= grid_x f px < width (info f))%Z →
  (0 <= grid_y f py < height (info f))%Z →
  ∃ d, closest_occupied f !! (grid_x f px + grid_y f py * width (info f))%Z = Some d
       ∧ get_closest_obstacle_distance f px py = Ret (Fin d).
Proof.
  intros Hres Hc Hx Hy.
  rewrite get_closest_obstacle_distance_unfold by assumption. cbv zeta.
  set (gx := grid_x f px) in *. set (gy := grid_y f py) in *.
  assert (Hind : (0 <= gx + gy * width (info f) < width (info f) * height (info f))%Z) by nia.
  destruct (Hc _ Hind) as [d Hd].
  exists d. split; [exact Hd |].
  replace ((gx >? width (info f)) || (gx <? 0))%Z with false
    by (symmetry; apply orb_false_iff; split; lia).
  replace ((gy >? height (info f)) || (gy <? 0))%Z with false
    by (symmetry; apply orb_false_iff; split; lia).
  replace ((gx + gy * width (info f) >=? width (info f) * height (info f))
           || (gx + gy * width (info f) <? 0))%Z with false
    by (symmetry; apply orb_false_iff; split; lia).
  now rewrite Hd.
Qed.

(** A negative index, an x index beyond [width] or a y index of at least
    [height] yields nan. *)
Lemma get_closest_obstacle_distance_outside (f : OccupancyField) (px py : R) :
  resolution (info f) ≠ 0 →
  (0 <= width (info f))%Z →
  (grid_x f px < 0 ∨ width (info f) < grid_x f px
   ∨ grid_y f py < 0 ∨ height (info f) <= grid_y f py)%Z →
  get_closest_obstacle_distance f px py = Ret NaN.
Proof.
  intros Hres Hw Hout.
  rewrite get_closest_obstacle_distance_unfold by assumption. cbv zeta.
  set (gx := grid_x f px) in *. set (gy := grid_y f py) in *.
  destruct ((gx >? width (info f)) || (gx <? 0))%Z eqn:E1; [reflexivity |].
  destruct ((gy >? height (info f)) || (gy <? 0))%Z eqn:E2; [reflexivity |].
  apply orb_false_iff in E1 as [E1a E1b]. apply orb_false_iff in E2 as [E2a E2b].
  replace ((gx + gy * width (info f) >=? width (info f) * height (info f))
           || (gx + gy * width (info f) <? 0))%Z with true; [reflexivity |].
  symmetry. apply orb_true_iff. left.
  assert (height (info f) <= gy)%Z by lia.
  assert (0 <= gx)%Z by lia.
  apply Z.geb_le. nia.
Qed.

(** C1: on the two-by-two map the point (2.5, 0.5) has x index 2, which is
    the width, so it lies outside [0, width) x [0, height); the query does not
    return nan but the entry of cell (0,1), one row up. *)
Theorem get_closest_obstacle_distance_one_past_width :
  grid_x two_by_two (5 / 2) = width (info two_by_two)
  ∧ grid_y two_by_two (1 / 2) = 0%Z
  ∧ closest_occupied two_by_two !! (0 + 1 * width (info two_by_two))%Z = Some 1
  ∧ get_closest_obstacle_distance two_by_two (5 / 2) (1 / 2) = Ret (Fin 1).
Proof.
  assert (Hx : grid_x two_by_two (5 / 2) = 2%Z).
  { unfold grid_x; simpl. apply py_int_nonneg; simpl; lra. }
  assert (Hy : grid_y two_by_two (1 / 2) = 0%Z).
  { unfold grid_y; simpl. apply py_int_nonneg; simpl; lra. }
  assert (Hd : closest_occupied two_by_two !! 2%Z = Some 1).
  { unfold two_by_two; simpl.
    rewrite lookup_insert_ne by lia. rewrite lookup_insert_ne by lia.
    apply lookup_insert_eq. }
  repeat split; try assumption.
  rewrite get_closest_obstacle_distance_unfold by (simpl; lra).
  cbv zeta. rewrite Hx, Hy.
  change (width (info two_by_two)) with 2%Z.
  change (height (info two_by_two)) with 2%Z.
  change (2 + 0 * 2)%Z with 2%Z. rewrite Hd. reflexivity.
Qed.

(** ** The particle store and the loops over the cloud *)

Lemma upd_same (h : nat → Particle) (l : nat) (p : Particle) : upd h l p l = p.
Proof. unfold upd. now rewrite Nat.eqb_refl. Qed.

Lemma upd_other (h : nat → Particle) (l l' : nat) (p : Particle) :
  l' ≠ l → upd h l p l' = h l'.
Proof. intros Hne. unfold upd. now apply Nat.eqb_neq in Hne as ->. Qed.

Lemma update_all_in (g : Particle → Particle) (locs : list nat)
    (h : nat → Particle) (l : nat) :
  l ∈ locs → update_all g locs h l = g (h l).
Proof. intros Hin. unfold update_all. now rewrite bool_decide_eq_true_2. Qed.

Lemma update_all_notin (g : Particle → Particle) (locs : list nat)
    (h : nat → Particle) (l : nat) :
  l ∉ locs → update_all g locs h l = h l.
Proof. intros Hin. unfold update_all. now rewrite bool_decide_eq_false_2. Qed.

Lemma update_all_cons (g : Particle → Particle) (a : nat) (locs : list nat)
    (h : nat → Particle) :
  a ∉ locs →
  update_all g locs (upd h a (g (h a))) = update_all g (a :: locs) h.
Proof.
  intros Ha. apply functional_extensionality. intros l.
  unfold update_all, upd.
  destruct (Nat.eqb_spec l a) as [-> | Hne].
  - rewrite bool_decide_eq_false_2 by assumption.
    rewrite bool_decide_eq_true_2 by (apply elem_of_cons; now left).
    reflexivity.
  - destruct (decide (l ∈ locs)) as [Hin | Hnin].
    + rewrite !bool_decide_eq_true_2;
        [reflexivity | apply elem_of_cons; now right | assumption].
    + rewrite !bool_decide_eq_false_2; [reflexivity | | assumption].
      intros [-> | H]%elem_of_cons; contradiction.
Qed.

Lemma update_all_nil (g : Particle → Particle) (h : nat → Particle) :
  update_all g [] h = h.
Proof.
  apply functional_extensionality. intros l. apply update_all_notin.
  apply not_elem_of_nil.
Qed.

Lemma set_store_id (s : ParticleFilter) : set_store (store s) (next_loc s) s = s.
Proof. now destruct s. Qed.

(** A loop that rewrites each particle of the cloud from its own fields, as
    long as the computation of the new fields does not raise. *)
Lemma for_each_rewrite {A : Type} (g : Particle → outcome A)
    (k : Particle → A → Particle) (q : Particle → A)
    (cloud : list nat) (s : ParticleFilter) :
  NoDup cloud →
  (∀ l, l ∈ cloud → g (store s l) = Ret (q (store s l))) →
  for_each
    (fun l => p <- read_particle l ;; v <- lift (g p) ;; write_particle l (k p v))
    cloud s
  = (Ret tt, set_store (update_all (fun p => k p (q p)) cloud (store s)) (next_loc s) s).
Proof.
  revert s. induction cloud as [| a rest IH]; intros s Hnd Hg.
  - simpl. unfold ret. now rewrite update_all_nil, set_store_id.
  - apply NoDup_cons in Hnd as [Ha Hnd].
    simpl. unfold bind at 1. unfold bind at 1.
    unfold read_particle, gets. unfold bind at 1. unfold lift.
    rewrite (Hg a) by (apply elem_of_cons; now left).
    unfold write_particle, modify.
    rewrite IH; [| assumption |].
    + simpl. rewrite update_all_cons by assumption. reflexivity.
    + intros l Hl. simpl. rewrite upd_other; [apply Hg; apply elem_of_cons; now right |].
      intros ->. contradiction.
Qed.

(** Whatever the outcome, a loop that only assigns [w] leaves the pose of
    every particle object, the cloud and the other attributes alone. *)
Lemma for_each_set_w_frame {A : Type} (g : nat → Particle → outcome A)
    (k : A → num) (cloud : list nat) (s s' : ParticleFilter) (o : outcome unit) :
  for_each
    (fun l => p <- read_particle l ;; v <- lift (g l p) ;; write_particle l (set_w p (k v)))
    cloud s = (o, s') →
  particle_cloud s' = particle_cloud s
  ∧ robot_pose s' = robot_pose s
  ∧ next_loc s' = next_loc s
  ∧ ∀ l, x (store s' l) = x (store s l) ∧ y (store s' l) = y (store s l)
         ∧ theta (store s' l) = theta (store s l).
Proof.
  revert s. induction cloud as [| a rest IH]; intros s Hrun.
  - simpl in Hrun. unfold ret in Hrun. inversion Hrun; subst.
    split; [| split; [| split]]; try reflexivity. intros l. now repeat split.
  - simpl in Hrun. unfold bind at 1 in Hrun. unfold bind at 1 in Hrun.
    unfold read_particle, gets in Hrun. unfold bind at 1 in Hrun.
    unfold lift in Hrun.
    destruct (g a (store s a)) as [v | e].
    + unfold write_particle, modify in Hrun.
      apply IH in Hrun as (Hc & Hr & Hn & Hp). simpl in *.
      split; [| split; [| split]]; try assumption.
      intros l. specialize (Hp l) as (Hx & Hy & Ht).
      rewrite Hx, Hy, Ht. unfold upd.
      destruct (Nat.eqb_spec l a) as [-> | _]; now repeat split.
    + inversion Hrun; subst.
      split; [| split; [| split]]; try reflexivity. intros l. now repeat split.
Qed.

(** ** Sums of weights *)

Lemma val_num_add (a b : num) : val (num_add a b) = fadd (val a) (val b).
Proof. now destruct a, b. Qed.

Lemma val_quotient (a b : num) : val (quotient a b) = fdiv (val a) (val b).
Proof. now destruct a, b. Qed.

Lemma num_div_ret (a b : num) :
  fzero (val b) = false ∨ (∃ v, b = Np v) → num_div a b = Ret (quotient a b).
Proof.
  intros [Hz | [v ->]].
  - destruct a, b; simpl in *; try reflexivity. now rewrite Hz.
  - now destruct a.
Qed.

Lemma total_weight_val_from (h : nat → Particle) (cloud : list nat) (acc : num) :
  val (fold_left (fun acc l => num_add acc (w (h l))) cloud acc)
  = fold_left (fun acc l => fadd acc (val (w (h l)))) cloud (val acc).
Proof.
  revert acc. induction cloud as [| a rest IH]; intros acc; simpl; [reflexivity |].
  now rewrite IH, val_num_add.
Qed.

Lemma total_weight_val (h : nat → Particle) (cloud : list nat) :
  val (total_weight h cloud)
  = fold_left (fun acc l => fadd acc (val (w (h l)))) cloud (Fin 0).
Proof. unfold total_weight. now rewrite total_weight_val_from. Qed.

Lemma fold_fadd_not_fin (h : nat → Particle) (cloud : list nat) (acc : fval) :
  (∀ r, acc ≠ Fin r) →
  ∀ r, fold_left (fun acc l => fadd acc (val (w (h l)))) cloud acc ≠ Fin r.
Proof.
  revert acc. induction cloud as [| a rest IH]; intros acc Hacc; simpl; [exact Hacc |].
  apply IH. intros r.
  destruct acc as [r0 | | |]; [now contradiction (Hacc r0) | | |];
    destruct (val (w (h a))); discriminate.
Qed.

Lemma fold_fadd_fin (h : nat → Particle) (cloud : list nat) (a s : R) :
  fold_left (fun acc l => fadd acc (val (w (h l)))) cloud (Fin a) = Fin s →
  (∀ l, l ∈ cloud → val (w (h l)) = Fin (rweight (h l)))
  ∧ s = a + Rsum (map (fun l => rweight (h l)) cloud).
Proof.
  revert a. induction cloud as [| c rest IH]; intros a Hs; simpl in *.
  - inversion Hs; subst. split; [| unfold Rsum; simpl; lra].
    intros l Hl. now apply not_elem_of_nil in Hl.
  - destruct (val (w (h c))) as [r | | |] eqn:Ec; simpl in Hs.
    + apply IH in Hs as [Hall ->]. split.
      * intros l [-> | Hl]%elem_of_cons; [| now apply Hall].
        unfold rweight. now rewrite Ec.
      * unfold rweight at 2. rewrite Ec. unfold Rsum; simpl. lra.
    + now apply fold_fadd_not_fin in Hs.
    + now apply fold_fadd_not_fin in Hs.
    + now apply fold_fadd_not_fin in Hs.
Qed.

Lemma fold_fadd_all_fin (h : nat → Particle) (cloud : list nat) (a : R) :
  (∀ l, l ∈ cloud → val (w (h l)) = Fin (rweight (h l))) →
  fold_left (fun acc l => fadd acc (val (w (h l)))) cloud (Fin a)
  = Fin (a + Rsum (map (fun l => rweight (h l)) cloud)).
Proof.
  revert a. induction cloud as [| c rest IH]; intros a Hall; simpl.
  - f_equal. unfold Rsum; simpl; lra.
  - rewrite (Hall c) by (apply elem_of_cons; now left). simpl.
    rewrite IH by (intros l Hl; apply Hall, elem_of_cons; now right).
    f_equal. unfold Rsum; simpl. lra.
Qed.

Lemma Rsum_map_ext {A : Type} (f g : A → R) (l : list A) :
  (∀ a, a ∈ l → f a = g a) → Rsum (map f l) = Rsum (map g l).
Proof.
  induction l as [| a rest IH]; intros Hfg; [reflexivity |].
  unfold Rsum in *; simpl.
  rewrite (Hfg a) by (apply elem_of_cons; now left).
  rewrite IH; [reflexivity |]. intros b Hb. apply Hfg, elem_of_cons. now right.
Qed.

Lemma Rsum_map_scale {A : Type} (f : A → R) (c : R) (l : list A) :
  Rsum (map (fun a => f a / c) l) = Rsum (map f l) / c.
Proof.
  induction l as [| a rest IH]; unfold Rsum in *; simpl; [lra |].
  rewrite IH. lra.
Qed.

(** ** normalize_particles *)

(** When the division cannot raise, every weight of the cloud is divided by
    the sum computed beforehand and nothing else changes. *)
Lemma normalize_particles_ret (st : ParticleFilter) :
  NoDup (particle_cloud st) →
  (fzero (val (total_weight (store st) (particle_cloud st))) = false
   ∨ ∃ v, total_weight (store st) (particle_cloud st) = Np v) →
  normalize_particles st =
    (Ret tt,
     set_store
       (update_all
          (fun p => set_w p (quotient (w p) (total_weight (store st) (particle_cloud st))))
          (particle_cloud st) (store st))
       (next_loc st) st).
Proof.
  intros Hnd Hsum. unfold normalize_particles.
  unfold bind at 1. unfold gets at 1. unfold bind at 1. unfold gets at 1.
  apply (for_each_rewrite
           (fun p => num_div (w p) (total_weight (store st) (particle_cloud st)))
           set_w
           (fun p => quotient (w p) (total_weight (store st) (particle_cloud st))));
    [assumption |].
  intros l _. now apply num_div_ret.
Qed.

(** Between Python floats a zero sum makes the first division raise, before
    any weight has been assigned. *)
Lemma normalize_particles_python_zero (st : ParticleFilter) (a : nat)
    (rest : list nat) (u z : fval) :
  particle_cloud st = a :: rest →
  w (store st a) = Py u →
  total_weight (store st) (particle_cloud st) = Py z →
  fzero z = true →
  normalize_particles st = (Raise ZeroDivisionError, st).
Proof.
  intros Hc Hw Hsum Hz. unfold normalize_particles.
  unfold bind at 1. unfold gets at 1. unfold bind at 1. unfold gets at 1.
  rewrite Hsum, Hc. simpl.
  unfold bind at 1. unfold bind at 1. unfold read_particle, gets.
  unfold bind at 1. unfold lift. rewrite Hw. simpl. now rewrite Hz.
Qed.

(** The effect of a successful normalisation, field by field. *)
Lemma normalize_particles_sum_one_aux (st : ParticleFilter) (s : R) :
  NoDup (particle_cloud st) →
  val (total_weight (store st) (particle_cloud st)) = Fin s →
  0 < s →
  ∃ st',
    normalize_particles st = (Ret tt, st')
    ∧ particle_cloud st' = particle_cloud st
    ∧ (∀ l, l ∈ particle_cloud st →
         val (w (store st' l)) = Fin (rweight (store st l) / s))
    ∧ (∀ l, x (store st' l) = x (store st l) ∧ y (store st' l) = y (store st l)
            ∧ theta (store st' l) = theta (store st l)).
Proof.
  intros Hnd Hsum Hpos.
  assert (Hz : fzero (val (total_weight (store st) (particle_cloud st))) = false).
  { rewrite Hsum. simpl. destruct (Req_dec_T s 0); [lra | reflexivity]. }
  rewrite normalize_particles_ret by (try assumption; now left).
  eexists. split; [reflexivity |]. simpl.
  pose proof Hsum as Hfold. rewrite total_weight_val in Hfold.
  apply fold_fadd_fin in Hfold as [Hfin Hs].
  split; [reflexivity |]. split.
  - intros l Hl. rewrite update_all_in by assumption. simpl.
    rewrite val_quotient, Hsum, (Hfin l Hl). simpl.
    destruct (Req_dec_T s 0); [lra | reflexivity].
  - intros l. unfold update_all.
    destruct (bool_decide (l ∈ particle_cloud st)); now repeat split.
Qed.

(** C7: on a cloud of distinct particle objects whose weights sum to a
    strictly positive [s], [normalize_particles] returns, divides every weight
    by [s], and leaves weights whose sum is one (exactly, floats being
    idealised as reals); non-negative weights stay non-negative. *)
Theorem normalize_particles_sum_one (st : ParticleFilter) (s : R) :
  NoDup (particle_cloud st) →
  val (total_weight (store st) (particle_cloud st)) = Fin s →
  0 < s →
  ∃ st',
    normalize_particles st = (Ret tt, st')
    ∧ particle_cloud st' = particle_cloud st
    ∧ (∀ l, l ∈ particle_cloud st →
         val (w (store st' l)) = Fin (rweight (store st l) / s))
    ∧ val (total_weight (store st') (particle_cloud st')) = Fin 1
    ∧ ((∀ l, l ∈ particle_cloud st → fnonneg (val (w (store st l)))) →
       ∀ l, l ∈ particle_cloud st' → fnonneg (val (w (store st' l)))).
Proof.
  intros Hnd Hsum Hpos.
  assert (Hz : fzero (val (total_weight (store st) (particle_cloud st))) = false).
  { rewrite Hsum. simpl. destruct (Req_dec_T s 0); [lra | reflexivity]. }
  rewrite normalize_particles_ret by (try assumption; now left).
  eexists. split; [reflexivity |]. simpl.
  pose proof Hsum as Hfold. rewrite total_weight_val in Hfold.
  apply fold_fadd_fin in Hfold as [Hfin Hs].
  assert (Hnew : ∀ l, l ∈ particle_cloud st →
            val (w (update_all
                      (fun p => set_w p (quotient (w p)
                                           (total_weight (store st) (particle_cloud st))))
                      (particle_cloud st) (store st) l))
            = Fin (rweight (store st l) / s)).
  { intros l Hl. rewrite update_all_in by assumption. simpl.
    rewrite val_quotient, Hsum, (Hfin l Hl). simpl.
    destruct (Req_dec_T s 0); [lra | reflexivity]. }
  split; [reflexivity |]. split; [exact Hnew |]. split.
  - rewrite total_weight_val.
    rewrite fold_fadd_all_fin.
    + f_equal.
      rewrite (Rsum_map_ext _ (fun l => rweight (store st l) / s)).
      * rewrite Rsum_map_scale. field_simplify_eq; lra.
      * intros l Hl. unfold rweight at 1. now rewrite (Hnew l Hl).
    + intros l Hl. unfold rweight. now rewrite (Hnew l Hl).
  - intros Hnn l Hl. rewrite (Hnew l Hl). simpl.
    specialize (Hnn l Hl). rewrite (Hfin l Hl) in Hnn. simpl in Hnn.
    apply Rmult_le_pos; [assumption |]. left. now apply Rinv_0_lt_compat.
Qed.

Lemma NoDup_two_particle_cloud : NoDup [0; 1]%nat.
Proof.
  apply NoDup_cons. split.
  - intros H%list_elem_of_singleton. discriminate.
  - apply NoDup_singleton.
Qed.

Lemma normalize_particles_sum_one_witness :
  ∃ st',
    normalize_particles two_particle_filter = (Ret tt, st')
    ∧ particle_cloud st' = particle_cloud two_particle_filter
    ∧ (∀ l, l ∈ particle_cloud two_particle_filter →
         val (w (store st' l)) = Fin (rweight (store two_particle_filter l) / (0 + 1 + 1)))
    ∧ val (total_weight (store st') (particle_cloud st')) = Fin 1
    ∧ ((∀ l, l ∈ particle_cloud two_particle_filter →
          fnonneg (val (w (store two_particle_filter l)))) →
       ∀ l, l ∈ particle_cloud st' → fnonneg (val (w (store st' l)))).
Proof.
  apply (normalize_particles_sum_one two_particle_filter (0 + 1 + 1)).
  - exact NoDup_two_particle_cloud.
  - reflexivity.
  - lra.
Defined.

(** C2: two particles whose weights are the numpy scalar 0.0 have total
    weight zero; [normalize_particles] neither raises nor assigns a uniform
    weight: it returns and leaves nan in both weights. *)
Theorem normalize_particles_zero_total_nan :
  val (total_weight (store zero_weight_filter) (particle_cloud zero_weight_filter))
    = Fin 0
  ∧ ∃ st',
      normalize_particles zero_weight_filter = (Ret tt, st')
      ∧ particle_cloud st' = [0; 1]%nat
      ∧ w (store st' 0%nat) = Np NaN
      ∧ w (store st' 1%nat) = Np NaN.
Proof.
  split.
  - simpl. f_equal. lra.
  - rewrite normalize_particles_ret.
    + eexists. split; [reflexivity |]. simpl. split; [reflexivity |].
      destruct (Req_dec_T (0 + 0 + 0) 0) as [_ | Hn]; [| lra].
      destruct (Rlt_dec 0 0); [lra |]. now split.
    + exact NoDup_two_particle_cloud.
    + right. simpl. eauto.
Qed.

(** ** update_initial_pose *)

(** C6: the handler passes the pose hint to [initialize_particle_cloud],
    which takes no argument: every call raises [TypeError] and leaves the
    filter as it was, whatever the hint. *)
Theorem update_initial_pose_raises (unif : nat → R) (xy_theta : R * R * R)
    (st : ParticleFilter) :
  update_initial_pose unif xy_theta st = (Raise TypeError, st).
Proof. reflexivity. Qed.

(** ** update_particles_with_laser *)

Lemma for_each_skip {A : Type} (l : list A) (s : ParticleFilter) :
  for_each (fun _ => ret tt) l s = (Ret tt, s).
Proof. induction l as [| a rest IH]; simpl; [reflexivity |]. exact IH. Qed.

Lemma update_particles_with_laser_frame
    (dict_keys : gmap nat R → list nat) (scan : list fval)
    (st st' : ParticleFilter) (o : outcome unit) :
  update_particles_with_laser dict_keys scan st = (o, st') →
  particle_cloud st' = particle_cloud st
  ∧ robot_pose st' = robot_pose st
  ∧ next_loc st' = next_loc st
  ∧ ∀ l, x (store st' l) = x (store st l) ∧ y (store st' l) = y (store st l)
         ∧ theta (store st' l) = theta (store st l).
Proof.
  unfold update_particles_with_laser.
  unfold bind at 1. unfold gets at 1. unfold bind at 1. unfold gets at 1.
  destruct (25 <=? length (dict_keys (filter_laser scan)))%nat.
  - intros Hrun.
    exact (for_each_set_w_frame
             (fun _ p =>
                fold_outcome
                  (beam_step (occupancy_field st) (filter_laser scan)
                     (dict_keys (filter_laser scan))
                     (length (dict_keys (filter_laser scan))) 25 p)
                  (seq 0 25) (Py (Fin 1)))
             (fun v => v) _ _ _ _ Hrun).
  - rewrite for_each_skip. intros Hrun. inversion Hrun; subst.
    split; [| split; [| split]]; try reflexivity. intros l. now repeat split.
Qed.

(** C10: whatever the scan and whatever the outcome, the sensor update
    leaves x, y and theta of every particle object as they were; the cloud
    holds the same objects. *)
Theorem update_particles_with_laser_keeps_pose
    (dict_keys : gmap nat R → list nat) (scan : list fval)
    (st : ParticleFilter) (l : nat) :
  let st' := (update_particles_with_laser dict_keys scan st).2 in
  particle_cloud st' = particle_cloud st
  ∧ x (store st' l) = x (store st l)
  ∧ y (store st' l) = y (store st l)
  ∧ theta (store st' l) = theta (store st l).
Proof.
  destruct (update_particles_with_laser dict_keys scan st) as [o st1] eqn:Hrun.
  apply update_particles_with_laser_frame in Hrun as (Hc & _ & _ & Hp).
  cbv zeta. cbn [snd]. split; [assumption | apply Hp].
Qed.

(** ** update_particles_with_odom *)

Lemma move_particle_noise_free (r1 dd r2 s1 s2 a : R) (p : Particle) :
  move_particle r1 dd r2 (0 + s1 * 0) a (0 + s2 * 0) p
  = rotate_translate_rotate r1 dd r2 p.
Proof.
  unfold move_particle, rotate_translate_rotate. f_equal; ring.
Qed.

(** With every Gaussian draw equal to zero the particle loop applies the
    rotate-translate-rotate step to each object and consumes three draws per
    particle. *)
Lemma odom_loop_noise_free (gauss unif : nat → R) (r1 dd r2 : R)
    (cloud : list nat) (s : ParticleFilter) :
  (∀ k, gauss k = 0) →
  NoDup cloud →
  for_each
    (fun l =>
       delta_random_radius <- np_random_normal gauss 0 RADIAL_SIGMA ;;
       u <- random_sample unif ;;
       delta_random_orient_angle <- np_random_normal gauss 0 ORIENTATION_SIGMA ;;
       p <- read_particle l ;;
       write_particle l
         (move_particle r1 dd r2 delta_random_radius (u * TAU / 2)
            delta_random_orient_angle p))
    cloud s
  = (Ret tt,
     set_rng_ticks (3 * length cloud + rng_ticks s)
       (set_store (update_all (rotate_translate_rotate r1 dd r2) cloud (store s))
          (next_loc s) s)).
Proof.
  intros Hg. revert s. induction cloud as [| a rest IH]; intros s Hnd.
  - simpl. rewrite update_all_nil. now destruct s.
  - apply NoDup_cons in Hnd as [Ha Hnd].
    cbn [for_each]. unfold bind at 1.
    unfold bind at 1. unfold np_random_normal at 1.
    unfold bind at 1. unfold random_sample at 1.
    unfold bind at 1. unfold np_random_normal at 1.
    unfold bind at 1. unfold read_particle, gets.
    unfold write_particle, modify.
    rewrite !Hg, move_particle_noise_free.
    rewrite IH by assumption.
    destruct s; unfold tick, set_rng_ticks, set_store; cbn.
    rewrite update_all_cons by assumption.
    do 2 f_equal. lia.
Qed.

Lemma update_particles_with_odom_rtr (gauss unif : nat → R) (st : ParticleFilter)
    (ox oy ot nx ny nt : R) :
  (∀ k, gauss k = 0) →
  NoDup (particle_cloud st) →
  current_odom_xy_theta st = Some (ox, oy, ot) →
  odom_pose st = (nx, ny, nt) →
  let r1 := atan2 (ny - oy) (nx - ox) - ot in
  let translation := sqrt ((nx - ox) ^ 2 + (ny - oy) ^ 2) in
  let r2 := (nt - ot) - r1 in
  ∃ st',
    update_particles_with_odom gauss unif st = (Ret tt, st')
    ∧ particle_cloud st' = particle_cloud st
    ∧ current_odom_xy_theta st' = Some (nx, ny, nt)
    ∧ (∀ l, l ∈ particle_cloud st →
         store st' l = rotate_translate_rotate r1 translation r2 (store st l))
    ∧ (∀ l, l ∉ particle_cloud st → store st' l = store st l).
Proof.
  intros Hg Hnd Hcur Hodom r1 translation r2.
  unfold update_particles_with_odom.
  unfold bind at 1. unfold gets at 1. unfold bind at 1. unfold gets at 1.
  unfold bind at 1. unfold modify at 1.
  rewrite Hcur, Hodom. cbv beta iota zeta.
  unfold bind at 1. unfold gets at 1.
  cbn [fst snd particle_cloud set_current_odom_xy_theta].
  fold r1. fold translation. fold r2.
  pose proof (odom_loop_noise_free gauss unif r1 translation r2 (particle_cloud st)
                (set_current_odom_xy_theta (Some (nx, ny, nt)) st) Hg Hnd) as Hloop.
  cbv zeta. rewrite Hloop. eexists. split; [reflexivity |].
  cbn. repeat split.
  - intros l Hl. now apply update_all_in.
  - intros l Hl. now apply update_all_notin.
Qed.

Lemma atan2_0_1 : atan2 (0 - 0) (1 - 0) = 0.
Proof.
  unfold atan2. destruct (Rlt_dec 0 (1 - 0)) as [_ | Hn]; [| lra].
  replace ((0 - 0) / (1 - 0)) with 0 by lra. apply atan_0.
Qed.

Lemma one_step_example :
  ∃ st',
    update_particles_with_odom (fun _ => 0) (fun _ => 0) one_step_filter = (Ret tt, st')
    ∧ store st' 0%nat = {| x := 1; y := 0; theta := 0; w := Py (Fin 1) |}.
Proof.
  destruct (update_particles_with_odom_rtr (fun _ => 0) (fun _ => 0) one_step_filter
              0 0 0 1 0 0) as (st' & Hrun & _ & _ & Hin & _); try reflexivity.
  { apply NoDup_singleton. }
  exists st'. split; [exact Hrun |].
  rewrite Hin by (apply elem_of_cons; now left).
  rewrite atan2_0_1.
  replace ((1 - 0) ^ 2 + (0 - 0) ^ 2) with 1 by lra. rewrite sqrt_1.
  unfold rotate_translate_rotate. cbn.
  replace (0 + (0 - 0)) with 0 by lra. rewrite cos_0, sin_0.
  f_equal; lra.
Qed.

(** C8: when every Gaussian draw is zero, the odometry update moves each
    particle of the cloud by the rotate-translate-rotate step computed from
    the recorded and the current odometry, and records the current odometry;
    with recorded odometry (0,0,0) and current odometry (1,0,0) the particle
    at (0,0,0) ends at (1,0,0). *)
Theorem update_particles_with_odom_noise_free :
  (∀ (gauss unif : nat → R) (st : ParticleFilter) (ox oy ot nx ny nt : R),
     (∀ k, gauss k = 0) →
     NoDup (particle_cloud st) →
     current_odom_xy_theta st = Some (ox, oy, ot) →
     odom_pose st = (nx, ny, nt) →
     let r1 := atan2 (ny - oy) (nx - ox) - ot in
     let translation := sqrt ((nx - ox) ^ 2 + (ny - oy) ^ 2) in
     let r2 := (nt - ot) - r1 in
     ∃ st',
       update_particles_with_odom gauss unif st = (Ret tt, st')
       ∧ particle_cloud st' = particle_cloud st
       ∧ current_odom_xy_theta st' = Some (nx, ny, nt)
       ∧ (∀ l, l ∈ particle_cloud st →
            store st' l = rotate_translate_rotate r1 translation r2 (store st l))
       ∧ (∀ l, l ∉ particle_cloud st → store st' l = store st l))
  ∧ (∃ st',
       update_particles_with_odom (fun _ => 0) (fun _ => 0) one_step_filter
         = (Ret tt, st')
       ∧ store st' 0%nat = {| x := 1; y := 0; theta := 0; w := Py (Fin 1) |}).
Proof.
  split.
  - exact update_particles_with_odom_rtr.
  - exact one_step_example.
Qed.

Lemma update_particles_with_odom_noise_free_witness :
  (∀ k : nat, (fun _ : nat => 0) k = 0)
  ∧ NoDup (particle_cloud one_step_filter)
  ∧ current_odom_xy_theta one_step_filter = Some (0, 0, 0)
  ∧ odom_pose one_step_filter = (1, 0, 0)
  ∧ ∃ st',
      update_particles_with_odom (fun _ => 0) (fun _ => 0) one_step_filter
        = (Ret tt, st')
      ∧ particle_cloud st' = particle_cloud one_step_filter
      ∧ current_odom_xy_theta st' = Some (1, 0, 0)
      ∧ (∀ l, l ∈ particle_cloud one_step_filter →
           store st' l =
             rotate_translate_rotate (atan2 (0 - 0) (1 - 0) - 0)
               (sqrt ((1 - 0) ^ 2 + (0 - 0) ^ 2))
               (0 - 0 - (atan2 (0 - 0) (1 - 0) - 0)) (store one_step_filter l))
      ∧ (∀ l, l ∉ particle_cloud one_step_filter →
           store st' l = store one_step_filter l).
Proof.
  split; [reflexivity |]. split; [apply NoDup_singleton |].
  split; [reflexivity |]. split; [reflexivity |].
  apply (proj1 update_particles_with_odom_noise_free
           (fun _ => 0) (fun _ => 0) one_step_filter 0 0 0 1 0 0).
  - reflexivity.
  - apply NoDup_singleton.
  - reflexivity.
  - reflexivity.
Defined.

(** ** update_robot_pose *)

Lemma fold_fadd_terms (t : nat → fval) (rt : nat → R) (cloud : list nat) (a : R) :
  (∀ l, l ∈ cloud → t l = Fin (rt l)) →
  fold_left (fun acc l => fadd acc (t l)) cloud (Fin a)
  = Fin (a + Rsum (map rt cloud)).
Proof.
  revert a. induction cloud as [| c rest IH]; intros a Hall; simpl.
  - f_equal. unfold Rsum; simpl; lra.
  - rewrite (Hall c) by (apply elem_of_cons; now left). simpl.
    rewrite IH by (intros l Hl; apply Hall, elem_of_cons; now right).
    f_equal. unfold Rsum; simpl. lra.
Qed.

(** The accumulators of [update_robot_pose] after the weights have been
    divided by their sum [s]. *)
Lemma weighted_total_normalized (f : Particle → R) (h h' : nat → Particle)
    (cloud : list nat) (s : R) :
  (∀ l, l ∈ cloud → val (w (h' l)) = Fin (rweight (h l) / s)) →
  (∀ l, l ∈ cloud → f (h' l) = f (h l)) →
  weighted_total f h' cloud = Fin (weighted_mean f h cloud s).
Proof.
  intros Hw Hf. unfold weighted_total, weighted_mean.
  rewrite (fold_fadd_terms _ (fun l => rweight (h l) / s * f (h l))).
  - f_equal. lra.
  - intros l Hl. rewrite (Hw l Hl), (Hf l Hl). reflexivity.
Qed.

Lemma update_robot_pose_ret (st : ParticleFilter) (s : R) :
  NoDup (particle_cloud st) →
  val (total_weight (store st) (particle_cloud st)) = Fin s →
  0 < s →
  ∃ st',
    update_robot_pose st = (Ret tt, st')
    ∧ particle_cloud st' = particle_cloud st
    ∧ robot_pose st' =
        {| position :=
             (Fin (weighted_mean x (store st) (particle_cloud st) s),
              Fin (weighted_mean y (store st) (particle_cloud st) s),
              Fin 0);
           orientation :=
             (Fin 0, Fin 0,
              Fin (sin (weighted_mean theta (store st) (particle_cloud st) s / 2)),
              Fin (cos (weighted_mean theta (store st) (particle_cloud st) s / 2))) |}.
Proof.
  intros Hnd Hsum Hpos.
  destruct (normalize_particles_sum_one_aux st s Hnd Hsum Hpos)
    as (st1 & Hrun & Hc & Hw & Hxyz).
  unfold update_robot_pose. unfold bind at 1. rewrite Hrun.
  unfold bind at 1. unfold gets at 1.
  unfold bind at 1. unfold gets at 1.
  unfold bind at 1. unfold gets at 1.
  unfold bind at 1. unfold gets at 1.
  rewrite Hc.
  rewrite (weighted_total_normalized x (store st) (store st1) _ s);
    [| assumption | intros l _; apply Hxyz].
  rewrite (weighted_total_normalized y (store st) (store st1) _ s);
    [| assumption | intros l _; apply Hxyz].
  rewrite (weighted_total_normalized theta (store st) (store st1) _ s);
    [| assumption | intros l _; apply Hxyz].
  unfold bind at 1. unfold lift, as_pose, quaternion_from_yaw, modify.
  eexists. split; [reflexivity |]. split; [exact Hc | reflexivity].
Qed.






(** ** resample_particles *)

Lemma choice_atol_bounds : 0 < choice_atol < 1.
Proof.
  unfold choice_atol. split.
  - apply Rinv_0_lt_compat. apply pow_lt. lra.
  - rewrite <- Rinv_1. apply Rinv_lt_contravar.
    + rewrite Rmult_1_l. apply pow_lt. lra.
    + simpl. lra.
Qed.

Lemma cumsum_length (acc : R) (p : list R) : length (cumsum acc p) = length p.
Proof. revert acc. induction p as [| a rest IH]; intros acc; simpl; [reflexivity |]. now rewrite IH. Qed.

Lemma cumsum_last (acc : R) (a : R) (p : list R) (d : R) :
  List.last (cumsum acc (a :: p)) d = acc + Rsum (a :: p).
Proof.
  revert acc a. induction p as [| b rest IH]; intros acc a.
  - unfold Rsum; simpl. lra.
  - change (cumsum acc (a :: b :: rest))
      with ((acc + a) :: cumsum (acc + a) (b :: rest)).
    change (List.last ((acc + a) :: cumsum (acc + a) (b :: rest)) d)
      with (List.last (cumsum (acc + a) (b :: rest)) d).
    rewrite IH. unfold Rsum; simpl. lra.
Qed.

(** A count of the entries below [u] leaves out a last entry above [u]. *)
Lemma searchsorted_right_lt (cdf : list R) (u d : R) :
  cdf ≠ [] → u < List.last cdf d →
  (searchsorted_right cdf u < length cdf)%nat.
Proof.
  unfold searchsorted_right.
  induction cdf as [| c rest IH]; intros Hne Hlast; [contradiction |].
  destruct rest as [| c' rest'].
  - simpl in *. unfold Rleb. destruct (Rle_dec c u); [lra | simpl; lia].
  - assert (Hrec : (length (List.filter (fun c0 => Rleb c0 u) (c' :: rest'))
                    < length (c' :: rest'))%nat).
    { apply IH; [discriminate | exact Hlast]. }
    change (List.filter (fun c0 => Rleb c0 u) (c :: c' :: rest'))
      with (if Rleb c u
            then c :: List.filter (fun c0 => Rleb c0 u) (c' :: rest')
            else List.filter (fun c0 => Rleb c0 u) (c' :: rest')).
    destruct (Rleb c u); simpl length in *; lia.
Qed.

Lemma last_map_div (l : list R) (c d : R) :
  l ≠ [] → List.last (map (fun v => v / c) l) d = List.last l d / c.
Proof.
  induction l as [| a rest IH]; intros Hne; [contradiction |].
  destruct rest as [| b rest']; [reflexivity |].
  change (List.last (map (fun v => v / c) (a :: b :: rest')) d)
    with (List.last (map (fun v => v / c) (b :: rest')) d).
  rewrite IH by discriminate. reflexivity.
Qed.

Lemma existsb_negative_false (pr : list R) :
  (∀ v, v ∈ pr → 0 <= v) → existsb (fun v => Rltb v 0) pr = false.
Proof.
  induction pr as [| a rest IH]; intros Hall; [reflexivity |].
  simpl. unfold Rltb at 1.
  destruct (Rlt_dec a 0) as [Hlt | _].
  - assert (0 <= a) by (apply Hall, elem_of_cons; now left). lra.
  - apply IH. intros v Hv. apply Hall, elem_of_cons. now right.
Qed.

(** On valid probabilities the draw returns a member of [a] and takes one
    uniform sample. *)
Lemma np_random_choice_ret (unif : nat → R) (a : list nat) (p : list num)
    (pr : list R) (s : ParticleFilter) :
  a ≠ [] →
  finite_values p = Some pr →
  length pr = length a →
  (∀ v, v ∈ pr → 0 <= v) →
  Rabs (Rsum pr - 1) <= choice_atol →
  unif (rng_ticks s) < 1 →
  ∃ l, l ∈ a ∧ np_random_choice unif a p s = (Ret l, tick s).
Proof.
  intros Hne Hfin Hlen Hnn Hsum Hu.
  pose proof choice_atol_bounds as [Hat0 Hat1].
  assert (Hpos : 0 < Rsum pr).
  { unfold Rabs in Hsum. destruct (Rcase_abs (Rsum pr - 1)); lra. }
  unfold np_random_choice. rewrite Hfin.
  destruct a as [| a0 arest]; [contradiction |].
  rewrite Hlen, Nat.eqb_refl. cbn [negb].
  rewrite existsb_negative_false by assumption.
  unfold Rgtb. destruct (Rgt_dec (Rabs (Rsum pr - 1)) choice_atol) as [Hgt | _]; [lra |].
  unfold bind at 1. unfold random_sample at 1.
  destruct pr as [| p0 prest]; [discriminate |].
  set (cdf := cumsum 0 (p0 :: prest)).
  assert (Hidx : (searchsorted_right (map (fun c => (c / List.last cdf 0)%R) cdf)
                    (unif (rng_ticks s)) < length (a0 :: arest))%nat).
  { rewrite <- Hlen, <- (cumsum_length 0 (p0 :: prest)).
    fold cdf. rewrite <- (length_map (fun c => c / List.last cdf 0) cdf).
    apply (searchsorted_right_lt _ _ 0).
    - subst cdf. discriminate.
    - rewrite last_map_div by (subst cdf; discriminate).
      subst cdf. rewrite cumsum_last.
      replace ((0 + Rsum (p0 :: prest)) / (0 + Rsum (p0 :: prest))) with 1
        by (field; lra).
      exact Hu. }
  apply lookup_lt_is_Some in Hidx as [l Hl].
  exists l. split; [now apply list_elem_of_lookup_2 in Hl |].
  cbv zeta. fold cdf. rewrite Hl. reflexivity.
Qed.

(** Whatever its outcome, the draw leaves the filter alone but for the
    generator, and a value it returns is a member of [a]. *)
Lemma np_random_choice_frame (unif : nat → R) (a : list nat) (p : list num)
    (s s1 : ParticleFilter) (o : outcome nat) :
  np_random_choice unif a p s = (o, s1) →
  (s1 = s ∨ s1 = tick s) ∧ (∀ l, o = Ret l → l ∈ a).
Proof.
  unfold np_random_choice.
  destruct a as [| a0 arest].
  { unfold raise. intros H; inversion H; subst. split; [now left | discriminate]. }
  destruct (finite_values p) as [pr |].
  2: { unfold raise. intros H; inversion H; subst. split; [now left | discriminate]. }
  destruct (negb (length pr =? length (a0 :: arest))%nat).
  { unfold raise. intros H; inversion H; subst. split; [now left | discriminate]. }
  destruct (existsb (fun v => Rltb v 0) pr).
  { unfold raise. intros H; inversion H; subst. split; [now left | discriminate]. }
  destruct (Rgtb (Rabs (Rsum pr - 1)) choice_atol).
  { unfold raise. intros H; inversion H; subst. split; [now left | discriminate]. }
  unfold bind at 1. unfold random_sample at 1. cbv zeta.
  destruct (_ !! _) as [l |] eqn:Hl.
  - unfold ret. intros H; inversion H; subst. split; [now right |].
    intros l' Hl'. inversion Hl'; subst. now apply list_elem_of_lookup_2 in Hl.
  - unfold raise. intros H; inversion H; subst. split; [now right | discriminate].
Qed.

Lemma for_each_set_w_store {A : Type} (g : nat → Particle → outcome A)
    (k : A → num) (cloud : list nat) (s s' : ParticleFilter) (o : outcome unit) :
  for_each
    (fun l => p <- read_particle l ;; v <- lift (g l p) ;; write_particle l (set_w p (k v)))
    cloud s = (o, s') →
  ∃ h, s' = set_store h (next_loc s) s ∧ ∀ l, same_pose (h l) (store s l).
Proof.
  revert s. induction cloud as [| a rest IH]; intros s Hrun.
  - simpl in Hrun. unfold ret in Hrun. inversion Hrun; subst.
    exists (store s'). split; [now rewrite set_store_id | now intros l].
  - simpl in Hrun. unfold bind at 1 in Hrun. unfold bind at 1 in Hrun.
    unfold read_particle, gets in Hrun. unfold bind at 1 in Hrun.
    unfold lift in Hrun.
    destruct (g a (store s a)) as [v | e].
    + unfold write_particle, modify in Hrun.
      apply IH in Hrun as (h & -> & Hp).
      exists h. split; [now destruct s |].
      intros l. destruct (Hp l) as (Hx & Hy & Ht). simpl in *.
      unfold same_pose. rewrite Hx, Hy, Ht. unfold upd.
      destruct (Nat.eqb_spec l a) as [-> | _]; now repeat split.
    + inversion Hrun; subst.
      exists (store s'). split; [now rewrite set_store_id | now intros l].
Qed.

Lemma normalize_particles_store (st st' : ParticleFilter) (o : outcome unit) :
  normalize_particles st = (o, st') →
  ∃ h, st' = set_store h (next_loc st) st ∧ ∀ l, same_pose (h l) (store st l).
Proof.
  unfold normalize_particles.
  unfold bind at 1. unfold gets at 1. unfold bind at 1. unfold gets at 1.
  intros Hrun.
  exact (for_each_set_w_store
           (fun _ p => num_div (w p) (total_weight (store st) (particle_cloud st)))
           (fun v => v) _ _ _ _ Hrun).
Qed.

(** The loop of [resample_particles] from any state: the objects that exist
    when it starts are left alone, and the list it returns is made of the
    objects allocated meanwhile, each a copy of a member of [cloud]. *)
Lemma resample_loop_frame (unif : nat → R) (cloud : list nat) (p : list num)
    (n i : nat) (s s' : ParticleFilter) (o : outcome (list nat)) :
  (∀ l, l ∈ cloud → (l < next_loc s)%nat) →
  map_m (fun _ : nat => chosen <- np_random_choice unif cloud p ;; deepcopy chosen)
        (seq i n) s = (o, s') →
  particle_cloud s' = particle_cloud s
  ∧ n_particles s' = n_particles s
  ∧ (∀ l, (l < next_loc s)%nat → store s' l = store s l)
  ∧ (∀ new, o = Ret new →
       new = seq (next_loc s) n
       ∧ ∀ l, l ∈ new → ∃ l0, l0 ∈ cloud ∧ store s' l = store s l0).
Proof.
  revert i s s' o. induction n as [| n IH]; intros i s s' o Hwf Hrun.
  - simpl in Hrun. unfold ret in Hrun. inversion Hrun; subst.
    repeat split; try reflexivity.
    + now inversion H.
    + intros l Hl. inversion H; subst. now apply not_elem_of_nil in Hl.
  - cbn [seq map_m] in Hrun. unfold bind at 1 in Hrun. unfold bind at 1 in Hrun.
    destruct (np_random_choice unif cloud p s) as [o1 s1] eqn:Hch.
    apply np_random_choice_frame in Hch as [Hs1 Hmem].
    assert (Hst : store s1 = store s ∧ next_loc s1 = next_loc s
                  ∧ particle_cloud s1 = particle_cloud s
                  ∧ n_particles s1 = n_particles s).
    { destruct Hs1 as [-> | ->]; now repeat split. }
    destruct Hst as (Hst & Hnl & Hpc & Hnp).
    destruct o1 as [l0 | e].
    2: { inversion Hrun; subst. rewrite Hst, Hpc, Hnp.
         repeat split; try reflexivity; discriminate. }
    specialize (Hmem l0 eq_refl).
    unfold deepcopy at 1 in Hrun. unfold bind at 1 in Hrun.
    match type of Hrun with context [map_m ?f (seq (S i) n) ?s0] =>
      destruct (map_m f (seq (S i) n) s0) as [o2 s2] eqn:Hrest end.
    apply IH in Hrest as (Hc2 & Hn2 & Hold2 & Hnew2).
    2: { intros l Hl. cbn. rewrite Hnl. specialize (Hwf l Hl). lia. }
    cbn in Hc2, Hn2, Hold2, Hnew2. rewrite Hnl, Hst in *.
    assert (Hold : ∀ l, (l < next_loc s)%nat → store s2 l = store s l).
    { intros l Hl. rewrite Hold2 by lia. apply upd_other. lia. }
    destruct o2 as [bs | e]; unfold ret in Hrun; inversion Hrun; subst.
    + rewrite Hc2, Hn2, Hpc, Hnp. repeat split; try reflexivity; try assumption.
      * inversion H. destruct (Hnew2 bs eq_refl) as [-> _]. reflexivity.
      * intros l Hl. inversion H; subst.
        destruct (Hnew2 bs eq_refl) as [Hbs Hcopy].
        apply elem_of_cons in Hl as [-> | Hl].
        -- exists l0. split; [assumption |].
           rewrite Hold2 by lia. apply upd_same.
        -- destruct (Hcopy l Hl) as (l1 & Hl1 & Heq).
           exists l1. split; [assumption |].
           rewrite Heq. apply upd_other. specialize (Hwf l1 Hl1). lia.
    + rewrite Hc2, Hn2, Hpc, Hnp. repeat split; try reflexivity; try assumption.
      all: discriminate.
Qed.

(** On valid probabilities and uniform samples below one the loop returns. *)
Lemma resample_loop_ret (unif : nat → R) (cloud : list nat) (p : list num)
    (pr : list R) (n i : nat) (s : ParticleFilter) :
  cloud ≠ [] →
  finite_values p = Some pr →
  length pr = length cloud →
  (∀ v, v ∈ pr → 0 <= v) →
  Rabs (Rsum pr - 1) <= choice_atol →
  (∀ k, unif k < 1) →
  ∃ new s',
    map_m (fun _ : nat => chosen <- np_random_choice unif cloud p ;; deepcopy chosen)
          (seq i n) s = (Ret new, s').
Proof.
  intros Hne Hfin Hlen Hnn Hsum Hu.
  revert i s. induction n as [| n IH]; intros i s.
  - simpl. unfold ret. eauto.
  - cbn [seq map_m]. unfold bind at 1. unfold bind at 1.
    destruct (np_random_choice_ret unif cloud p pr s Hne Hfin Hlen Hnn Hsum (Hu _))
      as (l0 & _ & ->).
    unfold deepcopy at 1. unfold bind at 1.
    match goal with |- context [map_m ?f (seq (S i) n) ?s0] =>
      destruct (IH (S i) s0) as (bs & s2 & ->) end.
    unfold ret. eauto.
Qed.

Lemma finite_values_weights (h : nat → Particle) (r : nat → R) (cloud : list nat) :
  (∀ l, l ∈ cloud → val (w (h l)) = Fin (r l)) →
  finite_values (map (fun l => w (h l)) cloud) = Some (map r cloud).
Proof.
  induction cloud as [| a rest IH]; intros Hall; [reflexivity |].
  simpl. rewrite (Hall a) by (apply elem_of_cons; now left).
  rewrite IH; [reflexivity |]. intros l Hl. apply Hall, elem_of_cons. now right.
Qed.


(** [resample_particles] returns on a cloud of distinct objects whose weights
    are non-negative with a strictly positive sum, when the uniform samples
    are below one. *)
Lemma resample_particles_ret (unif : nat → R) (st : ParticleFilter) (s : R) :
  NoDup (particle_cloud st) →
  val (total_weight (store st) (particle_cloud st)) = Fin s →
  0 < s →
  (∀ l, l ∈ particle_cloud st → fnonneg (val (w (store st l)))) →
  (∀ k, unif k < 1) →
  ∃ st', resample_particles unif st = (Ret tt, st').
Proof.
  intros Hnd Hsum Hpos Hnn Hu.
  destruct (normalize_particles_sum_one_aux st s Hnd Hsum Hpos)
    as (st1 & Hrun & Hc & Hw & _).
  pose proof Hsum as Hfold. rewrite total_weight_val in Hfold.
  apply fold_fadd_fin in Hfold as [Hfin Hs].
  unfold resample_particles. unfold bind at 1. rewrite Hrun.
  unfold bind at 1. unfold gets at 1.
  unfold bind at 1. unfold gets at 1.
  unfold bind at 1. unfold gets at 1.
  unfold bind at 1. rewrite Hc.
  assert (Hne : particle_cloud st ≠ []).
  { intros E. rewrite E in Hs. unfold Rsum in Hs; simpl in Hs. lra. }
  destruct (resample_loop_ret unif (particle_cloud st)
              (map (fun l => w (store st1 l)) (particle_cloud st))
              (map (fun l => rweight (store st l) / s) (particle_cloud st))
              (n_particles st1) 0 st1) as (new & st2 & ->); try assumption.
  - now apply finite_values_weights.
  - now rewrite length_map.
  - intros v [l [-> Hl]]%list_elem_of_fmap.
    specialize (Hnn l Hl). rewrite (Hfin l Hl) in Hnn. simpl in Hnn.
    apply Rmult_le_pos; [assumption |]. left. now apply Rinv_0_lt_compat.
  - rewrite Rsum_map_scale.
    replace (Rsum (map (fun l => rweight (store st l)) (particle_cloud st)) / s - 1)
      with 0 by (rewrite Hs; field; lra).
    rewrite Rabs_R0. left. apply choice_atol_bounds.
  - unfold modify. eauto.
Qed.



(** ** update_particles_with_laser: the weights *)

Lemma filter_laser_from_bound (i : nat) (scan : list fval) (acc : gmap nat R) :
  (∀ k v, acc !! k = Some v → 0 < v < 35 / 10) →
  ∀ k v, filter_laser_from i scan acc !! k = Some v → 0 < v < 35 / 10.
Proof.
  revert i acc. induction scan as [| r rest IH]; intros i acc Hacc; [exact Hacc |].
  simpl. apply IH.
  destruct r as [v0 | | |]; try exact Hacc.
  unfold Rltb.
  destruct (Rlt_dec 0 v0) as [H0 |]; [| exact Hacc].
  destruct (Rlt_dec v0 (35 / 10)) as [H1 |]; [| exact Hacc].
  simpl. intros k v. rewrite lookup_insert.
  destruct (decide (i = k)) as [-> | _]; [| apply Hacc].
  intros H; inversion H; subst. lra.
Qed.

(** Every reading kept by [filter_laser] lies in (0, 3.5). *)
Lemma filter_laser_bound (scan : list fval) (k : nat) (v : R) :
  filter_laser scan !! k = Some v → 0 < v < 35 / 10.
Proof.
  apply filter_laser_from_bound. intros k' v' H. now rewrite lookup_empty in H.
Qed.

Lemma num_mul_nan_factor (dp : num) :
  num_mul dp (num_add (Py (Fin 1)) (norm_pdf 0 (5 / 100) NaN)) = Np NaN.
Proof. destruct dp as [v | v]; destruct v; reflexivity. Qed.

(** A beam cast from a particle that stands more than 3.5 m to the left of
    the map ends outside the map: the query yields nan and so does the
    product. *)
Lemma beam_step_outside (f : OccupancyField) (valid_ranges : gmap nat R)
    (keys : list nat) (p : Particle) (dp : num) (i : nat) :
  (∀ k, k ∈ keys → is_Some (valid_ranges !! k)) →
  (∀ k v, valid_ranges !! k = Some v → 0 < v < 35 / 10) →
  0 < resolution (info f) →
  (0 <= width (info f))%Z →
  x p + 35 / 10 <= origin_x (info f) - resolution (info f) →
  (25 <= length keys)%nat →
  (i < 25)%nat →
  beam_step f valid_ranges keys (length keys) 25 p dp i = Ret (Np NaN).
Proof.
  intros Hkeys Hbound Hres Hw Hleft Hlen Hi. unfold beam_step.
  assert (Hidx : (i * length keys / 25 < length keys)%nat).
  { apply Nat.Div0.div_lt_upper_bound. nia. }
  apply lookup_lt_is_Some_2 in Hidx as [index Hindex]. rewrite Hindex.
  destruct (Hkeys index) as [radius Hradius];
    [now apply list_elem_of_lookup_2 in Hindex |].
  rewrite Hradius. cbv zeta.
  apply Hbound in Hradius.
  rewrite get_closest_obstacle_distance_outside; [apply f_equal, num_mul_nan_factor | lra | assumption |].
  left. unfold grid_x. apply py_int_neg.
  set (a := py_fmod (INR index + 25 / 100 * TAU) TAU + theta p).
  pose proof (COS_bound a) as [_ Hcos].
  assert (Hb : cos a * radius + x p - origin_x (info f) <= - resolution (info f)) by nra.
  assert (Hinv : 0 < / resolution (info f)) by now apply Rinv_0_lt_compat.
  assert (Hone : resolution (info f) * / resolution (info f) = 1) by (apply Rinv_r; lra).
  unfold Rdiv. nra.
Qed.

Lemma beam_loop_outside (f : OccupancyField) (valid_ranges : gmap nat R)
    (keys : list nat) (p : Particle) :
  (∀ k, k ∈ keys → is_Some (valid_ranges !! k)) →
  (∀ k v, valid_ranges !! k = Some v → 0 < v < 35 / 10) →
  0 < resolution (info f) →
  (0 <= width (info f))%Z →
  x p + 35 / 10 <= origin_x (info f) - resolution (info f) →
  (25 <= length keys)%nat →
  fold_outcome (beam_step f valid_ranges keys (length keys) 25 p)
    (seq 0 25) (Py (Fin 1)) = Ret (Np NaN).
Proof.
  intros Hkeys Hbound Hres Hw Hleft Hlen.
  assert (Hgen : ∀ (l : list nat) (dp : num),
            l ≠ [] → (∀ i, i ∈ l → (i < 25)%nat) →
            fold_outcome (beam_step f valid_ranges keys (length keys) 25 p) l dp
            = Ret (Np NaN)).
  { induction l as [| i rest IH]; intros dp Hne Hall; [contradiction |].
    cbn [fold_outcome].
    rewrite beam_step_outside; try assumption;
      [| apply Hall, elem_of_cons; now left].
    destruct rest as [| j rest']; [reflexivity |].
    apply IH; [discriminate |].
    intros i' Hi'. apply Hall, elem_of_cons. now right. }
  apply Hgen; [discriminate |].
  intros i [_ Hi]%elem_of_seq. lia.
Qed.

Lemma filter_laser_from_size (i n : nat) (acc : gmap nat R) :
  (∀ k, (i <= k)%nat → acc !! k = None) →
  size (filter_laser_from i (replicate n (Fin 1)) acc) = (size acc + n)%nat.
Proof.
  revert i acc. induction n as [| n IH]; intros i acc Hfree; simpl; [lia |].
  unfold Rltb.
  destruct (Rlt_dec 0 1) as [_ | H]; [| lra].
  destruct (Rlt_dec 1 (35 / 10)) as [_ | H]; [| lra].
  simpl. rewrite IH.
  - rewrite map_size_insert_None by (apply Hfree; lia). lia.
  - intros k Hk. rewrite lookup_insert_ne by lia. apply Hfree. lia.
Qed.

Lemma full_scan_valid_len : length (hash_order_keys (filter_laser full_scan)) = 25%nat.
Proof.
  unfold hash_order_keys. rewrite length_fmap, length_map_to_list.
  unfold filter_laser, full_scan. rewrite filter_laser_from_size.
  - now rewrite map_size_empty.
  - intros k _. apply lookup_empty.
Qed.

Lemma hash_order_keys_sound (m : gmap nat R) (k : nat) :
  k ∈ hash_order_keys m → is_Some (m !! k).
Proof.
  unfold hash_order_keys. intros [[k' v] [-> Hkv]]%list_elem_of_fmap.
  apply elem_of_map_to_list in Hkv. simpl. eauto.
Qed.

(** C5: a particle a hundred metres to the left of the map and a scan of 25
    valid readings: every selected beam ends outside the map, each query
    returns nan, and the weight assigned to the particle is nan, which is not
    strictly positive. *)
Theorem update_particles_with_laser_nan_weight :
  (25 <= length (hash_order_keys (filter_laser full_scan)))%nat
  ∧ ∃ st',
      update_particles_with_laser hash_order_keys full_scan outside_filter
        = (Ret tt, st')
      ∧ w (store st' 0%nat) = Np NaN
      ∧ ¬ fpositive (val (w (store st' 0%nat))).
Proof.
  split; [rewrite full_scan_valid_len; lia |].
  unfold update_particles_with_laser.
  unfold bind at 1. unfold gets at 1. unfold bind at 1. unfold gets at 1.
  destruct (25 <=? length (hash_order_keys (filter_laser full_scan)))%nat eqn:E.
  2: { apply Nat.leb_gt in E. rewrite full_scan_valid_len in E. lia. }
  rewrite (for_each_rewrite _ set_w (fun _ => Np NaN)).
  - eexists. split; [reflexivity |]. cbn [store set_store].
    rewrite update_all_in by (cbn; apply elem_of_cons; now left).
    cbn. split; [reflexivity | tauto].
  - cbn. apply NoDup_singleton.
  - intros l _.
    apply beam_loop_outside.
    + apply hash_order_keys_sound.
    + apply filter_laser_bound.
    + cbn. lra.
    + cbn. lia.
    + cbn. lra.
    + rewrite full_scan_valid_len. lia.
Qed.

Lemma val_num_mul (a b : num) : val (num_mul a b) = fmul (val a) (val b).
Proof. now destruct a, b. Qed.

Lemma get_closest_obstacle_distance_value (f : OccupancyField) (px py : R) (v : fval) :
  get_closest_obstacle_distance f px py = Ret v → v = NaN ∨ ∃ d, v = Fin d.
Proof.
  unfold get_closest_obstacle_distance.
  destruct (Req_dec_T _ _); [discriminate |]. cbv zeta.
  destruct (_ || _)%bool; [intros H; inversion H; now left |].
  destruct (_ || _)%bool; [intros H; inversion H; now left |].
  destruct (_ || _)%bool; [intros H; inversion H; now left |].
  destruct (_ !! _) as [d |]; [| discriminate].
  intros H; inversion H. right. eauto.
Qed.

Lemma norm_pdf_positive (v : R) :
  ∃ e, norm_pdf 0 (5 / 100) (Fin v) = Np (Fin e) ∧ 0 < e.
Proof.
  unfold norm_pdf. eexists. split; [reflexivity |].
  apply Rdiv_lt_0_compat; [| lra].
  apply Rdiv_lt_0_compat; [apply exp_pos |].
  apply sqrt_lt_R0. pose proof PI_RGT_0. lra.
Qed.

Lemma beam_step_weight (f : OccupancyField) (valid_ranges : gmap nat R)
    (keys : list nat) (valid_len : nat) (p : Particle) (dp q : num) (i : nat) :
  nan_or_at_least_one dp →
  beam_step f valid_ranges keys valid_len 25 p dp i = Ret q →
  nan_or_at_least_one q.
Proof.
  intros Hdp. unfold beam_step.
  destruct (keys !! _) as [index |]; [| discriminate].
  destruct (valid_ranges !! index) as [radius |]; [| discriminate].
  cbv zeta.
  destruct (get_closest_obstacle_distance _ _ _) as [d | e] eqn:Hd; [| discriminate].
  intros H.
  assert (Hq : q = num_mul dp (num_add (Py (Fin 1)) (norm_pdf 0 (5 / 100) d)))
    by congruence.
  subst q. clear H.
  unfold nan_or_at_least_one. rewrite val_num_mul, val_num_add.
  apply get_closest_obstacle_distance_value in Hd as [-> | [v ->]].
  - left. simpl. now destruct (val dp).
  - destruct (norm_pdf_positive v) as (e & -> & He). simpl.
    destruct Hdp as [-> | (r & -> & Hr)]; [now left |].
    right. exists (r * (1 + e)). split; [reflexivity | nra].
Qed.

Lemma beam_loop_weight (f : OccupancyField) (valid_ranges : gmap nat R)
    (keys : list nat) (valid_len : nat) (p : Particle) (l : list nat) (dp q : num) :
  nan_or_at_least_one dp →
  fold_outcome (beam_step f valid_ranges keys valid_len 25 p) l dp = Ret q →
  nan_or_at_least_one q.
Proof.
  revert dp. induction l as [| i rest IH]; intros dp Hdp; simpl.
  - intros H; inversion H; now subst.
  - destruct (beam_step _ _ _ _ _ _ dp i) as [dp' | e] eqn:Hstep; [| discriminate].
    apply IH. now apply beam_step_weight in Hstep.
Qed.

(** When a loop that rewrites each particle from its own fields returns,
    each computation has returned and its value has been stored. *)
Lemma for_each_rewrite_inv {A : Type} (g : Particle → outcome A)
    (k : Particle → A → Particle) (cloud : list nat) (s s' : ParticleFilter) :
  NoDup cloud →
  for_each
    (fun l => p <- read_particle l ;; v <- lift (g p) ;; write_particle l (k p v))
    cloud s = (Ret tt, s') →
  ∀ l, l ∈ cloud → ∃ v, g (store s l) = Ret v ∧ store s' l = k (store s l) v.
Proof.
  revert s. induction cloud as [| a rest IH]; intros s Hnd Hrun l Hl.
  - now apply not_elem_of_nil in Hl.
  - apply NoDup_cons in Hnd as [Ha Hnd].
    simpl in Hrun. unfold bind at 1 in Hrun. unfold bind at 1 in Hrun.
    unfold read_particle, gets in Hrun. unfold bind at 1 in Hrun.
    unfold lift in Hrun.
    destruct (g (store s a)) as [v | e] eqn:Hg; [| discriminate].
    unfold write_particle, modify in Hrun.
    apply elem_of_cons in Hl as [-> | Hl].
    + exists v. split; [exact Hg |].
      assert (Hkeep : ∀ s0 s1, for_each
                (fun l => p <- read_particle l ;; v <- lift (g p) ;; write_particle l (k p v))
                rest s0 = (Ret tt, s1) → store s1 a = store s0 a).
      { clear -Ha. induction rest as [| b rest IH]; intros s0 s1 Hr.
        - simpl in Hr. unfold ret in Hr. now inversion Hr.
        - apply not_elem_of_cons in Ha as [Hab Ha].
          simpl in Hr. unfold bind at 1 in Hr. unfold bind at 1 in Hr.
          unfold read_particle, gets in Hr. unfold bind at 1 in Hr.
          unfold lift in Hr.
          destruct (g (store s0 b)) as [vb | e]; [| discriminate].
          unfold write_particle, modify in Hr.
          apply IH in Hr; [| assumption]. rewrite Hr. simpl. now apply upd_other. }
      apply Hkeep in Hrun. rewrite Hrun. simpl. apply upd_same.
    + destruct (IH _ Hnd Hrun l Hl) as (v' & Hg' & Hs').
      simpl in Hg', Hs'.
      assert (Hne : l ≠ a) by (intros ->; contradiction).
      rewrite upd_other in Hg', Hs' by assumption. eauto.
Qed.

(** Whenever the sensor update assigns weights and returns, each weight of
    the cloud is nan or at least one: never zero, never negative. *)
Lemma update_particles_with_laser_weight
    (dict_keys : gmap nat R → list nat) (scan : list fval)
    (st st' : ParticleFilter) :
  NoDup (particle_cloud st) →
  (25 <= length (dict_keys (filter_laser scan)))%nat →
  update_particles_with_laser dict_keys scan st = (Ret tt, st') →
  ∀ l, l ∈ particle_cloud st → nan_or_at_least_one (w (store st' l)).
Proof.
  intros Hnd Hlen. unfold update_particles_with_laser.
  unfold bind at 1. unfold gets at 1. unfold bind at 1. unfold gets at 1.
  apply Nat.leb_le in Hlen. rewrite Hlen.
  intros Hrun l Hl.
  destruct (for_each_rewrite_inv _ set_w _ _ _ Hnd Hrun l Hl) as (q & Hq & ->).
  simpl. apply beam_loop_weight in Hq; [exact Hq |].
  right. exists 1. split; [reflexivity | lra].
Qed.

(** ** scan_received *)

Lemma log_grows_refl (s : ParticleFilter) : log_grows s s.
Proof. repeat split. exists []. now rewrite app_nil_r. Qed.

Lemma log_grows_trans (s1 s2 s3 : ParticleFilter) :
  log_grows s1 s2 → log_grows s2 s3 → log_grows s1 s3.
Proof.
  intros (Hc1 & Ho1 & m1 & Hp1) (Hc2 & Ho2 & m2 & Hp2).
  split; [congruence |]. split; [congruence |].
  exists (m1 ++ m2). rewrite Hp2, Hp1. now rewrite app_assoc.
Qed.

Lemma log_grows_same (s s' : ParticleFilter) :
  current_odom_xy_theta s' = current_odom_xy_theta s →
  odom_pose s' = odom_pose s →
  published s' = published s →
  log_grows s s'.
Proof.
  intros Hc Ho Hp. split; [assumption |]. split; [assumption |].
  exists []. now rewrite app_nil_r.
Qed.

Lemma steps_ret {A : Type} (a : A) : steps log_grows (ret a).
Proof. intros s o s' [= <- <-]. now apply log_grows_same. Qed.

Lemma steps_raise {A : Type} (e : exn) : steps log_grows (@raise A e).
Proof. intros s o s' [= <- <-]. now apply log_grows_same. Qed.

Lemma steps_gets {A : Type} (f : ParticleFilter → A) : steps log_grows (gets f).
Proof. intros s o s' [= <- <-]. now apply log_grows_same. Qed.

Lemma steps_lift {A : Type} (v : outcome A) : steps log_grows (lift v).
Proof. intros s o s' [= <- <-]. now apply log_grows_same. Qed.

Lemma steps_modify (f : ParticleFilter → ParticleFilter) :
  (∀ s, log_grows s (f s)) → steps log_grows (modify f).
Proof. intros Hf s o s' [= <- <-]. apply Hf. Qed.

Lemma steps_bind {A B : Type} (c : M A) (k : A → M B) :
  steps log_grows c → (∀ a, steps log_grows (k a)) → steps log_grows (bind c k).
Proof.
  intros Hc Hk s o s'. unfold bind.
  destruct (c s) as [[a | e] s1] eqn:Hrun; intros H.
  - eapply log_grows_trans; [eapply Hc, Hrun | eapply Hk, H].
  - inversion H; subst. eapply Hc, Hrun.
Qed.

Lemma steps_for_each {A : Type} (body : A → M unit) (l : list A) :
  (∀ a, steps log_grows (body a)) → steps log_grows (for_each body l).
Proof.
  intros Hb. induction l as [| a rest IH]; simpl.
  - apply steps_ret.
  - apply steps_bind; [apply Hb | intros _; exact IH].
Qed.

Lemma steps_map_m {A B : Type} (f : A → M B) (l : list A) :
  (∀ a, steps log_grows (f a)) → steps log_grows (map_m f l).
Proof.
  intros Hf. induction l as [| a rest IH]; simpl.
  - apply steps_ret.
  - apply steps_bind; [apply Hf | intros b].
    apply steps_bind; [exact IH | intros bs; apply steps_ret].
Qed.

Lemma steps_write_particle (l : nat) (p : Particle) :
  steps log_grows (write_particle l p).
Proof. apply steps_modify. intros s. now apply log_grows_same. Qed.

Lemma steps_read_particle (l : nat) : steps log_grows (read_particle l).
Proof. apply steps_gets. Qed.

Lemma steps_deepcopy (l : nat) : steps log_grows (deepcopy l).
Proof. intros s o s' [= <- <-]. now apply log_grows_same. Qed.

Lemma steps_random_sample (unif : nat → R) : steps log_grows (random_sample unif).
Proof. intros s o s' [= <- <-]. now apply log_grows_same. Qed.

Lemma steps_np_random_normal (gauss : nat → R) (loc scale : R) :
  steps log_grows (np_random_normal gauss loc scale).
Proof. intros s o s' [= <- <-]. now apply log_grows_same. Qed.

Lemma steps_np_random_choice (unif : nat → R) (a : list nat) (p : list num) :
  steps log_grows (np_random_choice unif a p).
Proof.
  intros s o s' Hrun. apply np_random_choice_frame in Hrun as [[-> | ->] _];
    now apply log_grows_same.
Qed.

Ltac steps_auto :=
  repeat first
    [ apply steps_ret | apply steps_raise | apply steps_gets | apply steps_lift
    | apply steps_write_particle | apply steps_read_particle
    | apply steps_deepcopy | apply steps_random_sample
    | apply steps_np_random_normal | apply steps_np_random_choice
    | apply steps_modify; intros ?; apply log_grows_same; reflexivity
    | apply steps_for_each; intros ?
    | apply steps_map_m; intros ?
    | apply steps_bind; [| intros ?] ].

Lemma steps_normalize_particles : steps log_grows normalize_particles.
Proof. unfold normalize_particles. steps_auto. Qed.

Lemma steps_update_robot_pose : steps log_grows update_robot_pose.
Proof.
  unfold update_robot_pose.
  apply steps_bind; [apply steps_normalize_particles | intros _]. steps_auto.
Qed.

Lemma steps_resample_particles (unif : nat → R) :
  steps log_grows (resample_particles unif).
Proof.
  unfold resample_particles.
  apply steps_bind; [apply steps_normalize_particles | intros _]. steps_auto.
Qed.

Lemma steps_update_particles_with_laser
    (dict_keys : gmap nat R → list nat) (scan : list fval) :
  steps log_grows (update_particles_with_laser dict_keys scan).
Proof.
  unfold update_particles_with_laser.
  apply steps_bind; [apply steps_gets | intros cloud].
  apply steps_bind; [apply steps_gets | intros f].
  apply steps_for_each. intros l.
  destruct (25 <=? _)%nat; steps_auto.
Qed.

Lemma steps_fix_map_to_odom_transform : steps log_grows fix_map_to_odom_transform.
Proof. unfold fix_map_to_odom_transform. steps_auto. Qed.

(** [publish_particles] always returns and appends one pose array. *)
Lemma map_m_as_pose (cloud : list nat) (s : ParticleFilter) :
  map_m (fun l => p <- read_particle l ;; lift (Particle_as_pose p)) cloud s
  = (Ret (map (fun l => particle_pose (store s l)) cloud), s).
Proof.
  induction cloud as [| a rest IH]; [reflexivity |].
  cbn [map_m map]. unfold bind at 1. unfold bind at 1.
  unfold read_particle at 1. unfold gets at 1. unfold lift at 1.
  change (Particle_as_pose (store s a)) with (Ret (particle_pose (store s a))).
  cbv beta iota. unfold bind at 1. rewrite IH. reflexivity.
Qed.

Lemma publish_particles_ret (pub : topic) (s : ParticleFilter) :
  publish_particles pub s
  = (Ret tt, set_published (published s ++ [(pub, cloud_poses s)]) s).
Proof.
  unfold publish_particles. unfold bind at 1. unfold gets at 1.
  unfold bind at 1. rewrite map_m_as_pose. reflexivity.
Qed.

Lemma steps_publish_particles (pub : topic) : steps log_grows (publish_particles pub).
Proof.
  intros s o s'. rewrite publish_particles_ret. intros [= <- <-].
  repeat split. eexists. reflexivity.
Qed.

(** The motion update records the current odometry; it publishes nothing. *)
Lemma update_particles_with_odom_records (gauss unif : nat → R)
    (s s' : ParticleFilter) (o : outcome unit) :
  update_particles_with_odom gauss unif s = (o, s') →
  current_odom_xy_theta s' = Some (odom_pose s)
  ∧ odom_pose s' = odom_pose s
  ∧ ∃ more, published s' = published s ++ more.
Proof.
  unfold update_particles_with_odom.
  unfold bind at 1. unfold gets at 1. unfold bind at 1. unfold gets at 1.
  unfold bind at 1. unfold modify at 1.
  intros Hrun.
  assert (Hrest : log_grows (set_current_odom_xy_theta (Some (odom_pose s)) s) s').
  { revert Hrun.
    match goal with |- ?c ?s0 = _ → _ =>
      assert (Hc : steps log_grows c); [| exact (Hc _ _ _)] end.
    destruct (current_odom_xy_theta s) as [[[ox oy] ot] |]; [| apply steps_ret].
    destruct (odom_pose s) as [[nx ny] nt]. cbv zeta.
    steps_auto. }
  destruct Hrest as (Hc & Ho & Hp). exact (conj Hc (conj Ho Hp)).
Qed.

Lemma Rgtb_true (a b : R) : Rgtb a b = true ↔ a > b.
Proof. unfold Rgtb. destruct (Rgt_dec a b); split; intros; try assumption; try reflexivity; try discriminate; contradiction. Qed.

Lemma moved_enough_spec (s : ParticleFilter) (cur new : R * R * R) :
  current_odom_xy_theta s = Some cur →
  ∃ b, moved_enough s new = Ret b ∧ (b = true ↔ axis_moved s cur new).
Proof.
  intros Hcur. unfold moved_enough. rewrite Hcur.
  eexists. split; [reflexivity |]. unfold axis_moved.
  rewrite !orb_true_iff, !Rgtb_true. tauto.
Qed.

(** A cycle first publishes the cloud it starts from, then records the
    current odometry; nothing after that changes the record. *)
Lemma filter_cycle_starts (gauss unif : nat → R)
    (dict_keys : gmap nat R → list nat) (scan : list fval)
    (s s' : ParticleFilter) (o : outcome unit) :
  filter_cycle gauss unif dict_keys scan s = (o, s') →
  current_odom_xy_theta s' = Some (odom_pose s)
  ∧ ∃ more, published s' = published s ++ (rawcloud, cloud_poses s) :: more.
Proof.
  unfold filter_cycle. unfold bind at 1. rewrite publish_particles_ret.
  unfold bind at 1.
  destruct (update_particles_with_odom gauss unif _) as [o1 s1] eqn:Hodom.
  apply update_particles_with_odom_records in Hodom as (Hc1 & Ho1 & m1 & Hp1).
  cbn in Hc1, Ho1, Hp1.
  assert (Hrest : ∀ (c : M unit), steps log_grows c → c s1 = (o, s') →
            current_odom_xy_theta s' = Some (odom_pose s)
            ∧ ∃ more, published s' = published s ++ (rawcloud, cloud_poses s) :: more).
  { intros c Hc Hrun. apply Hc in Hrun as (Hc2 & _ & m2 & Hp2).
    split; [congruence |]. exists (m1 ++ m2).
    rewrite Hp2, Hp1. rewrite <- !app_assoc. reflexivity. }
  destruct o1 as [[] | e].
  - apply Hrest.
    apply steps_bind; [apply steps_publish_particles | intros _].
    apply steps_bind; [apply steps_update_particles_with_laser | intros _].
    apply steps_bind; [apply steps_publish_particles | intros _].
    apply steps_bind; [apply steps_resample_particles | intros _].
    apply steps_bind; [apply steps_update_robot_pose | intros _].
    apply steps_fix_map_to_odom_transform.
  - intros [= <- <-]. split; [assumption |].
    exists m1. rewrite Hp1. rewrite <- !app_assoc. reflexivity.
Qed.

(** Past its three guards and with a cloud, [scan_received] runs the cycle
    when the gate is open and only re-publishes the cloud when it is shut. *)
Lemma scan_received_moved (gauss unif : nat → R)
    (dict_keys : gmap nat R → list nat) (msg : ScanInput) (st : ParticleFilter)
    (a : nat) (rest : list nat) (cur : R * R * R) :
  initialized st = true →
  can_transform_laser msg = true →
  can_transform_odom msg = true →
  particle_cloud st = a :: rest →
  current_odom_xy_theta st = Some cur →
  axis_moved st cur (tf_odom_pose msg) →
  scan_received gauss unif dict_keys msg st =
    (filter_cycle gauss unif dict_keys (ranges msg) ;; publish_particles finalcloud)
      (set_odom_pose (tf_odom_pose msg) st).
Proof.
  intros Hi Hl Ho Hc Hcur Hmoved.
  unfold scan_received. unfold bind at 1. unfold gets at 1.
  rewrite Hi, Hl, Ho. cbn [negb].
  unfold bind at 1. unfold modify at 1.
  unfold bind at 1. unfold gets at 1.
  unfold bind at 1. unfold gets at 1.
  cbn [particle_cloud set_odom_pose odom_pose]. rewrite Hc.
  destruct (moved_enough_spec (set_odom_pose (tf_odom_pose msg) st) cur (tf_odom_pose msg))
    as (b & Hb & Hiff); [exact Hcur |].
  assert (b = true) as -> by (apply Hiff; exact Hmoved).
  unfold bind at 1. unfold bind at 1. rewrite Hb. reflexivity.
Qed.

Lemma scan_received_not_moved (gauss unif : nat → R)
    (dict_keys : gmap nat R → list nat) (msg : ScanInput) (st : ParticleFilter)
    (a : nat) (rest : list nat) (cur : R * R * R) :
  initialized st = true →
  can_transform_laser msg = true →
  can_transform_odom msg = true →
  particle_cloud st = a :: rest →
  current_odom_xy_theta st = Some cur →
  ¬ axis_moved st cur (tf_odom_pose msg) →
  scan_received gauss unif dict_keys msg st =
    (Ret tt,
     set_published (published st ++ [(finalcloud, cloud_poses st)])
       (set_odom_pose (tf_odom_pose msg) st)).
Proof.
  intros Hi Hl Ho Hc Hcur Hmoved.
  unfold scan_received. unfold bind at 1. unfold gets at 1.
  rewrite Hi, Hl, Ho. cbn [negb].
  unfold bind at 1. unfold modify at 1.
  unfold bind at 1. unfold gets at 1.
  unfold bind at 1. unfold gets at 1.
  cbn [particle_cloud set_odom_pose odom_pose]. rewrite Hc.
  destruct (moved_enough_spec (set_odom_pose (tf_odom_pose msg) st) cur (tf_odom_pose msg))
    as (b & Hb & Hiff); [exact Hcur |].
  assert (b = false) as ->.
  { destruct b; [| reflexivity]. exfalso. apply Hmoved. now apply Hiff. }
  unfold bind at 1. unfold bind at 1. rewrite Hb.
  unfold ret. rewrite publish_particles_ret. reflexivity.
Qed.

(** C4 (as the code has it): on a scan received by an initialised filter
    whose transforms are available and whose cloud is not empty, the gate is
    per coordinate: a cycle (motion, sensor, resample with its normalisation,
    estimate) runs when |dx| > d_thresh or |dy| > d_thresh or
    |dtheta| > a_thresh, the differences being taken coordinate by coordinate
    between the current and the recorded odometry; it then publishes the raw
    cloud first and records the current odometry.  Otherwise the call only
    stores the odometry pose and re-publishes the cloud: the particle
    objects, the cloud, the pose estimate and the recorded odometry are the
    same. *)
Theorem scan_received_gate (gauss unif : nat → R)
    (dict_keys : gmap nat R → list nat) (msg : ScanInput) (st : ParticleFilter)
    (a : nat) (rest : list nat) (cur : R * R * R) :
  initialized st = true →
  can_transform_laser msg = true →
  can_transform_odom msg = true →
  particle_cloud st = a :: rest →
  current_odom_xy_theta st = Some cur →
  let new := tf_odom_pose msg in
  let run := scan_received gauss unif dict_keys msg st in
  (axis_moved st cur new →
     run = (filter_cycle gauss unif dict_keys (ranges msg) ;;
            publish_particles finalcloud) (set_odom_pose new st)
     ∧ current_odom_xy_theta run.2 = Some new
     ∧ ∃ more, published run.2 = published st ++ (rawcloud, cloud_poses st) :: more)
  ∧ (¬ axis_moved st cur new →
     run = (Ret tt,
            set_published (published st ++ [(finalcloud, cloud_poses st)])
              (set_odom_pose new st))
     ∧ store run.2 = store st
     ∧ particle_cloud run.2 = particle_cloud st
     ∧ robot_pose run.2 = robot_pose st
     ∧ current_odom_xy_theta run.2 = Some cur).
Proof.
  intros Hi Hl Ho Hc Hcur new run. split.
  - intros Hmoved.
    assert (Hrun : run = (filter_cycle gauss unif dict_keys (ranges msg) ;;
                          publish_particles finalcloud) (set_odom_pose new st))
      by now apply (scan_received_moved _ _ _ _ _ a rest cur).
    split; [exact Hrun |]. rewrite Hrun. unfold bind.
    destruct (filter_cycle gauss unif dict_keys (ranges msg) (set_odom_pose new st))
      as [o1 s1] eqn:Hcycle.
    apply filter_cycle_starts in Hcycle as (Hrec & more & Hpub).
    cbn in Hrec, Hpub.
    destruct o1 as [[] | e].
    + rewrite publish_particles_ret. cbn. split; [exact Hrec |].
      eexists. rewrite Hpub. rewrite <- app_assoc. reflexivity.
    + cbn. split; [exact Hrec |]. eauto.
  - intros Hstill.
    assert (Hrun : run = (Ret tt,
                          set_published (published st ++ [(finalcloud, cloud_poses st)])
                            (set_odom_pose new st)))
      by now apply (scan_received_not_moved _ _ _ _ _ a rest cur).
    rewrite Hrun. cbn. now repeat split.
Qed.

Lemma parked_not_axis_moved :
  ¬ axis_moved parked_filter (0, 0, 0) (tf_odom_pose diagonal_scan).
Proof.
  unfold axis_moved. cbn. pose proof PI_RGT_0 as Hpi. unfold TAU.
  replace (3 / 100 - 0) with (3 / 100) by lra.
  replace (0 - 0) with 0 by lra.
  rewrite Rabs_R0. rewrite (Rabs_pos_eq (3 / 100)) by lra.
  intros [H | [H | H]]; nra.
Qed.

Lemma scan_received_gate_witness :
  initialized parked_filter = true
  ∧ can_transform_laser diagonal_scan = true
  ∧ can_transform_odom diagonal_scan = true
  ∧ particle_cloud parked_filter = [0; 1]%nat
  ∧ current_odom_xy_theta parked_filter = Some (0, 0, 0)
  ∧ scan_received (fun _ => 0) (fun _ => 0) hash_order_keys diagonal_scan parked_filter
      = (Ret tt,
         set_published
           (published parked_filter ++ [(finalcloud, cloud_poses parked_filter)])
           (set_odom_pose (tf_odom_pose diagonal_scan) parked_filter)).
Proof.
  repeat (split; [reflexivity |]).
  destruct (scan_received_gate (fun _ => 0) (fun _ => 0) hash_order_keys diagonal_scan
              parked_filter 0%nat [1%nat] (0, 0, 0)
              eq_refl eq_refl eq_refl eq_refl eq_refl) as [_ Hstill].
  destruct (Hstill parked_not_axis_moved) as [Hrun _]. exact Hrun.
Defined.

Lemma sqrt_gt (a b : R) : 0 <= a → a * a < b → a < sqrt b.
Proof.
  intros Ha Hab. rewrite <- (sqrt_square a) at 1 by assumption.
  apply sqrt_lt_1_alt. split; [nra | assumption].
Qed.

(** C4 as stated fails: after a move of 3 cm along x and 3 cm along y the
    linear displacement, about 4.24 cm, exceeds d_thresh = 4 cm, and yet no
    cycle runs: the only publication is the final cloud, and the recorded
    odometry, the cloud and the particle objects are unchanged. *)
Lemma scan_received_diagonal_no_cycle :
  (linear_displacement (0, 0, 0) (tf_odom_pose diagonal_scan) > d_thresh parked_filter
   ∨ angular_displacement (0, 0, 0) (tf_odom_pose diagonal_scan) > a_thresh parked_filter)
  ∧ ∃ st',
      scan_received (fun _ => 0) (fun _ => 0) hash_order_keys diagonal_scan parked_filter
        = (Ret tt, st')
      ∧ published st' = [(finalcloud, cloud_poses parked_filter)]
      ∧ current_odom_xy_theta st' = current_odom_xy_theta parked_filter
      ∧ particle_cloud st' = particle_cloud parked_filter
      ∧ store st' = store parked_filter
      ∧ robot_pose st' = robot_pose parked_filter.
Proof.
  split.
  - left. unfold linear_displacement. cbn.
    apply Rlt_gt, sqrt_gt; lra.
  - rewrite (scan_received_not_moved _ _ _ _ _ 0%nat [1%nat] (0, 0, 0));
      try reflexivity; [| exact parked_not_axis_moved].
    eexists. split; [reflexivity |]. cbn. now repeat split.
Qed.

(** ** A nan weight spreads *)

(** Once one weight of the cloud is nan the sum is nan, and
    [normalize_particles] leaves nan in every weight. *)
Lemma normalize_particles_nan_total (st : ParticleFilter) :
  NoDup (particle_cloud st) →
  val (total_weight (store st) (particle_cloud st)) = NaN →
  ∃ st',
    normalize_particles st = (Ret tt, st')
    ∧ particle_cloud st' = particle_cloud st
    ∧ ∀ l, l ∈ particle_cloud st → val (w (store st' l)) = NaN.
Proof.
  intros Hnd Hsum.
  rewrite normalize_particles_ret; [| assumption | left; now rewrite Hsum].
  eexists. split; [reflexivity |]. split; [reflexivity |].
  intros l Hl. cbn. rewrite update_all_in by assumption. cbn.
  rewrite val_quotient, Hsum. now destruct (val (w (store st l))).
Qed.

(** * Further properties *)

(** ** The constructor of OccupancyField *)

Lemma elem_of_grid_cells (m : MapInfo) (c : nat * nat) :
  c ∈ grid_cells m ↔ in_grid m c.
Proof.
  unfold grid_cells, in_grid. rewrite list_elem_of_In, in_flat_map.
  destruct c as [i j]. simpl. split.
  - intros (i' & Hi & Hj). apply in_map_iff in Hj as (j' & [= <- <-] & Hj).
    apply in_seq in Hi, Hj. lia.
  - intros [Hi Hj]. exists i. split; [apply in_seq; lia |].
    apply in_map_iff. exists j. split; [reflexivity | apply in_seq; lia].
Qed.

Lemma cell_index_inj (m : MapInfo) (c c' : nat * nat) :
  in_grid m c → in_grid m c' → cell_index m c = cell_index m c' → c = c'.
Proof.
  destruct c as [i j], c' as [i' j']. unfold in_grid, cell_index. simpl.
  intros [Hi Hj] [Hi' Hj'] Heq.
  assert (Hjj : j = j') by nia. subst j'.
  assert (Hii : i = i') by nia. now subst.
Qed.

Lemma cell_index_range (m : MapInfo) (c : nat * nat) :
  in_grid m c → (0 <= cell_index m c < width m * height m)%Z.
Proof.
  destruct c as [i j]. unfold in_grid, cell_index. simpl. intros [Hi Hj]. nia.
Qed.

Lemma cell_index_cover (m : MapInfo) (ind : Z) :
  (0 <= ind < width m * height m)%Z → (0 <= width m)%Z →
  ∃ c, in_grid m c ∧ cell_index m c = ind.
Proof.
  intros Hind Hw.
  assert (Hw0 : (0 < width m)%Z).
  { destruct (Z.eq_dec (width m) 0%Z) as [E | E]; [rewrite E in Hind; lia | lia]. }
  exists (Z.to_nat (ind mod width m), Z.to_nat (ind / width m)).
  pose proof (Z.mod_pos_bound ind (width m) Hw0) as Hmod.
  pose proof (Z.div_mod ind (width m)) as Hdm.
  assert (Hdiv : (0 <= ind / width m)%Z) by (apply Z.div_pos; lia).
  assert (Hdivlt : (ind / width m < height m)%Z) by (apply Z.div_lt_upper_bound; lia).
  unfold in_grid, cell_index. simpl. rewrite !Z2Nat.id by lia.
  split; [lia |]. specialize (Hdm ltac:(lia)). lia.
Qed.

Lemma occupied_cell_coordinates_spec (g : OccupancyGrid) (cells occ : list (nat * nat)) :
  occupied_cell_coordinates g cells = Ret occ →
  ∀ c, c ∈ occ ↔ c ∈ cells ∧ occupied g c.
Proof.
  revert occ. induction cells as [| a rest IH]; intros occ Hrun c.
  - simpl in Hrun. inversion Hrun; subst. split.
    + intros H. now apply not_elem_of_nil in H.
    + intros [H _]. now apply not_elem_of_nil in H.
  - simpl in Hrun.
    destruct (data g !! _) as [v |] eqn:Hv; [| discriminate].
    destruct (occupied_cell_coordinates g rest) as [occ' | e]; [| discriminate].
    inversion Hrun; subst occ. clear Hrun. specialize (IH occ' eq_refl).
    destruct (Z.gtb_spec v 0) as [Hpos | Hnpos].
    + rewrite !elem_of_cons, IH. split.
      * intros [-> | [Hin Hocc]]; [| tauto].
        split; [now left |]. exists v. split; [assumption | lia].
      * intros [[-> | Hin] Hocc]; [now left | tauto].
    + rewrite elem_of_cons, IH. split; [tauto |].
      intros [[-> | Hin] Hocc]; [| tauto].
      destruct Hocc as (v' & Hv' & Hpos'). rewrite Hv in Hv'. inversion Hv'; subst. lia.
Qed.

Lemma occupied_cell_coordinates_ret (g : OccupancyGrid) (cells : list (nat * nat)) :
  (∀ c, c ∈ cells → is_Some (data g !! Z.to_nat (cell_index (grid_info g) c))) →
  ∃ occ, occupied_cell_coordinates g cells = Ret occ.
Proof.
  induction cells as [| a rest IH]; intros Hall; simpl; [eauto |].
  destruct (Hall a) as [v ->]; [apply elem_of_cons; now left |].
  destruct IH as [occ ->]; [| eauto].
  intros c Hc. apply Hall, elem_of_cons. now right.
Qed.

Lemma occupied_cell_coordinates_short (g : OccupancyGrid) (cells : list (nat * nat))
    (c : nat * nat) :
  c ∈ cells →
  data g !! Z.to_nat (cell_index (grid_info g) c) = None →
  occupied_cell_coordinates g cells = Raise IndexError.
Proof.
  induction cells as [| a rest IH]; intros Hc Hnone.
  - now apply not_elem_of_nil in Hc.
  - simpl. destruct (data g !! Z.to_nat (cell_index (grid_info g) a)) as [v |] eqn:Hv;
      [| reflexivity].
    apply elem_of_cons in Hc as [-> | Hc]; [congruence |].
    now rewrite IH.
Qed.

Lemma fold_Rmin_le (l : list R) (a : R) :
  fold_left Rmin l a <= a ∧ ∀ v, v ∈ l → fold_left Rmin l a <= v.
Proof.
  revert a. induction l as [| b rest IH]; intros a; simpl.
  - split; [lra |]. intros v H. now apply not_elem_of_nil in H.
  - destruct (IH (Rmin a b)) as [H1 H2]. split.
    + pose proof (Rmin_l a b). lra.
    + intros v [-> | Hv]%elem_of_cons; [| now apply H2].
      pose proof (Rmin_r a b). lra.
Qed.

Lemma fold_Rmin_attained (l : list R) (a : R) :
  fold_left Rmin l a = a ∨ fold_left Rmin l a ∈ l.
Proof.
  revert a. induction l as [| b rest IH]; intros a; simpl; [now left |].
  destruct (IH (Rmin a b)) as [H | H].
  - rewrite H. unfold Rmin. destruct (Rle_dec a b); [now left |].
    right. apply elem_of_cons. now left.
  - right. apply elem_of_cons. now right.
Qed.

Lemma fill_closest_occupied_map (m : MapInfo) (d : nat * nat → R)
    (cells : list (nat * nat)) (closest : gmap Z R) :
  fill_closest_occupied m cells (map d cells) closest =
    Ret (fold_left (fun acc c => <[cell_index m c := d c * resolution m]> acc)
           cells closest).
Proof.
  revert closest. induction cells as [| c rest IH]; intros closest; simpl;
    [reflexivity | apply IH].
Qed.

Lemma fold_insert_other (m : MapInfo) (d : nat * nat → R)
    (cells : list (nat * nat)) (closest : gmap Z R) (k : Z) :
  (∀ c, c ∈ cells → cell_index m c ≠ k) →
  fold_left (fun acc c => <[cell_index m c := d c * resolution m]> acc) cells closest
    !! k = closest !! k.
Proof.
  revert closest. induction cells as [| a rest IH]; intros closest Hall; simpl;
    [reflexivity |].
  rewrite IH by (intros c Hc; apply Hall, elem_of_cons; now right).
  apply lookup_insert_ne, Hall, elem_of_cons. now left.
Qed.

Lemma fold_insert_lookup (m : MapInfo) (d : nat * nat → R)
    (cells : list (nat * nat)) (closest : gmap Z R) (k : Z) (v : R) :
  (closest !! k = Some v ∨ ∃ c, c ∈ cells ∧ cell_index m c = k) →
  (∀ c, c ∈ cells → cell_index m c = k → d c * resolution m = v) →
  fold_left (fun acc c => <[cell_index m c := d c * resolution m]> acc) cells closest
    !! k = Some v.
Proof.
  revert closest. induction cells as [| a rest IH]; intros closest Hk Hval; simpl.
  - destruct Hk as [H | (c & Hc & _)]; [assumption | now apply not_elem_of_nil in Hc].
  - apply IH.
    + destruct (decide (cell_index m a = k)) as [Ha | Ha].
      * left. rewrite Ha, lookup_insert_eq. f_equal.
        apply Hval; [apply elem_of_cons; now left | assumption].
      * rewrite lookup_insert_ne by assumption.
        destruct Hk as [H | (c & Hc & Hck)]; [now left |].
        right. exists c. split; [| assumption].
        apply elem_of_cons in Hc as [-> | Hc]; [contradiction | assumption].
    + intros c Hc. apply Hval, elem_of_cons. now right.
Qed.

(** The shape of a successful construction: the occupied cells are not
    empty and every cell of the grid gets the distance to its closest
    occupied cell, scaled by the resolution. *)
Lemma OccupancyField_init_inv (g : OccupancyGrid) (f : OccupancyField) :
  OccupancyField_init g = Ret f →
  ∃ o rest,
    (∀ c, c ∈ o :: rest ↔ in_grid (grid_info g) c ∧ occupied g c)
    ∧ f = {| info := grid_info g;
             closest_occupied :=
               fold_left
                 (fun acc c =>
                    <[cell_index (grid_info g) c :=
                        fold_left Rmin (map (cell_distance c) rest) (cell_distance c o)
                        * resolution (grid_info g)]> acc)
                 (grid_cells (grid_info g)) ∅ |}.
Proof.
  unfold OccupancyField_init. cbv zeta.
  destruct (occupied_cell_coordinates g (grid_cells (grid_info g))) as [occ | e] eqn:Hocc;
    [| discriminate].
  pose proof (occupied_cell_coordinates_spec _ _ _ Hocc) as Hspec.
  destruct occ as [| o rest]; [discriminate |].
  unfold kneighbors.
  rewrite (fill_closest_occupied_map (grid_info g)
             (fun c => fold_left Rmin (map (cell_distance c) rest) (cell_distance c o))).
  intros [= <-]. exists o, rest. split; [| reflexivity].
  intros c. rewrite Hspec, elem_of_grid_cells. reflexivity.
Qed.

Lemma cell_distance_nonneg (a b : nat * nat) : 0 <= cell_distance a b.
Proof. apply sqrt_pos. Qed.

Lemma cell_distance_self (a : nat * nat) : cell_distance a a = 0.
Proof.
  unfold cell_distance.
  replace ((INR a.1 - INR a.1) ^ 2 + (INR a.2 - INR a.2) ^ 2) with 0 by ring.
  apply sqrt_0.
Qed.

(** The entry of a cell of the grid after a successful construction. *)
Lemma OccupancyField_init_entry (g : OccupancyGrid) (f : OccupancyField)
    (c : nat * nat) :
  OccupancyField_init g = Ret f →
  in_grid (grid_info g) c →
  ∃ d,
    closest_occupied f !! cell_index (grid_info g) c
      = Some (d * resolution (grid_info g))
    ∧ 0 <= d
    ∧ (∀ o, in_grid (grid_info g) o → occupied g o → d <= cell_distance c o)
    ∧ (∃ o, in_grid (grid_info g) o ∧ occupied g o ∧ d = cell_distance c o).
Proof.
  intros Hinit Hc. apply OccupancyField_init_inv in Hinit as (o & rest & Hocc & ->).
  set (d := fun c0 : nat * nat =>
              fold_left Rmin (map (cell_distance c0) rest) (cell_distance c0 o)).
  exists (d c). cbn [closest_occupied]. split; [| split; [| split]].
  - apply (fold_insert_lookup (grid_info g) d).
    + right. exists c. split; [now apply elem_of_grid_cells | reflexivity].
    + intros c' Hc' Heq. apply elem_of_grid_cells in Hc'.
      now rewrite (cell_index_inj _ _ _ Hc' Hc Heq).
  - unfold d. destruct (fold_Rmin_attained (map (cell_distance c) rest) (cell_distance c o))
      as [-> | Hin].
    + apply cell_distance_nonneg.
    + apply list_elem_of_fmap in Hin as (o' & -> & _). apply cell_distance_nonneg.
  - intros o' Ho' Hocc'.
    assert (Hin : o' ∈ o :: rest) by now apply Hocc.
    destruct (fold_Rmin_le (map (cell_distance c) rest) (cell_distance c o)) as [H1 H2].
    apply elem_of_cons in Hin as [-> | Hin]; [exact H1 |].
    apply H2. apply list_elem_of_fmap. eauto.
  - unfold d. destruct (fold_Rmin_attained (map (cell_distance c) rest) (cell_distance c o))
      as [Heq | Hin].
    + exists o. destruct (proj1 (Hocc o)) as [Hg Ho]; [apply elem_of_cons; now left |].
      split; [exact Hg | split; [exact Ho | exact Heq]].
    + apply list_elem_of_fmap in Hin as (o' & Heq & Hin).
      exists o'. destruct (proj1 (Hocc o')) as [Hg Ho]; [apply elem_of_cons; now right |].
      split; [exact Hg | split; [exact Ho | exact Heq]].
Qed.

Lemma OccupancyField_init_keys (g : OccupancyGrid) (f : OccupancyField) (ind : Z) :
  OccupancyField_init g = Ret f →
  is_Some (closest_occupied f !! ind) →
  ∃ c, in_grid (grid_info g) c ∧ cell_index (grid_info g) c = ind.
Proof.
  intros Hinit Hsome. apply OccupancyField_init_inv in Hinit as (o & rest & _ & ->).
  cbn [closest_occupied] in Hsome.
  destruct (decide (Exists (fun c => cell_index (grid_info g) c = ind)
                      (grid_cells (grid_info g)))) as [Hyes | Hno].
  - apply Exists_exists in Hyes as (c & Hc & Heq). exists c. split; [now apply elem_of_grid_cells | assumption].
  - rewrite (fold_insert_other (grid_info g)
               (fun c => fold_left Rmin (map (cell_distance c) rest) (cell_distance c o)))
      in Hsome.
    + rewrite lookup_empty in Hsome. now destruct Hsome.
    + intros c Hc Heq. apply Hno. apply Exists_exists. eauto.
Qed.

Lemma OccupancyField_init_info (g : OccupancyGrid) (f : OccupancyField) :
  OccupancyField_init g = Ret f → info f = grid_info g.
Proof. intros Hinit. now apply OccupancyField_init_inv in Hinit as (o & rest & _ & ->). Qed.

Lemma OccupancyField_init_field_complete (g : OccupancyGrid) (f : OccupancyField) :
  (0 <= width (grid_info g))%Z →
  OccupancyField_init g = Ret f →
  field_complete f.
Proof.
  intros Hw Hinit ind Hind.
  rewrite (OccupancyField_init_info g f Hinit) in Hind.
  destruct (cell_index_cover _ _ Hind Hw) as (c & Hc & <-).
  destruct (OccupancyField_init_entry g f c Hinit Hc) as (d & -> & _). eauto.
Qed.

Lemma data_lookup_in_grid (g : OccupancyGrid) (c : nat * nat) :
  (width (grid_info g) * height (grid_info g) <= Z.of_nat (length (data g)))%Z →
  in_grid (grid_info g) c →
  is_Some (data g !! Z.to_nat (cell_index (grid_info g) c)).
Proof.
  intros Hlen Hc. apply lookup_lt_is_Some_2.
  pose proof (cell_index_range _ _ Hc). lia.
Qed.

Lemma OccupancyField_init_ret (g : OccupancyGrid) (c : nat * nat) :
  (width (grid_info g) * height (grid_info g) <= Z.of_nat (length (data g)))%Z →
  in_grid (grid_info g) c →
  occupied g c →
  ∃ f, OccupancyField_init g = Ret f.
Proof.
  intros Hlen Hc Hocc. unfold OccupancyField_init. cbv zeta.
  destruct (occupied_cell_coordinates_ret g (grid_cells (grid_info g))) as [occ Hrun].
  { intros c' Hc'. apply data_lookup_in_grid; [assumption |].
    now apply elem_of_grid_cells. }
  rewrite Hrun.
  assert (Hin : c ∈ occ).
  { apply (occupied_cell_coordinates_spec _ _ _ Hrun). split; [| assumption].
    now apply elem_of_grid_cells. }
  destruct occ as [| o rest]; [now apply not_elem_of_nil in Hin |].
  unfold kneighbors.
  rewrite (fill_closest_occupied_map (grid_info g)
             (fun c => fold_left Rmin (map (cell_distance c) rest) (cell_distance c o))).
  eauto.
Qed.

Lemma corner_grid_occupied : in_grid (grid_info corner_grid) (0, 0)%nat
                             ∧ occupied corner_grid (0, 0)%nat.
Proof.
  split; [split; cbn; lia |]. exists 100%Z. split; [reflexivity | lia].
Qed.

Lemma corner_grid_init : ∃ f, OccupancyField_init corner_grid = Ret f.
Proof.
  destruct corner_grid_occupied as [Hg Ho].
  apply (OccupancyField_init_ret corner_grid (0, 0)%nat); [cbn; lia | exact Hg | exact Ho].
Qed.

(** X1: a construction that returns yields a field over the grid's own
    metadata whose dictionary has an entry for exactly the indices
    0 .. width*height - 1. *)
Theorem OccupancyField_init_complete (g : OccupancyGrid) (f : OccupancyField) :
  (0 <= width (grid_info g))%Z →
  OccupancyField_init g = Ret f →
  info f = grid_info g
  ∧ ∀ ind, is_Some (closest_occupied f !! ind)
           ↔ (0 <= ind < width (info f) * height (info f))%Z.
Proof.
  intros Hw Hinit. split; [now apply OccupancyField_init_info |].
  intros ind. split.
  - intros Hsome. rewrite (OccupancyField_init_info g f Hinit).
    destruct (OccupancyField_init_keys g f ind Hinit Hsome) as (c & Hc & <-).
    now apply cell_index_range.
  - apply (OccupancyField_init_field_complete g f Hw Hinit).
Qed.

Lemma OccupancyField_init_complete_witness :
  ∃ f, OccupancyField_init corner_grid = Ret f
       ∧ info f = grid_info corner_grid
       ∧ ∀ ind, is_Some (closest_occupied f !! ind)
                ↔ (0 <= ind < width (info f) * height (info f))%Z.
Proof.
  destruct corner_grid_init as [f Hf]. exists f. split; [exact Hf |].
  apply (OccupancyField_init_complete corner_grid f); [cbn; lia | exact Hf].
Defined.

(** X2: the constructor returns as soon as the cell array covers the grid
    and some cell of the grid is occupied. *)
Theorem OccupancyField_init_returns (g : OccupancyGrid) (c : nat * nat) :
  (width (grid_info g) * height (grid_info g) <= Z.of_nat (length (data g)))%Z →
  in_grid (grid_info g) c →
  occupied g c →
  ∃ f, OccupancyField_init g = Ret f.
Proof. exact (OccupancyField_init_ret g c). Qed.

Lemma OccupancyField_init_returns_witness :
  ∃ f, OccupancyField_init corner_grid = Ret f.
Proof.
  apply (OccupancyField_init_returns corner_grid (0, 0)%nat).
  - cbn. lia.
  - split; cbn; lia.
  - exists 100%Z. split; [reflexivity | lia].
Defined.

(** X3: on a grid without any occupied cell the nearest-neighbour fit has no
    point and the constructor raises [ValueError]. *)
Theorem OccupancyField_init_empty_map (g : OccupancyGrid) :
  (width (grid_info g) * height (grid_info g) <= Z.of_nat (length (data g)))%Z →
  (∀ c, in_grid (grid_info g) c → ¬ occupied g c) →
  OccupancyField_init g = Raise ValueError.
Proof.
  intros Hlen Hfree. unfold OccupancyField_init. cbv zeta.
  destruct (occupied_cell_coordinates_ret g (grid_cells (grid_info g))) as [occ Hrun].
  { intros c' Hc'. apply data_lookup_in_grid; [assumption |].
    now apply elem_of_grid_cells. }
  rewrite Hrun. destruct occ as [| o rest]; [reflexivity |].
  exfalso.
  destruct (proj1 (occupied_cell_coordinates_spec _ _ _ Hrun o)) as [Hin Hocc];
    [apply elem_of_cons; now left |].
  apply (Hfree o); [now apply elem_of_grid_cells | assumption].
Qed.

Lemma OccupancyField_init_empty_map_witness :
  OccupancyField_init {| grid_info := info two_by_two; data := [0; 0; -1; 0]%Z |}
  = Raise ValueError.
Proof.
  apply OccupancyField_init_empty_map.
  - cbn. lia.
  - intros [i j] [Hi Hj] (v & Hv & Hpos). cbn in Hi, Hj, Hv.
    assert (Hi' : (i < 2)%nat) by lia. assert (Hj' : (j < 2)%nat) by lia.
    destruct i as [| [| i]]; [| | lia]; destruct j as [| [| j]]; try lia;
      cbn in Hv; inversion Hv; subst; lia.
Defined.

(** X4: a cell array shorter than width*height makes the constructor raise
    [IndexError]. *)
Theorem OccupancyField_init_short_data (g : OccupancyGrid) :
  (0 <= width (grid_info g))%Z →
  (Z.of_nat (length (data g)) < width (grid_info g) * height (grid_info g))%Z →
  OccupancyField_init g = Raise IndexError.
Proof.
  intros Hw Hlen. unfold OccupancyField_init. cbv zeta.
  destruct (cell_index_cover (grid_info g) (Z.of_nat (length (data g)))) as (c & Hc & Hidx);
    [lia | assumption |].
  rewrite (occupied_cell_coordinates_short g _ c); [reflexivity | |].
  - now apply elem_of_grid_cells.
  - apply lookup_ge_None_2. rewrite Hidx. lia.
Qed.

Lemma OccupancyField_init_short_data_witness :
  OccupancyField_init {| grid_info := info two_by_two; data := [100; 0; 0]%Z |}
  = Raise IndexError.
Proof. apply OccupancyField_init_short_data; cbn; lia. Defined.

(** X5: after a successful construction the entry of every cell of the grid
    is the resolution times the distance, in grid-index space, to a nearest
    occupied cell: no occupied cell is closer and one is at that distance. *)
Theorem OccupancyField_init_nearest (g : OccupancyGrid) (f : OccupancyField)
    (c : nat * nat) :
  OccupancyField_init g = Ret f →
  in_grid (grid_info g) c →
  ∃ d,
    closest_occupied f !! cell_index (grid_info g) c
      = Some (d * resolution (grid_info g))
    ∧ (∀ o, in_grid (grid_info g) o → occupied g o → d <= cell_distance c o)
    ∧ (∃ o, in_grid (grid_info g) o ∧ occupied g o ∧ d = cell_distance c o).
Proof.
  intros Hinit Hc.
  destruct (OccupancyField_init_entry g f c Hinit Hc) as (d & Hd & _ & Hle & Hat).
  eauto.
Qed.

Lemma OccupancyField_init_nearest_witness :
  ∃ f d,
    OccupancyField_init corner_grid = Ret f
    ∧ closest_occupied f !! cell_index (grid_info corner_grid) (1, 1)%nat
        = Some (d * resolution (grid_info corner_grid))
    ∧ (∀ o, in_grid (grid_info corner_grid) o → occupied corner_grid o →
            d <= cell_distance (1, 1)%nat o).
Proof.
  destruct corner_grid_init as [f Hf].
  destruct (OccupancyField_init_nearest corner_grid f (1, 1)%nat Hf) as (d & Hd & Hle & _).
  { split; cbn; lia. }
  exists f, d. split; [exact Hf |]. split; [exact Hd | exact Hle].
Defined.

(** X6: after a successful construction the entry of an occupied cell is
    0. *)
Theorem OccupancyField_init_occupied_zero (g : OccupancyGrid) (f : OccupancyField)
    (c : nat * nat) :
  OccupancyField_init g = Ret f →
  in_grid (grid_info g) c →
  occupied g c →
  closest_occupied f !! cell_index (grid_info g) c = Some 0.
Proof.
  intros Hinit Hc Hocc.
  destruct (OccupancyField_init_entry g f c Hinit Hc) as (d & -> & Hd0 & Hle & _).
  specialize (Hle c Hc Hocc). rewrite cell_distance_self in Hle.
  f_equal. assert (d = 0) as -> by lra. ring.
Qed.

Lemma OccupancyField_init_occupied_zero_witness :
  ∃ f, OccupancyField_init corner_grid = Ret f
       ∧ closest_occupied f !! cell_index (grid_info corner_grid) (0, 0)%nat = Some 0.
Proof.
  destruct corner_grid_init as [f Hf]. destruct corner_grid_occupied as [Hg Ho].
  exists f. split; [exact Hf |].
  exact (OccupancyField_init_occupied_zero corner_grid f (0, 0)%nat Hf Hg Ho).
Defined.

Lemma OccupancyField_init_occupied_zero_aux (g : OccupancyGrid) (f : OccupancyField)
    (c : nat * nat) :
  OccupancyField_init g = Ret f →
  in_grid (grid_info g) c →
  occupied g c →
  closest_occupied f !! cell_index (grid_info g) c = Some 0.
Proof.
  intros Hinit Hc Hocc.
  destruct (OccupancyField_init_entry g f c Hinit Hc) as (d & -> & Hd0 & Hle & _).
  specialize (Hle c Hc Hocc). rewrite cell_distance_self in Hle.
  f_equal. assert (d = 0) as -> by lra. ring.
Qed.

Lemma grid_x_constructed (g : OccupancyGrid) (f : OccupancyField) (px : R) :
  OccupancyField_init g = Ret f →
  grid_x f px = py_int ((px - origin_x (grid_info g)) / resolution (grid_info g)).
Proof. intros Hinit. unfold grid_x. now rewrite (OccupancyField_init_info g f Hinit). Qed.

Lemma grid_y_constructed (g : OccupancyGrid) (f : OccupancyField) (py : R) :
  OccupancyField_init g = Ret f →
  grid_y f py = py_int ((py - origin_y (grid_info g)) / resolution (grid_info g)).
Proof. intros Hinit. unfold grid_y. now rewrite (OccupancyField_init_info g f Hinit). Qed.

(** ** Queries on a constructed field *)

(** X7: on a field built by the constructor, with a positive resolution, a
    query never raises: it returns nan or a non-negative distance. *)
Theorem get_closest_obstacle_distance_constructed (g : OccupancyGrid)
    (f : OccupancyField) (px py : R) :
  OccupancyField_init g = Ret f →
  (0 <= width (grid_info g))%Z →
  0 < resolution (grid_info g) →
  get_closest_obstacle_distance f px py = Ret NaN
  ∨ ∃ d, get_closest_obstacle_distance f px py = Ret (Fin d) ∧ 0 <= d.
Proof.
  intros Hinit Hw Hres.
  pose proof (OccupancyField_init_info g f Hinit) as Hinfo.
  rewrite get_closest_obstacle_distance_unfold by (rewrite Hinfo; lra).
  cbv zeta.
  destruct (_ || _)%bool; [now left |].
  destruct (_ || _)%bool; [now left |].
  destruct (_ || _)%bool eqn:E; [now left |].
  apply orb_false_iff in E as [E1 E2].
  rewrite Z.geb_leb in E1. apply Z.leb_gt in E1. apply Z.ltb_ge in E2.
  set (ind := (grid_x f px + grid_y f py * width (info f))%Z) in *.
  rewrite Hinfo in E1.
  destruct (cell_index_cover (grid_info g) ind) as (c & Hc & Hidx); [lia | assumption |].
  destruct (OccupancyField_init_entry g f c Hinit Hc) as (d & Hd & Hd0 & _).
  rewrite Hidx in Hd. rewrite Hd. right.
  exists (d * resolution (grid_info g)). split; [reflexivity | nra].
Qed.

Lemma get_closest_obstacle_distance_constructed_witness :
  ∃ f, OccupancyField_init corner_grid = Ret f
       ∧ (get_closest_obstacle_distance f (1 / 2) (3 / 2) = Ret NaN
          ∨ ∃ d, get_closest_obstacle_distance f (1 / 2) (3 / 2) = Ret (Fin d) ∧ 0 <= d).
Proof.
  destruct corner_grid_init as [f Hf]. exists f. split; [exact Hf |].
  apply (get_closest_obstacle_distance_constructed corner_grid f); [exact Hf | |].
  - cbn. lia.
  - cbn. lra.
Defined.

(** X8: on a field built by the constructor, a query at a point whose grid
    indices are those of an occupied cell returns 0. *)
Theorem get_closest_obstacle_distance_occupied (g : OccupancyGrid)
    (f : OccupancyField) (c : nat * nat) (px py : R) :
  OccupancyField_init g = Ret f →
  resolution (grid_info g) ≠ 0 →
  in_grid (grid_info g) c →
  occupied g c →
  grid_x f px = Z.of_nat c.1 →
  grid_y f py = Z.of_nat c.2 →
  get_closest_obstacle_distance f px py = Ret (Fin 0).
Proof.
  intros Hinit Hres Hc Hocc Hx Hy.
  pose proof (OccupancyField_init_info g f Hinit) as Hinfo.
  pose proof (OccupancyField_init_occupied_zero_aux g f c Hinit Hc Hocc) as Hzero.
  destruct (get_closest_obstacle_distance_inside f px py) as (d & Hd & ->).
  - rewrite Hinfo. exact Hres.
  - intros ind Hind. rewrite Hinfo in Hind.
    assert (Hw : (0 <= width (grid_info g))%Z) by (destruct Hc; lia).
    destruct (cell_index_cover _ _ Hind Hw) as (c' & Hc' & <-).
    destruct (OccupancyField_init_entry g f c' Hinit Hc') as (d' & -> & _). eauto.
  - rewrite Hx, Hinfo. destruct Hc. lia.
  - rewrite Hy, Hinfo. destruct Hc. lia.
  - rewrite Hx, Hy, Hinfo in Hd. unfold cell_index in Hzero.
    rewrite Hzero in Hd. now inversion Hd.
Qed.

Lemma get_closest_obstacle_distance_occupied_witness :
  ∃ f, OccupancyField_init corner_grid = Ret f
       ∧ get_closest_obstacle_distance f (1 / 2) (1 / 2) = Ret (Fin 0).
Proof.
  destruct corner_grid_init as [f Hf]. destruct corner_grid_occupied as [Hg Ho].
  exists f. split; [exact Hf |].
  apply (get_closest_obstacle_distance_occupied corner_grid f (0, 0)%nat);
    try assumption.
  - cbn. lra.
  - rewrite (grid_x_constructed corner_grid f _ Hf). cbn.
    change (Z.of_nat 0) with 0%Z. apply py_int_nonneg; simpl; lra.
  - rewrite (grid_y_constructed corner_grid f _ Hf). cbn.
    change (Z.of_nat 0) with 0%Z. apply py_int_nonneg; simpl; lra.
Defined.

(** X9: whatever the dictionary, a point whose x index is negative or above
    [width], or whose y index is negative or at least [height], yields
    nan. *)
Theorem get_closest_obstacle_distance_off_grid (f : OccupancyField) (px py : R) :
  resolution (info f) ≠ 0 →
  (0 <= width (info f))%Z →
  (grid_x f px < 0 ∨ width (info f) < grid_x f px
   ∨ grid_y f py < 0 ∨ height (info f) <= grid_y f py)%Z →
  get_closest_obstacle_distance f px py = Ret NaN.
Proof. exact (get_closest_obstacle_distance_outside f px py). Qed.

Lemma get_closest_obstacle_distance_off_grid_witness :
  get_closest_obstacle_distance two_by_two (1 / 2) (5 / 2) = Ret NaN.
Proof.
  apply get_closest_obstacle_distance_off_grid.
  - cbn. lra.
  - cbn. lia.
  - right. right. right. unfold grid_y. cbn.
    rewrite (py_int_nonneg _ 2); simpl; lra || lia.
Defined.

(** X10: with an entry for every cell index, a point whose indices lie in
    [0, width) x [0, height) gets the entry of its own cell
    [x_index + y_index * width]. *)
Theorem get_closest_obstacle_distance_in_grid (f : OccupancyField) (px py : R) :
  resolution (info f) ≠ 0 →
  field_complete f →
  (0 <= grid_x f px < width (info f))%Z →
  (0 <= grid_y f py < height (info f))%Z →
  ∃ d, closest_occupied f !! (grid_x f px + grid_y f py * width (info f))%Z = Some d
       ∧ get_closest_obstacle_distance f px py = Ret (Fin d).
Proof. exact (get_closest_obstacle_distance_inside f px py). Qed.

Lemma two_by_two_complete : field_complete two_by_two.
Proof.
  intros ind Hind. cbn in Hind.
  assert (Hcases : (ind = 0 ∨ ind = 1 ∨ ind = 2 ∨ ind = 3)%Z) by lia.
  unfold two_by_two. cbn [closest_occupied].
  destruct Hcases as [-> | [-> | [-> | ->]]]; simplify_map_eq; eauto.
Qed.

Lemma get_closest_obstacle_distance_in_grid_witness :
  ∃ d, closest_occupied two_by_two
         !! (grid_x two_by_two (1 / 2) + grid_y two_by_two (3 / 2) * width (info two_by_two))%Z
       = Some d
       ∧ get_closest_obstacle_distance two_by_two (1 / 2) (3 / 2) = Ret (Fin d).
Proof.
  assert (Hx : grid_x two_by_two (1 / 2) = 0%Z).
  { unfold grid_x; cbn. apply py_int_nonneg; simpl; lra. }
  assert (Hy : grid_y two_by_two (3 / 2) = 1%Z).
  { unfold grid_y; cbn. apply py_int_nonneg; simpl; lra. }
  apply get_closest_obstacle_distance_in_grid.
  - cbn. lra.
  - exact two_by_two_complete.
  - rewrite Hx. cbn. lia.
  - rewrite Hy. cbn. lia.
Defined.

(** ** filter_laser *)

Lemma filter_laser_from_lookup (i : nat) (scan : list fval) (acc : gmap nat R)
    (k : nat) (v : R) :
  (∀ k', is_Some (acc !! k') → (k' < i)%nat) →
  filter_laser_from i scan acc !! k = Some v
  ↔ acc !! k = Some v
    ∨ ((i <= k)%nat ∧ scan !! (k - i)%nat = Some (Fin v) ∧ 0 < v < 35 / 10).
Proof.
  revert i acc. induction scan as [| r rest IH]; intros i acc Hacc.
  - simpl. split; [now left |]. intros [H | (_ & H & _)]; [assumption | discriminate].
  - simpl.
    set (acc' := match r with
                 | Fin v0 => if Rltb 0 v0 && Rltb v0 (35 / 10) then <[i := v0]> acc else acc
                 | _ => acc
                 end).
    assert (Hacc' : ∀ k', is_Some (acc' !! k') → (k' < S i)%nat).
    { intros k' Hk'. subst acc'. destruct r as [v0 | | |];
        try (specialize (Hacc k' Hk'); lia).
      destruct (Rltb 0 v0 && Rltb v0 (35 / 10)); [| specialize (Hacc k' Hk'); lia].
      destruct (decide (i = k')) as [<- | Hne]; [lia |].
      rewrite lookup_insert_ne in Hk' by assumption. specialize (Hacc k' Hk'). lia. }
    rewrite (IH (S i) acc' Hacc').
    destruct (Nat.lt_trichotomy k i) as [Hlt | [-> | Hgt]].
    + (* below the current position: only the accumulator counts *)
      assert (Hsame : acc' !! k = acc !! k).
      { subst acc'. destruct r as [v0 | | |]; try reflexivity.
        destruct (Rltb 0 v0 && Rltb v0 (35 / 10)); [| reflexivity].
        apply lookup_insert_ne. lia. }
      rewrite Hsame. split; (intros [H | (Hle & _)]; [now left | lia]).
    + (* the current position *)
      rewrite Nat.sub_diag. simpl.
      assert (Hnone : acc !! i = None).
      { destruct (acc !! i) eqn:E; [| reflexivity].
        assert (i < i)%nat by (apply Hacc; eauto). lia. }
      subst acc'. split.
      * intros [H | (Hle & _)]; [| lia]. right. split; [lia |].
        destruct r as [v0 | | |]; try congruence.
        unfold Rltb in H.
        destruct (Rlt_dec 0 v0); [| simpl in H; congruence].
        destruct (Rlt_dec v0 (35 / 10)); [| simpl in H; congruence].
        simpl in H. rewrite lookup_insert_eq in H. inversion H; subst. now repeat split.
      * intros [H | (_ & H & Hv)]; [congruence |]. left.
        inversion H; subst. unfold Rltb.
        destruct (Rlt_dec 0 v); [| lra]. destruct (Rlt_dec v (35 / 10)); [| lra].
        simpl. apply lookup_insert_eq.
    + (* beyond the current position: the rest of the scan decides *)
      assert (Hnone : acc' !! k = None).
      { destruct (acc' !! k) eqn:E; [| reflexivity].
        assert (k < S i)%nat by (apply Hacc'; eauto). lia. }
      assert (Hnone0 : acc !! k = None).
      { destruct (acc !! k) eqn:E; [| reflexivity].
        assert (k < i)%nat by (apply Hacc; eauto). lia. }
      rewrite Hnone, Hnone0.
      replace (k - i)%nat with (S (k - S i)) by lia. simpl.
      split; (intros [H | (_ & H & Hv)]; [discriminate |]; right; split; [lia | now split]).
Qed.

(** X11: the dictionary returned by [filter_laser] holds reading [k] exactly
    when that reading is a finite number strictly between 0 and 3.5, and then
    holds it unchanged; zero, negative, infinite and nan readings and readings
    of 3.5 or more are dropped. *)
Theorem filter_laser_lookup (scan : list fval) (k : nat) (v : R) :
  filter_laser scan !! k = Some v ↔ scan !! k = Some (Fin v) ∧ 0 < v < 35 / 10.
Proof.
  unfold filter_laser. rewrite filter_laser_from_lookup.
  - rewrite lookup_empty, Nat.sub_0_r. split.
    + intros [H | (_ & H & Hv)]; [discriminate | now split].
    + intros [H Hv]. right. split; [lia | now split].
  - intros k' H. rewrite lookup_empty in H. now destruct H.
Qed.

(** ** update_particles_with_laser: skipping and returning *)

(** X12: with fewer than 25 valid readings the sensor update returns at once
    and changes nothing: every weight is retained. *)
Theorem update_particles_with_laser_skips
    (dict_keys : gmap nat R → list nat) (scan : list fval) (st : ParticleFilter) :
  (length (dict_keys (filter_laser scan)) < 25)%nat →
  update_particles_with_laser dict_keys scan st = (Ret tt, st).
Proof.
  intros Hlen. unfold update_particles_with_laser.
  unfold bind at 1. unfold gets at 1. unfold bind at 1. unfold gets at 1.
  apply Nat.leb_gt in Hlen. rewrite Hlen. apply for_each_skip.
Qed.

Lemma update_particles_with_laser_skips_witness :
  update_particles_with_laser hash_order_keys [Fin 1; PInf; Fin 0] outside_filter
  = (Ret tt, outside_filter).
Proof.
  apply update_particles_with_laser_skips.
  unfold hash_order_keys. rewrite length_fmap, length_map_to_list.
  assert (Hsize : (size (filter_laser [Fin 1; PInf; Fin 0]) <= 1)%nat).
  { unfold filter_laser. simpl. unfold Rltb.
    destruct (Rlt_dec 0 1); [| lra]. destruct (Rlt_dec 1 (35 / 10)); [| lra].
    destruct (Rlt_dec 0 0); [lra |]. simpl.
    rewrite map_size_insert_None by apply lookup_empty.
    rewrite map_size_empty. lia. }
  lia.
Defined.

Lemma get_closest_obstacle_distance_total (f : OccupancyField) (px py : R) :
  resolution (info f) ≠ 0 →
  field_complete f →
  ∃ v, get_closest_obstacle_distance f px py = Ret v.
Proof.
  intros Hres Hc.
  rewrite get_closest_obstacle_distance_unfold by assumption. cbv zeta.
  destruct (_ || _)%bool; [eauto |].
  destruct (_ || _)%bool; [eauto |].
  destruct (_ || _)%bool eqn:E; [eauto |].
  apply orb_false_iff in E as [E1 E2].
  rewrite Z.geb_leb in E1. apply Z.leb_gt in E1. apply Z.ltb_ge in E2.
  destruct (Hc _ (conj E2 E1)) as [d ->]. eauto.
Qed.

Lemma beam_loop_total (f : OccupancyField) (valid_ranges : gmap nat R)
    (keys : list nat) (p : Particle) :
  (∀ k, k ∈ keys → is_Some (valid_ranges !! k)) →
  resolution (info f) ≠ 0 →
  field_complete f →
  (25 <= length keys)%nat →
  ∃ q, fold_outcome (beam_step f valid_ranges keys (length keys) 25 p)
         (seq 0 25) (Py (Fin 1)) = Ret q.
Proof.
  intros Hkeys Hres Hc Hlen.
  assert (Hgen : ∀ (l : list nat) (dp : num),
            (∀ i, i ∈ l → (i < 25)%nat) →
            ∃ q, fold_outcome (beam_step f valid_ranges keys (length keys) 25 p) l dp
                 = Ret q).
  { induction l as [| i rest IH]; intros dp Hall; [simpl; eauto |].
    cbn [fold_outcome].
    assert (Hstep : ∃ q, beam_step f valid_ranges keys (length keys) 25 p dp i = Ret q).
    { unfold beam_step.
      assert (Hidx : (i * length keys / 25 < length keys)%nat).
      { apply Nat.Div0.div_lt_upper_bound.
        assert (i < 25)%nat by (apply Hall, elem_of_cons; now left). nia. }
      apply lookup_lt_is_Some_2 in Hidx as [index Hindex]. rewrite Hindex.
      destruct (Hkeys index) as [radius ->];
        [now apply list_elem_of_lookup_2 in Hindex |].
      cbv zeta.
      match goal with |- context [get_closest_obstacle_distance f ?a ?b] =>
        destruct (get_closest_obstacle_distance_total f a b Hres Hc) as [d ->] end.
      eauto. }
    destruct Hstep as [q ->]. apply IH.
    intros i' Hi'. apply Hall, elem_of_cons. now right. }
  apply Hgen. intros i [_ Hi]%elem_of_seq. lia.
Qed.

Lemma update_particles_with_laser_returns_aux
    (dict_keys : gmap nat R → list nat) (scan : list fval) (st : ParticleFilter) :
  NoDup (particle_cloud st) →
  (∀ k, k ∈ dict_keys (filter_laser scan) → is_Some (filter_laser scan !! k)) →
  resolution (info (occupancy_field st)) ≠ 0 →
  field_complete (occupancy_field st) →
  ∃ st', update_particles_with_laser dict_keys scan st = (Ret tt, st').
Proof.
  intros Hnd Hkeys Hres Hc. unfold update_particles_with_laser.
  unfold bind at 1. unfold gets at 1. unfold bind at 1. unfold gets at 1.
  destruct (25 <=? length (dict_keys (filter_laser scan)))%nat eqn:E.
  - apply Nat.leb_le in E.
    assert (Hq : ∀ p, ∃ q,
              fold_outcome
                (beam_step (occupancy_field st) (filter_laser scan)
                   (dict_keys (filter_laser scan))
                   (length (dict_keys (filter_laser scan))) 25 p)
                (seq 0 25) (Py (Fin 1)) = Ret q).
    { intros p. now apply beam_loop_total. }
    set (g := fun p : Particle =>
                fold_outcome
                  (beam_step (occupancy_field st) (filter_laser scan)
                     (dict_keys (filter_laser scan))
                     (length (dict_keys (filter_laser scan))) 25 p)
                  (seq 0 25) (Py (Fin 1))).
    rewrite (for_each_rewrite g set_w
               (fun p => match g p with Ret q => q | Raise _ => w p end)).
    + eauto.
    + assumption.
    + intros l _. destruct (Hq (store st l)) as [q Hq']. unfold g at 1 2.
      now rewrite Hq'.
  - rewrite for_each_skip. eauto.
Qed.


(** X13: on a field that has an entry for every cell index and a non-zero
    resolution, and with keys that are keys of the dictionary, the sensor
    update of a cloud of distinct particle objects returns: it raises no
    exception, whatever the scan and wherever the particles stand. *)
Theorem update_particles_with_laser_returns
    (dict_keys : gmap nat R → list nat) (scan : list fval) (st : ParticleFilter) :
  NoDup (particle_cloud st) →
  (∀ k, k ∈ dict_keys (filter_laser scan) → is_Some (filter_laser scan !! k)) →
  resolution (info (occupancy_field st)) ≠ 0 →
  field_complete (occupancy_field st) →
  ∃ st', update_particles_with_laser dict_keys scan st = (Ret tt, st').
Proof. exact (update_particles_with_laser_returns_aux dict_keys scan st). Qed.

Lemma update_particles_with_laser_returns_witness :
  ∃ st', update_particles_with_laser hash_order_keys full_scan outside_filter
         = (Ret tt, st').
Proof.
  apply update_particles_with_laser_returns.
  - cbn. apply NoDup_singleton.
  - apply hash_order_keys_sound.
  - cbn. lra.
  - exact two_by_two_complete.
Defined.

(** X14: when the sensor update assigns weights (at least 25 valid readings)
    and returns, each weight of a cloud of distinct particle objects is nan or
    a number not below one: never zero and never negative. *)
Theorem update_particles_with_laser_weight_range
    (dict_keys : gmap nat R → list nat) (scan : list fval)
    (st st' : ParticleFilter) :
  NoDup (particle_cloud st) →
  (25 <= length (dict_keys (filter_laser scan)))%nat →
  update_particles_with_laser dict_keys scan st = (Ret tt, st') →
  ∀ l, l ∈ particle_cloud st → nan_or_at_least_one (w (store st' l)).
Proof. exact (update_particles_with_laser_weight dict_keys scan st st'). Qed.

Lemma update_particles_with_laser_weight_range_witness :
  ∃ st',
    update_particles_with_laser hash_order_keys full_scan outside_filter = (Ret tt, st')
    ∧ ∀ l, l ∈ particle_cloud outside_filter → nan_or_at_least_one (w (store st' l)).
Proof.
  destruct (update_particles_with_laser_returns_aux hash_order_keys full_scan outside_filter)
    as [st' Hrun].
  - cbn. apply NoDup_singleton.
  - apply hash_order_keys_sound.
  - cbn. lra.
  - exact two_by_two_complete.
  - exists st'. split; [exact Hrun |].
    apply (update_particles_with_laser_weight_range hash_order_keys full_scan
             outside_filter st').
    + cbn. apply NoDup_singleton.
    + rewrite full_scan_valid_len. lia.
    + exact Hrun.
Defined.

(** ** normalize_particles: edge cases and composition *)

(** X15: when all the weights are Python floats and their sum is zero, the
    first division raises [ZeroDivisionError] and no weight has been
    assigned: the filter is left exactly as it was. *)
Theorem normalize_particles_zero_division (st : ParticleFilter) (a : nat)
    (rest : list nat) (u z : fval) :
  particle_cloud st = a :: rest →
  w (store st a) = Py u →
  total_weight (store st) (particle_cloud st) = Py z →
  fzero z = true →
  normalize_particles st = (Raise ZeroDivisionError, st).
Proof. exact (normalize_particles_python_zero st a rest u z). Qed.

Lemma normalize_particles_zero_division_witness :
  normalize_particles
    (set_store (fun _ => {| x := 0; y := 0; theta := 0; w := Py (Fin 0) |}) 2
       two_particle_filter)
  = (Raise ZeroDivisionError,
     set_store (fun _ => {| x := 0; y := 0; theta := 0; w := Py (Fin 0) |}) 2
       two_particle_filter).
Proof.
  apply (normalize_particles_zero_division _ 0%nat [1%nat] (Fin 0) (Fin (0 + 0 + 0))).
  - reflexivity.
  - reflexivity.
  - reflexivity.
  - simpl. destruct (Req_dec_T (0 + 0 + 0) 0) as [_ | H]; [reflexivity | lra].
Defined.

(** X16: when the sum of the weights is nan (one nan weight is enough),
    [normalize_particles] returns and leaves nan in every weight of the
    cloud. *)
Theorem normalize_particles_spreads_nan (st : ParticleFilter) :
  NoDup (particle_cloud st) →
  val (total_weight (store st) (particle_cloud st)) = NaN →
  ∃ st',
    normalize_particles st = (Ret tt, st')
    ∧ particle_cloud st' = particle_cloud st
    ∧ ∀ l, l ∈ particle_cloud st → val (w (store st' l)) = NaN.
Proof. exact (normalize_particles_nan_total st). Qed.

Lemma normalize_particles_spreads_nan_witness :
  ∃ st',
    normalize_particles
      (set_store (fun l => {| x := 0; y := 0; theta := 0;
                              w := if Nat.eqb l 0 then Np NaN else Py (Fin 1) |}) 2
         two_particle_filter) = (Ret tt, st')
    ∧ particle_cloud st' = [0; 1]%nat
    ∧ ∀ l, l ∈ [0; 1]%nat → val (w (store st' l)) = NaN.
Proof.
  apply (normalize_particles_spreads_nan
           (set_store (fun l => {| x := 0; y := 0; theta := 0;
                                   w := if Nat.eqb l 0 then Np NaN else Py (Fin 1) |}) 2
              two_particle_filter)).
  - exact NoDup_two_particle_cloud.
  - reflexivity.
Defined.

Lemma normalize_particles_total_one (st st' : ParticleFilter) (s : R) :
  0 < s →
  val (total_weight (store st) (particle_cloud st)) = Fin s →
  particle_cloud st' = particle_cloud st →
  (∀ l, l ∈ particle_cloud st →
        val (w (store st' l)) = Fin (rweight (store st l) / s)) →
  val (total_weight (store st') (particle_cloud st')) = Fin 1.
Proof.
  intros Hpos Hsum Hc Hw.
  rewrite total_weight_val in Hsum. apply fold_fadd_fin in Hsum as [_ Hs].
  rewrite total_weight_val, Hc.
  rewrite (fold_fadd_terms _ (fun l => rweight (store st l) / s)) by assumption.
  f_equal. rewrite Rsum_map_scale. rewrite Hs. field. lra.
Qed.

(** X17: normalising twice is normalising once: after a normalisation of a
    cloud of distinct objects with a strictly positive total, a second one
    returns and leaves the value of every weight as it is. *)
Theorem normalize_particles_idempotent (st : ParticleFilter) (s : R) :
  NoDup (particle_cloud st) →
  val (total_weight (store st) (particle_cloud st)) = Fin s →
  0 < s →
  ∃ st1 st2,
    normalize_particles st = (Ret tt, st1)
    ∧ normalize_particles st1 = (Ret tt, st2)
    ∧ particle_cloud st2 = particle_cloud st
    ∧ ∀ l, l ∈ particle_cloud st → val (w (store st2 l)) = val (w (store st1 l)).
Proof.
  intros Hnd Hsum Hpos.
  destruct (normalize_particles_sum_one_aux st s Hnd Hsum Hpos)
    as (st1 & Hrun1 & Hc1 & Hw1 & _).
  pose proof (normalize_particles_total_one st st1 s Hpos Hsum Hc1 Hw1) as Hone.
  assert (Hnd1 : NoDup (particle_cloud st1)) by now rewrite Hc1.
  assert (H01 : 0 < 1) by lra.
  destruct (normalize_particles_sum_one_aux st1 1 Hnd1 Hone H01)
    as (st2 & Hrun2 & Hc2 & Hw2 & _).
  exists st1, st2. split; [assumption |]. split; [assumption |].
  split; [congruence |].
  intros l Hl. rewrite Hw2 by now rewrite Hc1.
  unfold rweight. rewrite (Hw1 l Hl). f_equal. field. lra.
Qed.

Lemma normalize_particles_idempotent_witness :
  ∃ st1 st2,
    normalize_particles two_particle_filter = (Ret tt, st1)
    ∧ normalize_particles st1 = (Ret tt, st2)
    ∧ particle_cloud st2 = particle_cloud two_particle_filter
    ∧ ∀ l, l ∈ particle_cloud two_particle_filter →
           val (w (store st2 l)) = val (w (store st1 l)).
Proof.
  apply (normalize_particles_idempotent two_particle_filter (0 + 1 + 1)).
  - exact NoDup_two_particle_cloud.
  - reflexivity.
  - lra.
Defined.

(** X18: whatever its outcome, [normalize_particles] touches nothing but
    weights: the cloud holds the same objects, no object is allocated, and
    every object keeps its pose. *)
Theorem normalize_particles_keeps_pose (st : ParticleFilter) (l : nat) :
  let st' := (normalize_particles st).2 in
  particle_cloud st' = particle_cloud st
  ∧ next_loc st' = next_loc st
  ∧ robot_pose st' = robot_pose st
  ∧ same_pose (store st' l) (store st l).
Proof.
  destruct (normalize_particles st) as [o st1] eqn:Hrun.
  apply normalize_particles_store in Hrun as (h & -> & Hpose).
  cbv zeta. cbn. repeat split; apply Hpose.
Qed.

(** ** update_particles_with_odom: bootstrap, frame and geometry *)

Lemma update_particles_with_odom_bootstrap_aux (gauss unif : nat → R)
    (st : ParticleFilter) :
  current_odom_xy_theta st = None →
  update_particles_with_odom gauss unif st
  = (Ret tt, set_current_odom_xy_theta (Some (odom_pose st)) st).
Proof.
  intros Hcur. unfold update_particles_with_odom.
  unfold bind at 1. unfold gets at 1. unfold bind at 1. unfold gets at 1.
  unfold bind at 1. unfold modify at 1. now rewrite Hcur.
Qed.

(** X19: on the first odometry sample, when no odometry has been recorded
    yet, the motion update only records the current odometry: no particle
    moves and no random number is drawn. *)
Theorem update_particles_with_odom_bootstrap (gauss unif : nat → R)
    (st : ParticleFilter) :
  current_odom_xy_theta st = None →
  update_particles_with_odom gauss unif st
  = (Ret tt, set_current_odom_xy_theta (Some (odom_pose st)) st).
Proof.
  exact (update_particles_with_odom_bootstrap_aux gauss unif st).
Qed.

Lemma update_particles_with_odom_bootstrap_witness :
  update_particles_with_odom (fun _ => 1) (fun _ => 1 / 2) two_particle_filter
  = (Ret tt,
     set_current_odom_xy_theta (Some (odom_pose two_particle_filter)) two_particle_filter).
Proof. apply update_particles_with_odom_bootstrap. reflexivity. Defined.

Lemma odom_loop_frame (gauss unif : nat → R) (r1 dd r2 : R)
    (cloud : list nat) (s : ParticleFilter) :
  ∃ s',
    for_each
      (fun l =>
         delta_random_radius <- np_random_normal gauss 0 RADIAL_SIGMA ;;
         u <- random_sample unif ;;
         delta_random_orient_angle <- np_random_normal gauss 0 ORIENTATION_SIGMA ;;
         p <- read_particle l ;;
         write_particle l
           (move_particle r1 dd r2 delta_random_radius (u * TAU / 2)
              delta_random_orient_angle p))
      cloud s = (Ret tt, s')
    ∧ particle_cloud s' = particle_cloud s
    ∧ current_odom_xy_theta s' = current_odom_xy_theta s
    ∧ robot_pose s' = robot_pose s
    ∧ next_loc s' = next_loc s
    ∧ rng_ticks s' = (rng_ticks s + 3 * length cloud)%nat
    ∧ ∀ l, w (store s' l) = w (store s l).
Proof.
  revert s. induction cloud as [| a rest IH]; intros s.
  - exists s. simpl. unfold ret. repeat split. lia.
  - set (body := fun l : nat =>
         delta_random_radius <- np_random_normal gauss 0 RADIAL_SIGMA ;;
         u <- random_sample unif ;;
         delta_random_orient_angle <- np_random_normal gauss 0 ORIENTATION_SIGMA ;;
         p <- read_particle l ;;
         write_particle l
           (move_particle r1 dd r2 delta_random_radius (u * TAU / 2)
              delta_random_orient_angle p)) in *.
    destruct (body a s) as [o1 s1] eqn:Hstep.
    assert (Hs1 : o1 = Ret tt
                  ∧ particle_cloud s1 = particle_cloud s
                  ∧ current_odom_xy_theta s1 = current_odom_xy_theta s
                  ∧ robot_pose s1 = robot_pose s
                  ∧ next_loc s1 = next_loc s
                  ∧ rng_ticks s1 = (rng_ticks s + 3)%nat
                  ∧ ∀ l, w (store s1 l) = w (store s l)).
    { unfold body in Hstep. unfold bind at 1 in Hstep.
      unfold np_random_normal at 1 in Hstep.
      unfold bind at 1 in Hstep. unfold random_sample at 1 in Hstep.
      unfold bind at 1 in Hstep. unfold np_random_normal at 1 in Hstep.
      unfold bind at 1 in Hstep. unfold read_particle, gets in Hstep.
      unfold write_particle, modify in Hstep.
      inversion Hstep; subst o1 s1. clear Hstep. cbn.
      repeat split; try lia.
      intros l. unfold upd. destruct (Nat.eqb_spec l a) as [-> | _]; reflexivity. }
    destruct Hs1 as (-> & Hc1 & Hcur1 & Hr1 & Hn1 & Ht1 & Hw1).
    destruct (IH s1) as (s' & Hrun & Hc & Hcur & Hr & Hn & Ht & Hw).
    cbn [for_each]. unfold bind at 1. rewrite Hstep, Hrun.
    exists s'. split; [reflexivity |].
    split; [congruence |]. split; [congruence |]. split; [congruence |].
    split; [congruence |]. split; [rewrite Ht, Ht1; cbn; lia |].
    intros l. now rewrite Hw, Hw1.
Qed.

(** X20: whatever the noise drawn, the motion update returns; it records
    the current odometry and leaves the cloud, the weight of every particle
    object, the pose estimate and the set of allocated objects as they
    were. *)
Theorem update_particles_with_odom_keeps_weights (gauss unif : nat → R)
    (st : ParticleFilter) :
  ∃ st',
    update_particles_with_odom gauss unif st = (Ret tt, st')
    ∧ particle_cloud st' = particle_cloud st
    ∧ current_odom_xy_theta st' = Some (odom_pose st)
    ∧ robot_pose st' = robot_pose st
    ∧ next_loc st' = next_loc st
    ∧ ∀ l, w (store st' l) = w (store st l).
Proof.
  destruct (current_odom_xy_theta st) as [[[ox oy] ot] |] eqn:Hcur.
  - unfold update_particles_with_odom.
    unfold bind at 1. unfold gets at 1. unfold bind at 1. unfold gets at 1.
    unfold bind at 1. unfold modify at 1. rewrite Hcur.
    destruct (odom_pose st) as [[nx ny] nt] eqn:Hodom. cbv beta iota zeta.
    unfold bind at 1. unfold gets at 1.
    cbn [fst snd particle_cloud set_current_odom_xy_theta].
    match goal with |- context [for_each ?b (particle_cloud st) ?s0] =>
      match b with context [move_particle ?r1 ?dd ?r2] =>
        destruct (odom_loop_frame gauss unif r1 dd r2 (particle_cloud st) s0)
          as (s' & Hrun & Hc & Hcur' & Hr & Hn & _ & Hw) end end.
    exists s'. split; [exact Hrun |]. cbn in Hc, Hcur', Hr, Hn, Hw. now repeat split.
  - rewrite update_particles_with_odom_bootstrap_aux by assumption.
    eexists. split; [reflexivity |]. cbn. now repeat split.
Qed.

(** X21: without noise the motion update turns the heading of every
    particle by exactly the change of the odometry heading and moves it by
    exactly the distance travelled by the odometry. *)
Theorem update_particles_with_odom_displacement (gauss unif : nat → R)
    (st : ParticleFilter) (ox oy ot nx ny nt : R) :
  (∀ k, gauss k = 0) →
  NoDup (particle_cloud st) →
  current_odom_xy_theta st = Some (ox, oy, ot) →
  odom_pose st = (nx, ny, nt) →
  ∃ st',
    update_particles_with_odom gauss unif st = (Ret tt, st')
    ∧ ∀ l, l ∈ particle_cloud st →
        theta (store st' l) = theta (store st l) + (nt - ot)
        ∧ (x (store st' l) - x (store st l)) ^ 2 + (y (store st' l) - y (store st l)) ^ 2
          = (nx - ox) ^ 2 + (ny - oy) ^ 2.
Proof.
  intros Hg Hnd Hcur Hodom.
  destruct (update_particles_with_odom_rtr gauss unif st ox oy ot nx ny nt Hg Hnd Hcur Hodom)
    as (st' & Hrun & _ & _ & Hin & _).
  exists st'. split; [exact Hrun |].
  intros l Hl. rewrite (Hin l Hl). unfold rotate_translate_rotate.
  cbn [x y theta w]. split; [ring |].
  set (a := theta (store st l) + (atan2 (ny - oy) (nx - ox) - ot)).
  set (t := sqrt ((nx - ox) ^ 2 + (ny - oy) ^ 2)).
  assert (Ht : t * t = (nx - ox) ^ 2 + (ny - oy) ^ 2).
  { unfold t. apply sqrt_sqrt. apply Rplus_le_le_0_compat; apply pow2_ge_0. }
  pose proof (sin2_cos2 a) as Hsc. unfold Rsqr in Hsc.
  match goal with |- ?L = _ =>
    replace L with ((sin a * sin a + cos a * cos a) * (t * t)) by ring end.
  rewrite Hsc, Ht. ring.
Qed.

Lemma update_particles_with_odom_displacement_witness :
  ∃ st',
    update_particles_with_odom (fun _ => 0) (fun _ => 0) one_step_filter = (Ret tt, st')
    ∧ ∀ l, l ∈ particle_cloud one_step_filter →
        theta (store st' l) = theta (store one_step_filter l) + (0 - 0)
        ∧ (x (store st' l) - x (store one_step_filter l)) ^ 2
          + (y (store st' l) - y (store one_step_filter l)) ^ 2
          = (1 - 0) ^ 2 + (0 - 0) ^ 2.
Proof.
  apply (update_particles_with_odom_displacement (fun _ => 0) (fun _ => 0)
           one_step_filter 0 0 0 1 0 0).
  - reflexivity.
  - apply NoDup_singleton.
  - reflexivity.
  - reflexivity.
Defined.

(** ** resample_particles: the empty cloud and the particles drawn *)

(** X22: resampling an empty cloud (with [n_particles] not zero) raises
    [ValueError] at the first draw and leaves the filter as it was. *)
Theorem resample_particles_empty_cloud (unif : nat → R) (st : ParticleFilter) :
  particle_cloud st = [] →
  n_particles st ≠ 0%nat →
  resample_particles unif st = (Raise ValueError, st).
Proof.
  intros Hc Hn. unfold resample_particles. unfold bind at 1.
  unfold normalize_particles. unfold bind at 1. unfold gets at 1.
  unfold bind at 1. unfold gets at 1. rewrite Hc. cbn [for_each]. unfold ret at 1.
  unfold bind at 1. unfold gets at 1. rewrite Hc.
  unfold bind at 1. unfold gets at 1.
  unfold bind at 1. unfold gets at 1.
  destruct (n_particles st) as [| n]; [contradiction |].
  reflexivity.
Qed.

Lemma resample_particles_empty_cloud_witness :
  resample_particles (fun _ => 0) (ParticleFilter_init two_by_two)
  = (Raise ValueError, ParticleFilter_init two_by_two).
Proof.
  apply resample_particles_empty_cloud.
  - reflexivity.
  - cbn. lia.
Defined.

Lemma cumsum_ge (acc : R) (pr : list R) (c : R) :
  (∀ v, v ∈ pr → 0 <= v) → c ∈ cumsum acc pr → acc <= c.
Proof.
  revert acc. induction pr as [| a rest IH]; intros acc Hnn Hc.
  - now apply not_elem_of_nil in Hc.
  - assert (Ha : 0 <= a) by (apply Hnn, elem_of_cons; now left).
    simpl in Hc. apply elem_of_cons in Hc as [-> | Hc]; [lra |].
    apply IH in Hc; [lra |]. intros v Hv. apply Hnn, elem_of_cons. now right.
Qed.

Lemma filter_none_length (f : R → bool) (l : list R) :
  (∀ c, c ∈ l → f c = false) → length (List.filter f l) = 0%nat.
Proof.
  induction l as [| a rest IH]; intros Hall; [reflexivity |].
  simpl. rewrite (Hall a) by (apply elem_of_cons; now left).
  apply IH. intros c Hc. apply Hall, elem_of_cons. now right.
Qed.

(** The entry found by the search on the cumulative sums of non-negative
    numbers is a strictly positive one. *)
Lemma searchsorted_right_positive (pr : list R) (acc u : R) :
  (∀ v, v ∈ pr → 0 <= v) →
  acc <= u →
  u < acc + Rsum pr →
  ∃ v, pr !! searchsorted_right (cumsum acc pr) u = Some v ∧ 0 < v.
Proof.
  unfold searchsorted_right.
  revert acc. induction pr as [| a rest IH]; intros acc Hnn Hlo Hhi.
  - unfold Rsum in Hhi; simpl in Hhi. lra.
  - assert (Hrest : ∀ v, v ∈ rest → 0 <= v)
      by (intros v Hv; apply Hnn, elem_of_cons; now right).
    change (cumsum acc (a :: rest)) with ((acc + a) :: cumsum (acc + a) rest).
    cbn [List.filter]. unfold Rleb at 1.
    destruct (Rle_dec (acc + a) u) as [Hle | Hgt].
    + cbn [length]. simpl lookup.
      apply IH; [assumption | assumption |].
      unfold Rsum in *; simpl in Hhi. lra.
    + rewrite filter_none_length.
      * exists a. split; [reflexivity | lra].
      * intros c Hc. apply cumsum_ge in Hc; [| assumption].
        unfold Rleb. destruct (Rle_dec c u); [lra | reflexivity].
Qed.

Lemma searchsorted_right_scaled (cdf : list R) (u c : R) :
  0 < c →
  searchsorted_right (map (fun v => v / c) cdf) u = searchsorted_right cdf (u * c).
Proof.
  intros Hc. unfold searchsorted_right.
  induction cdf as [| a rest IH]; [reflexivity |].
  cbn [map List.filter].
  assert (Hiff : Rleb (a / c) u = Rleb a (u * c)).
  { unfold Rleb.
    assert (Hinv : 0 < / c) by now apply Rinv_0_lt_compat.
    assert (Hone : c * / c = 1) by (apply Rinv_r; lra).
    destruct (Rle_dec (a / c) u) as [H1 | H1], (Rle_dec a (u * c)) as [H2 | H2];
      try reflexivity; exfalso; unfold Rdiv in H1.
    - apply H2. replace a with (a * / c * c) by (field; lra).
      apply Rmult_le_compat_r; lra.
    - apply H1. replace u with (u * c * / c) by (field; lra).
      apply Rmult_le_compat_r; lra. }
  rewrite Hiff. destruct (Rleb a (u * c)); cbn [length]; now rewrite IH.
Qed.

Lemma existsb_negative_false_inv (pr : list R) :
  existsb (fun v => Rltb v 0) pr = false → ∀ v, v ∈ pr → 0 <= v.
Proof.
  induction pr as [| a rest IH]; intros Hex v Hv.
  - now apply not_elem_of_nil in Hv.
  - simpl in Hex. apply orb_false_iff in Hex as [Ha Hrest].
    apply elem_of_cons in Hv as [-> | Hv]; [| now apply IH].
    unfold Rltb in Ha. destruct (Rlt_dec a 0); [discriminate | lra].
Qed.

Lemma finite_values_lookup (p : list num) (pr : list R) (i : nat) (v : R) :
  finite_values p = Some pr → pr !! i = Some v →
  ∃ q, p !! i = Some q ∧ val q = Fin v.
Proof.
  revert pr i. induction p as [| a rest IH]; intros pr i Hfin Hv.
  - simpl in Hfin. inversion Hfin; subst. discriminate.
  - simpl in Hfin. destruct (val a) as [r | | |] eqn:Ea; try discriminate.
    destruct (finite_values rest) as [rs |] eqn:Er; [| discriminate].
    inversion Hfin; subst pr. destruct i as [| i]; simpl in *.
    + inversion Hv; subst. eauto.
    + eapply IH; [reflexivity | exact Hv].
Qed.

(** A draw that returns has picked an entry of [a] whose probability is
    strictly positive, as long as the uniform sample lies in [0, 1). *)
Lemma np_random_choice_positive (unif : nat → R) (a : list nat) (p : list num)
    (s s1 : ParticleFilter) (l : nat) :
  0 <= unif (rng_ticks s) < 1 →
  np_random_choice unif a p s = (Ret l, s1) →
  ∃ i q, a !! i = Some l ∧ p !! i = Some q ∧ fpositive (val q).
Proof.
  intros [Hu0 Hu1]. unfold np_random_choice.
  destruct a as [| a0 arest]; [discriminate |].
  destruct (finite_values p) as [pr |] eqn:Hfin; [| discriminate].
  destruct (negb (length pr =? length (a0 :: arest))%nat); [discriminate |].
  destruct (existsb (fun v => Rltb v 0) pr) eqn:Hex; [discriminate |].
  unfold Rgtb. destruct (Rgt_dec (Rabs (Rsum pr - 1)) choice_atol) as [| Hsum];
    [discriminate |].
  pose proof choice_atol_bounds as [Hat0 Hat1].
  assert (Hpos : 0 < Rsum pr).
  { unfold Rabs in Hsum. destruct (Rcase_abs (Rsum pr - 1)); lra. }
  pose proof (existsb_negative_false_inv pr Hex) as Hnn.
  unfold bind at 1. unfold random_sample at 1. cbv zeta.
  destruct pr as [| p0 prest]; [unfold Rsum in Hpos; simpl in Hpos; lra |].
  rewrite cumsum_last, searchsorted_right_scaled by lra.
  destruct (searchsorted_right_positive (p0 :: prest) 0
              (unif (rng_ticks s) * (0 + Rsum (p0 :: prest)))) as (v & Hv & Hvpos);
    [assumption | nra | nra |].
  destruct ((a0 :: arest) !! _) as [l' |] eqn:Hl; [| discriminate].
  unfold ret. intros Hret. inversion Hret; subst l' s1. clear Hret.
  destruct (finite_values_lookup p _ _ v Hfin Hv) as (q & Hq & Hval).
  eexists _, q. split; [exact Hl |]. split; [exact Hq |]. now rewrite Hval.
Qed.

(** The particles returned by the loop of [resample_particles] are copies of
    members of [cloud] that had a strictly positive probability. *)
Lemma resample_loop_copies (unif : nat → R) (cloud : list nat) (p : list num)
    (n i : nat) (s s' : ParticleFilter) (new : list nat) :
  (∀ k, 0 <= unif k < 1) →
  (∀ l, l ∈ cloud → (l < next_loc s)%nat) →
  map_m (fun _ : nat => chosen <- np_random_choice unif cloud p ;; deepcopy chosen)
        (seq i n) s = (Ret new, s') →
  ∀ l, l ∈ new →
    ∃ j l0 q, cloud !! j = Some l0 ∧ p !! j = Some q ∧ fpositive (val q)
              ∧ store s' l = store s l0.
Proof.
  intros Hu. revert i s s' new. induction n as [| n IH]; intros i s s' new Hwf Hrun l Hl.
  - simpl in Hrun. unfold ret in Hrun. inversion Hrun; subst.
    now apply not_elem_of_nil in Hl.
  - cbn [seq map_m] in Hrun. unfold bind at 1 in Hrun. unfold bind at 1 in Hrun.
    destruct (np_random_choice unif cloud p s) as [o1 s1] eqn:Hch.
    destruct o1 as [l0 | e]; [| discriminate].
    pose proof (np_random_choice_positive _ _ _ _ _ _ (Hu _) Hch) as (j & q & Hj & Hq & Hqpos).
    apply np_random_choice_frame in Hch as [Hs1 _].
    assert (Hst : store s1 = store s ∧ next_loc s1 = next_loc s).
    { destruct Hs1 as [-> | ->]; now split. }
    destruct Hst as [Hst Hnl].
    unfold deepcopy at 1 in Hrun. unfold bind at 1 in Hrun.
    match type of Hrun with context [map_m ?f (seq (S i) n) ?s0] =>
      destruct (map_m f (seq (S i) n) s0) as [o2 s2] eqn:Hrest end.
    destruct o2 as [bs | e]; [| discriminate].
    unfold ret in Hrun. inversion Hrun; subst new s'. clear Hrun.
    assert (Hwf2 : ∀ l', l' ∈ cloud →
              (l' < next_loc (set_store (upd (store s1) (next_loc s1) (store s1 l0))
                               (S (next_loc s1)) s1))%nat).
    { intros l' Hl'. cbn. rewrite Hnl. specialize (Hwf l' Hl'). lia. }
    apply elem_of_cons in Hl as [-> | Hl].
    + apply resample_loop_frame in Hrest as (_ & _ & Hold & _); [| exact Hwf2].
      exists j, l0, q. split; [assumption |]. split; [assumption |].
      split; [assumption |].
      rewrite Hold by (cbn; lia). cbn. rewrite upd_same. now rewrite Hst.
    + destruct (IH _ _ _ _ Hwf2 Hrest l Hl) as (j' & l1 & q' & Hj' & Hq' & Hpos' & Heq).
      exists j', l1, q'. split; [assumption |]. split; [assumption |].
      split; [assumption |].
      rewrite Heq. cbn. rewrite Hst. apply upd_other.
      assert (l1 < next_loc s)%nat by (apply Hwf; now apply list_elem_of_lookup_2 in Hj').
      lia.
Qed.

(** X23: every particle of a new generation is a copy of a particle of the
    previous cloud whose weight was strictly positive: a particle of weight
    zero is never drawn, and when a single particle carries all the weight the
    whole generation is made of copies of it. *)
Theorem resample_particles_draws_positive (unif : nat → R) (st : ParticleFilter)
    (s : R) :
  (∀ l, l ∈ particle_cloud st → (l < next_loc st)%nat) →
  NoDup (particle_cloud st) →
  val (total_weight (store st) (particle_cloud st)) = Fin s →
  0 < s →
  (∀ l, l ∈ particle_cloud st → fnonneg (val (w (store st l)))) →
  (∀ k, 0 <= unif k < 1) →
  ∃ st',
    resample_particles unif st = (Ret tt, st')
    ∧ ∀ l, l ∈ particle_cloud st' →
        ∃ l0, l0 ∈ particle_cloud st
              ∧ 0 < rweight (store st l0)
              ∧ same_pose (store st' l) (store st l0).
Proof.
  intros Hwf Hnd Hsum Hpos Hnn Hu.
  destruct (resample_particles_ret unif st s Hnd Hsum Hpos Hnn) as [st' Hrun];
    [intros k; apply Hu |].
  exists st'. split; [exact Hrun |].
  destruct (normalize_particles_sum_one_aux st s Hnd Hsum Hpos)
    as (st1 & Hrun1 & Hc1 & Hw1 & Hpose1).
  pose proof (normalize_particles_store _ _ _ Hrun1) as (h & Hst1 & _).
  unfold resample_particles in Hrun. unfold bind at 1 in Hrun. rewrite Hrun1 in Hrun.
  unfold bind at 1 in Hrun. unfold gets at 1 in Hrun.
  unfold bind at 1 in Hrun. unfold gets at 1 in Hrun.
  unfold bind at 1 in Hrun. unfold gets at 1 in Hrun.
  unfold bind at 1 in Hrun.
  match type of Hrun with context [map_m ?f ?l0 ?s0] =>
    destruct (map_m f l0 s0) as [o2 st2] eqn:Hloop end.
  destruct o2 as [new | e]; [| discriminate].
  unfold modify in Hrun. inversion Hrun; subst st'. clear Hrun.
  cbn [particle_cloud set_particle_cloud store].
  intros l Hl.
  assert (Hwf1 : ∀ l', l' ∈ particle_cloud st1 → (l' < next_loc st1)%nat).
  { intros l' Hl'. rewrite Hc1 in Hl'. rewrite Hst1. cbn. now apply Hwf. }
  destruct (resample_loop_copies unif (particle_cloud st1)
              (map (fun l => w (store st1 l)) (particle_cloud st1))
              (n_particles st1) 0 st1 st2 new Hu Hwf1 Hloop l Hl)
    as (j & l0 & q & Hj & Hq & Hqpos & Heq).
  rewrite Hc1 in Hj, Hq.
  assert (Hl0 : l0 ∈ particle_cloud st) by now apply list_elem_of_lookup_2 in Hj.
  rewrite list_lookup_fmap, Hj in Hq. simpl in Hq. inversion Hq; subst q. clear Hq.
  rewrite (Hw1 l0 Hl0) in Hqpos. simpl in Hqpos.
  exists l0. split; [assumption |]. split.
  - assert (Hinv : 0 < / s) by now apply Rinv_0_lt_compat.
    unfold Rdiv in Hqpos.
    destruct (Rle_or_lt (rweight (store st l0)) 0) as [Hle | Hlt]; [| assumption].
    exfalso. nra.
  - rewrite Heq. apply Hpose1.
Qed.

Lemma resample_particles_draws_positive_witness :
  ∃ st',
    resample_particles (fun _ => 0) two_particle_filter = (Ret tt, st')
    ∧ ∀ l, l ∈ particle_cloud st' →
        ∃ l0, l0 ∈ particle_cloud two_particle_filter
              ∧ 0 < rweight (store two_particle_filter l0)
              ∧ same_pose (store st' l) (store two_particle_filter l0).
Proof.
  apply (resample_particles_draws_positive (fun _ => 0) two_particle_filter (0 + 1 + 1)).
  - intros l Hl. cbn in *.
    apply elem_of_cons in Hl as [-> | Hl]; [lia |].
    apply list_elem_of_singleton in Hl as ->. lia.
  - exact NoDup_two_particle_cloud.
  - reflexivity.
  - lra.
  - intros l _. cbn. lra.
  - intros k. lra.
Defined.

(** ** initialize_particle_cloud *)

Lemma Rsum_ones {A : Type} (l : list A) : Rsum (map (fun _ => 1) l) = INR (length l).
Proof.
  induction l as [| a rest IH]; [reflexivity |].
  cbn [map length]. rewrite S_INR. unfold Rsum in *. cbn [fold_right]. rewrite IH. lra.
Qed.

Lemma Rabs_scaled (u a : R) : 0 <= u <= 1 → Rabs (u * a) <= Rabs a.
Proof.
  intros [H0 H1]. rewrite Rabs_mult, (Rabs_pos_eq u) by assumption.
  pose proof (Rabs_pos a). nra.
Qed.

(** The loop of [initialize_particle_cloud]: [n] objects are allocated and
    appended to the cloud, each with weight 1.0, the fixed heading and a
    position within the scatter box. *)
Lemma initialize_loop (unif : nat → R) (m : MapInfo) (n i : nat) (s : ParticleFilter) :
  (∀ k, 0 <= unif k <= 1) →
  ∃ s',
    for_each
      (fun _ : nat =>
         u1 <- random_sample unif ;;
         u2 <- random_sample unif ;;
         u3 <- random_sample unif ;;
         u4 <- random_sample unif ;;
         l <- new_particle
                (if Rgtb u2 (5 / 10)
                 then - (u1 * IZR (width m) * resolution m * (5 / 100))
                 else u1 * IZR (width m) * resolution m * (5 / 100))
                (if Rgtb u4 (5 / 10)
                 then - (u3 * IZR (height m) * resolution m * (1 / 10))
                 else u3 * IZR (height m) * resolution m * (1 / 10))
                (34 / 100 * TAU) ;;
         modify (fun s => set_particle_cloud (particle_cloud s ++ [l]) s))
      (seq i n) s = (Ret tt, s')
    ∧ particle_cloud s' = particle_cloud s ++ seq (next_loc s) n
    ∧ next_loc s' = (next_loc s + n)%nat
    ∧ rng_ticks s' = (rng_ticks s + 4 * n)%nat
    ∧ n_particles s' = n_particles s
    ∧ published s' = published s
    ∧ current_odom_xy_theta s' = current_odom_xy_theta s
    ∧ occupancy_field s' = occupancy_field s
    ∧ (initialized s', d_thresh s', a_thresh s', odom_pose s')
      = (initialized s, d_thresh s, a_thresh s, odom_pose s)
    ∧ (∀ l, (l < next_loc s)%nat → store s' l = store s l)
    ∧ (∀ l, (next_loc s <= l < next_loc s + n)%nat →
         w (store s' l) = Py (Fin 1)
         ∧ theta (store s' l) = 34 / 100 * TAU
         ∧ Rabs (x (store s' l)) <= Rabs (IZR (width m) * resolution m * (5 / 100))
         ∧ Rabs (y (store s' l)) <= Rabs (IZR (height m) * resolution m * (1 / 10))).
Proof.
  intros Hu. revert i s. induction n as [| n IH]; intros i s.
  - exists s. simpl. unfold ret. rewrite app_nil_r.
    repeat split; try lia. all: intros l Hl; lia.
  - cbn [seq for_each]. unfold bind at 1.
    unfold bind at 1. unfold random_sample at 1.
    unfold bind at 1. unfold random_sample at 1.
    unfold bind at 1. unfold random_sample at 1.
    unfold bind at 1. unfold random_sample at 1.
    unfold bind at 1. unfold new_particle at 1. unfold modify at 1.
    match goal with |- context [for_each ?b (seq (S i) n) ?s0] =>
      destruct (IH (S i) s0)
        as (s' & Hrun & Hc & Hn & Ht & Hnp & Hp & Hcur & Hof & Hset & Hold & Hnew);
      set (s1 := s0) in * end.
    exists s'. split; [exact Hrun |].
    assert (Hs1n : next_loc s1 = S (next_loc s)) by reflexivity.
    assert (Hs1c : particle_cloud s1 = particle_cloud s ++ [next_loc s]) by reflexivity.
    assert (Hs1t : rng_ticks s1 = S (S (S (S (rng_ticks s))))) by reflexivity.
    split; [rewrite Hc, Hs1c, Hs1n, <- app_assoc; reflexivity |].
    split; [rewrite Hn, Hs1n; lia |].
    split; [rewrite Ht, Hs1t; lia |].
    split; [rewrite Hnp; reflexivity |].
    split; [rewrite Hp; reflexivity |].
    split; [rewrite Hcur; reflexivity |].
    split; [rewrite Hof; reflexivity |].
    split; [rewrite Hset; reflexivity |].
    split.
    + intros l Hl. rewrite Hold by (rewrite Hs1n; lia).
      subst s1. cbn. apply upd_other. lia.
    + intros l Hl. destruct (decide (l = next_loc s)) as [-> | Hne].
      * rewrite Hold by (rewrite Hs1n; lia).
        subst s1. cbn [store set_particle_cloud set_store]. rewrite upd_same.
        cbn [w theta x y]. split; [reflexivity |]. split; [reflexivity |].
        split.
        -- match goal with |- context [Rgtb ?a ?b] => destruct (Rgtb a b) end;
             cbv iota; [rewrite Rabs_Ropp |];
             rewrite !Rmult_assoc; apply Rabs_scaled, Hu.
        -- match goal with |- context [Rgtb ?a ?b] => destruct (Rgtb a b) end;
             cbv iota; [rewrite Rabs_Ropp |];
             rewrite !Rmult_assoc; apply Rabs_scaled, Hu.
      * apply Hnew. rewrite Hs1n. lia.
Qed.

Lemma update_robot_pose_run (st : ParticleFilter) (s : R) :
  NoDup (particle_cloud st) →
  val (total_weight (store st) (particle_cloud st)) = Fin s →
  0 < s →
  ∃ st2 pose,
    normalize_particles st = (Ret tt, st2)
    ∧ update_robot_pose st = (Ret tt, set_robot_pose pose st2).
Proof.
  intros Hnd Hsum Hpos.
  destruct (normalize_particles_sum_one_aux st s Hnd Hsum Hpos)
    as (st1 & Hrun & Hc & Hw & Hxyz).
  unfold update_robot_pose. unfold bind at 1. rewrite Hrun.
  unfold bind at 1. unfold gets at 1.
  unfold bind at 1. unfold gets at 1.
  unfold bind at 1. unfold gets at 1.
  unfold bind at 1. unfold gets at 1.
  rewrite Hc.
  rewrite (weighted_total_normalized x (store st) (store st1) _ s);
    [| assumption | intros l _; apply Hxyz].
  rewrite (weighted_total_normalized y (store st) (store st1) _ s);
    [| assumption | intros l _; apply Hxyz].
  rewrite (weighted_total_normalized theta (store st) (store st1) _ s);
    [| assumption | intros l _; apply Hxyz].
  unfold bind at 1. unfold lift, as_pose, quaternion_from_yaw, modify.
  eauto.
Qed.

(** What [initialize_particle_cloud] does when [n_particles] is not zero. *)
Lemma initialize_particle_cloud_run (unif : nat → R) (st : ParticleFilter) :
  n_particles st ≠ 0%nat →
  (∀ k, 0 <= unif k <= 1) →
  ∃ st',
    initialize_particle_cloud unif st = (Ret tt, st')
    ∧ particle_cloud st' = seq (next_loc st) (n_particles st)
    ∧ next_loc st' = (next_loc st + n_particles st)%nat
    ∧ n_particles st' = n_particles st
    ∧ published st' = published st
    ∧ current_odom_xy_theta st' = current_odom_xy_theta st
    ∧ odom_pose st' = odom_pose st
    ∧ (initialized st', d_thresh st', a_thresh st')
      = (initialized st, d_thresh st, a_thresh st)
    ∧ val (total_weight (store st') (particle_cloud st')) = Fin 1
    ∧ ∀ l, l ∈ particle_cloud st' →
        theta (store st' l) = 34 / 100 * TAU
        ∧ Rabs (x (store st' l))
          <= Rabs (IZR (width (info (occupancy_field st)))
                   * resolution (info (occupancy_field st)) * (5 / 100))
        ∧ Rabs (y (store st' l))
          <= Rabs (IZR (height (info (occupancy_field st)))
                   * resolution (info (occupancy_field st)) * (1 / 10))
        ∧ ∃ r, val (w (store st' l)) = Fin r ∧ r * INR (n_particles st) = 1.
Proof.
  intros Hn Hu. unfold initialize_particle_cloud.
  unfold bind at 1. unfold modify at 1.
  unfold bind at 1. unfold gets at 1.
  unfold bind at 1. unfold gets at 1.
  cbn [occupancy_field n_particles set_particle_cloud].
  set (m := info (occupancy_field st)).
  set (n := n_particles st) in *.
  destruct (initialize_loop unif m n 0 (set_particle_cloud [] st) Hu)
    as (s1 & Hloop & Hc1 & Hn1 & _ & Hnp1 & Hp1 & Hcur1 & _ & Hset1 & _ & Hnew1).
  cbn [particle_cloud next_loc set_particle_cloud n_particles published
       current_odom_xy_theta initialized d_thresh a_thresh odom_pose app]
    in Hc1, Hn1, Hnp1, Hp1, Hcur1, Hset1, Hnew1.
  unfold bind at 1. rewrite Hloop.
  assert (Hin1 : ∀ l, l ∈ particle_cloud s1 → (next_loc st <= l < next_loc st + n)%nat).
  { intros l Hl. rewrite Hc1 in Hl. apply elem_of_seq in Hl. lia. }
  assert (Hnd1 : NoDup (particle_cloud s1)) by (rewrite Hc1; apply NoDup_seq).
  assert (Hlen1 : length (particle_cloud s1) = n) by (rewrite Hc1; apply length_seq).
  assert (Hposn : 0 < INR n) by (apply lt_0_INR; lia).
  assert (Hw1 : ∀ l, l ∈ particle_cloud s1 → val (w (store s1 l)) = Fin 1).
  { intros l Hl. destruct (Hnew1 l (Hin1 l Hl)) as (-> & _). reflexivity. }
  assert (Hsum1 : val (total_weight (store s1) (particle_cloud s1)) = Fin (0 + INR n)).
  { rewrite total_weight_val, (fold_fadd_terms _ (fun _ => 1)) by assumption.
    now rewrite Rsum_ones, Hlen1. }
  assert (H0n : 0 < 0 + INR n) by lra.
  destruct (normalize_particles_sum_one_aux s1 (0 + INR n) Hnd1 Hsum1 H0n)
    as (s2 & Hrun2 & Hc2 & Hw2 & Hxyz2).
  pose proof (normalize_particles_store _ _ _ Hrun2) as (h2 & Hs2 & _).
  pose proof (normalize_particles_total_one s1 s2 (0 + INR n) H0n Hsum1 Hc2 Hw2) as Hsum2.
  unfold bind at 1. rewrite Hrun2.
  assert (Hnd2 : NoDup (particle_cloud s2)) by now rewrite Hc2.
  assert (H01 : 0 < 1) by lra.
  destruct (update_robot_pose_run s2 1 Hnd2 Hsum2 H01) as (s3 & pose & Hrun3 & Hrun4).
  destruct (normalize_particles_sum_one_aux s2 1 Hnd2 Hsum2 H01)
    as (s3' & Hrun3' & Hc3 & Hw3 & Hxyz3).
  rewrite Hrun3 in Hrun3'. inversion Hrun3'; subst s3'. clear Hrun3'.
  pose proof (normalize_particles_store _ _ _ Hrun3) as (h3 & Hs3 & _).
  pose proof (normalize_particles_total_one s2 s3 1 H01 Hsum2 Hc3 Hw3) as Hsum3.
  rewrite Hrun4. eexists. split; [reflexivity |].
  cbn [particle_cloud next_loc n_particles published current_odom_xy_theta store
       odom_pose initialized d_thresh a_thresh set_robot_pose].
  split; [congruence |].
  split; [rewrite Hs3, Hs2; cbn; exact Hn1 |].
  split; [rewrite Hs3, Hs2; cbn; exact Hnp1 |].
  split; [rewrite Hs3, Hs2; cbn; exact Hp1 |].
  split; [rewrite Hs3, Hs2; cbn; exact Hcur1 |].
  split; [rewrite Hs3, Hs2; cbn; congruence |].
  split; [rewrite Hs3, Hs2; cbn; congruence |].
  split; [exact Hsum3 |].
  intros l Hl. rewrite Hc3, Hc2 in Hl.
  destruct (Hnew1 l (Hin1 l Hl)) as (Hwl & Htl & Hxl & Hyl).
  destruct (Hxyz3 l) as (Hx3 & Hy3 & Ht3). destruct (Hxyz2 l) as (Hx2 & Hy2 & Ht2).
  rewrite Hx3, Hy3, Ht3, Hx2, Hy2, Ht2.
  split; [assumption |]. split; [assumption |]. split; [assumption |].
  rewrite (Hw3 l) by now rewrite Hc2.
  unfold rweight at 1. rewrite (Hw2 l Hl). unfold rweight. rewrite Hwl. cbn [val].
  eexists. split; [reflexivity |]. field. lra.
Qed.

(** X24: with [n_particles] not zero, [initialize_particle_cloud] returns
    and replaces the cloud by [n_particles] newly allocated, pairwise distinct
    particle objects; each has heading 0.34 * 2 pi, a position inside the box
    |x| <= 0.05 * width * resolution, |y| <= 0.1 * height * resolution centred
    on the map-frame origin, and weight 1 / n_particles, so the weights sum to
    one. *)
Theorem initialize_particle_cloud_cloud (unif : nat → R) (st : ParticleFilter) :
  n_particles st ≠ 0%nat →
  (∀ k, 0 <= unif k <= 1) →
  ∃ st',
    initialize_particle_cloud unif st = (Ret tt, st')
    ∧ length (particle_cloud st') = n_particles st
    ∧ NoDup (particle_cloud st')
    ∧ val (total_weight (store st') (particle_cloud st')) = Fin 1
    ∧ ∀ l, l ∈ particle_cloud st' →
        (next_loc st <= l)%nat
        ∧ theta (store st' l) = 34 / 100 * TAU
        ∧ Rabs (x (store st' l))
          <= Rabs (IZR (width (info (occupancy_field st)))
                   * resolution (info (occupancy_field st)) * (5 / 100))
        ∧ Rabs (y (store st' l))
          <= Rabs (IZR (height (info (occupancy_field st)))
                   * resolution (info (occupancy_field st)) * (1 / 10))
        ∧ ∃ r, val (w (store st' l)) = Fin r ∧ r * INR (n_particles st) = 1.
Proof.
  intros Hn Hu.
  destruct (initialize_particle_cloud_run unif st Hn Hu)
    as (st' & Hrun & Hc & _ & _ & _ & _ & _ & _ & Hsum & Hall).
  exists st'. split; [exact Hrun |].
  split; [rewrite Hc; apply length_seq |].
  split; [rewrite Hc; apply NoDup_seq |].
  split; [exact Hsum |].
  intros l Hl. split; [| now apply Hall].
  rewrite Hc in Hl. apply elem_of_seq in Hl. lia.
Qed.

Lemma initialize_particle_cloud_cloud_witness :
  ∃ st',
    initialize_particle_cloud (fun _ => 1 / 2) (ParticleFilter_init two_by_two)
      = (Ret tt, st')
    ∧ length (particle_cloud st') = 30%nat
    ∧ NoDup (particle_cloud st').
Proof.
  destruct (initialize_particle_cloud_cloud (fun _ => 1 / 2) (ParticleFilter_init two_by_two))
    as (st' & Hrun & Hlen & Hnd & _).
  - cbn. lia.
  - intros k. lra.
  - exists st'. split; [exact Hrun |]. split; [exact Hlen | exact Hnd].
Defined.

(** The first scan of an initialised filter: the cloud is created, the
    odometry is recorded and the final cloud is published. *)
Lemma scan_received_first_run (gauss unif : nat → R)
    (dict_keys : gmap nat R → list nat) (msg : ScanInput) (st : ParticleFilter) :
  initialized st = true →
  can_transform_laser msg = true →
  can_transform_odom msg = true →
  particle_cloud st = [] →
  n_particles st ≠ 0%nat →
  (∀ k, 0 <= unif k <= 1) →
  ∃ st',
    scan_received gauss unif dict_keys msg st = (Ret tt, st')
    ∧ particle_cloud st' = seq (next_loc st) (n_particles st)
    ∧ current_odom_xy_theta st' = Some (tf_odom_pose msg)
    ∧ published st' = published st ++ [(finalcloud, cloud_poses st')]
    ∧ map_to_odom_source st' = Some (robot_pose st')
    ∧ (initialized st', d_thresh st', a_thresh st')
      = (initialized st, d_thresh st, a_thresh st)
    ∧ val (total_weight (store st') (particle_cloud st')) = Fin 1.
Proof.
  intros Hi Hl Ho Hc Hn Hu.
  unfold scan_received. unfold bind at 1. unfold gets at 1.
  rewrite Hi, Hl, Ho. cbn [negb].
  unfold bind at 1. unfold modify at 1.
  unfold bind at 1. unfold gets at 1.
  unfold bind at 1. unfold gets at 1.
  cbn [particle_cloud set_odom_pose odom_pose]. rewrite Hc.
  unfold call_method, initialize_particle_cloud_params. cbn [length Nat.eqb].
  destruct (initialize_particle_cloud_run unif (set_odom_pose (tf_odom_pose msg) st))
    as (s1 & Hrun & Hc1 & _ & _ & Hp1 & _ & _ & Hset1 & Hsum1 & _);
    [exact Hn | exact Hu |].
  cbn [particle_cloud next_loc n_particles published initialized d_thresh a_thresh
       set_odom_pose] in Hc1, Hp1, Hset1.
  unfold bind at 1. unfold bind at 1. rewrite Hrun.
  unfold bind at 1. unfold modify at 1.
  unfold fix_map_to_odom_transform, modify.
  rewrite publish_particles_ret.
  eexists. split; [reflexivity |].
  cbn [particle_cloud current_odom_xy_theta published map_to_odom_source robot_pose
       initialized d_thresh a_thresh store set_published set_map_to_odom_source
       set_current_odom_xy_theta].
  split; [exact Hc1 |]. split; [reflexivity |].
  split; [rewrite Hp1; reflexivity |].
  split; [reflexivity |]. split; [| exact Hsum1].
  rewrite Hset1, Hi. reflexivity.
Qed.

(** X25: the first scan that an initialised filter receives with both
    transforms available and no cloud yet creates the cloud of [n_particles]
    particles with normalised weights, records the odometry pose of the scan
    as the baseline of the motion gate, derives the map-to-odom transform
    from the new pose estimate and publishes the new cloud once, on the
    final-cloud topic; it returns. *)
Theorem scan_received_first_scan (gauss unif : nat → R)
    (dict_keys : gmap nat R → list nat) (msg : ScanInput) (st : ParticleFilter) :
  initialized st = true →
  can_transform_laser msg = true →
  can_transform_odom msg = true →
  particle_cloud st = [] →
  n_particles st ≠ 0%nat →
  (∀ k, 0 <= unif k <= 1) →
  ∃ st',
    scan_received gauss unif dict_keys msg st = (Ret tt, st')
    ∧ length (particle_cloud st') = n_particles st
    ∧ val (total_weight (store st') (particle_cloud st')) = Fin 1
    ∧ current_odom_xy_theta st' = Some (tf_odom_pose msg)
    ∧ map_to_odom_source st' = Some (robot_pose st')
    ∧ published st' = published st ++ [(finalcloud, cloud_poses st')].
Proof.
  intros Hi Hl Ho Hc Hn Hu.
  destruct (scan_received_first_run gauss unif dict_keys msg st Hi Hl Ho Hc Hn Hu)
    as (st' & Hrun & Hc' & Hcur & Hp & Hm & _ & Hsum).
  exists st'. split; [exact Hrun |].
  split; [rewrite Hc'; apply length_seq |].
  split; [exact Hsum |]. split; [exact Hcur |]. split; [exact Hm | exact Hp].
Qed.

Lemma scan_received_first_scan_witness :
  ∃ st',
    scan_received (fun _ => 0) (fun _ => 1 / 2) hash_order_keys diagonal_scan
      (ParticleFilter_init two_by_two) = (Ret tt, st')
    ∧ length (particle_cloud st') = 30%nat
    ∧ current_odom_xy_theta st' = Some (3 / 100, 3 / 100, 0).
Proof.
  destruct (scan_received_first_scan (fun _ => 0) (fun _ => 1 / 2) hash_order_keys
              diagonal_scan (ParticleFilter_init two_by_two))
    as (st' & Hrun & Hlen & _ & Hcur & _).
  - reflexivity.
  - reflexivity.
  - reflexivity.
  - reflexivity.
  - cbn. lia.
  - intros k. lra.
  - exists st'. split; [exact Hrun |]. split; [exact Hlen | exact Hcur].
Defined.

(** X26: two scans in a row.  After the first scan has created the cloud, a
    second scan whose odometry pose is within the thresholds of the first
    one in every coordinate runs no filter cycle: it returns, the particle
    objects, the cloud and the pose estimate are those left by the first
    scan, and the same pose array is published a second time. *)
Theorem scan_received_second_scan (gauss unif : nat → R)
    (dict_keys : gmap nat R → list nat) (msg msg2 : ScanInput)
    (st : ParticleFilter) :
  initialized st = true →
  can_transform_laser msg = true →
  can_transform_odom msg = true →
  particle_cloud st = [] →
  n_particles st ≠ 0%nat →
  (∀ k, 0 <= unif k <= 1) →
  can_transform_laser msg2 = true →
  can_transform_odom msg2 = true →
  ¬ axis_moved st (tf_odom_pose msg) (tf_odom_pose msg2) →
  ∃ st' st'',
    scan_received gauss unif dict_keys msg st = (Ret tt, st')
    ∧ scan_received gauss unif dict_keys msg2 st' = (Ret tt, st'')
    ∧ particle_cloud st'' = particle_cloud st'
    ∧ store st'' = store st'
    ∧ robot_pose st'' = robot_pose st'
    ∧ current_odom_xy_theta st'' = Some (tf_odom_pose msg)
    ∧ published st''
      = published st ++ [(finalcloud, cloud_poses st'); (finalcloud, cloud_poses st')].
Proof.
  intros Hi Hl Ho Hc Hn Hu Hl2 Ho2 Hgate.
  destruct (scan_received_first_run gauss unif dict_keys msg st Hi Hl Ho Hc Hn Hu)
    as (st' & Hrun & Hc' & Hcur & Hp & _ & Hset & _).
  assert (Hi' : initialized st' = true) by congruence.
  assert (Hd : d_thresh st' = d_thresh st) by congruence.
  assert (Ha : a_thresh st' = a_thresh st) by congruence.
  destruct (n_particles st) as [| n] eqn:En; [congruence |].
  cbn [seq] in Hc'.
  assert (Hgate' : ¬ axis_moved st' (tf_odom_pose msg) (tf_odom_pose msg2)).
  { unfold axis_moved in *. now rewrite Hd, Ha. }
  exists st'. eexists. split; [exact Hrun |].
  split; [exact (scan_received_not_moved gauss unif dict_keys msg2 st' _ _ _
                   Hi' Hl2 Ho2 Hc' Hcur Hgate') |].
  cbn [particle_cloud store robot_pose current_odom_xy_theta published
       set_published set_odom_pose].
  split; [reflexivity |]. split; [reflexivity |]. split; [reflexivity |].
  split; [exact Hcur |]. rewrite Hp, <- app_assoc. reflexivity.
Qed.

Lemma scan_received_second_scan_witness :
  ∃ st' st'',
    scan_received (fun _ => 0) (fun _ => 1 / 2) hash_order_keys diagonal_scan
      (ParticleFilter_init two_by_two) = (Ret tt, st')
    ∧ scan_received (fun _ => 0) (fun _ => 1 / 2) hash_order_keys diagonal_scan st'
      = (Ret tt, st'')
    ∧ particle_cloud st'' = particle_cloud st'
    ∧ store st'' = store st'.
Proof.
  destruct (scan_received_second_scan (fun _ => 0) (fun _ => 1 / 2) hash_order_keys
              diagonal_scan diagonal_scan (ParticleFilter_init two_by_two))
    as (st' & st'' & Hrun & Hrun2 & Hc & Hs & _).
  - reflexivity.
  - reflexivity.
  - reflexivity.
  - reflexivity.
  - cbn. lia.
  - intros k. lra.
  - reflexivity.
  - reflexivity.
  - unfold axis_moved. cbn. pose proof PI_RGT_0 as Hpi. unfold TAU.
    replace (3 / 100 - 3 / 100) with 0 by lra.
    replace (0 - 0) with 0 by lra.
    rewrite Rabs_R0. intros [H | [H | H]]; nra.
  - exists st', st''. split; [exact Hrun |]. split; [exact Hrun2 |].
    split; [exact Hc | exact Hs].
Defined.

(** A sum of terms [c l * g l] with non-negative [c l] lies between the
    bounds of [g] scaled by the sum of the [c l]. *)
Lemma Rsum_weighted_between {A : Type} (c g : A → R) (lo hi : R) (l : list A) :
  (∀ a, a ∈ l → 0 <= c a) →
  (∀ a, a ∈ l → lo <= g a <= hi) →
  lo * Rsum (map c l) <= Rsum (map (fun a => c a * g a) l) <= hi * Rsum (map c l).
Proof.
  induction l as [| a rest IH]; intros Hc Hg.
  - cbn. lra.
  - cbn [map Rsum fold_right] in *. unfold Rsum in IH.
    assert (Ha : 0 <= c a) by (apply Hc; left).
    assert (Hga : lo <= g a <= hi) by (apply Hg; left).
    destruct IH as [IH1 IH2].
    + intros b Hb. apply Hc. now right.
    + intros b Hb. apply Hg. now right.
    + split; nra.
Qed.

Lemma weighted_mean_between (f : Particle → R) (h : nat → Particle)
    (cloud : list nat) (s lo hi : R) :
  0 < s →
  s = Rsum (map (fun l => rweight (h l)) cloud) →
  (∀ l, l ∈ cloud → 0 <= rweight (h l)) →
  (∀ l, l ∈ cloud → lo <= f (h l) <= hi) →
  lo <= weighted_mean f h cloud s <= hi.
Proof.
  intros Hs Hsum Hw Hf. unfold weighted_mean.
  pose proof (Rsum_weighted_between (fun l => rweight (h l) / s) (fun l => f (h l))
                lo hi cloud) as Hb.
  rewrite Rsum_map_scale, <- Hsum in Hb.
  replace (s / s) with 1 in Hb by (field; lra).
  rewrite !Rmult_1_r in Hb. apply Hb.
  - intros l Hl. apply Rmult_le_pos; [now apply Hw |].
    left. now apply Rinv_0_lt_compat.
  - exact Hf.
Qed.

(** X27: for a cloud of distinct particle objects with non-negative
    weights of finite positive sum, [update_robot_pose] returns and the pose
    estimate it stores is a planar pose inside the bounding box of the
    particles: its x (its y) lies between the least and the greatest x (y) of
    the cloud, its z is 0, and its orientation is a unit quaternion about
    the vertical axis. *)
Theorem update_robot_pose_in_bounding_box (st : ParticleFilter)
    (s xlo xhi ylo yhi : R) :
  NoDup (particle_cloud st) →
  val (total_weight (store st) (particle_cloud st)) = Fin s →
  0 < s →
  (∀ l, l ∈ particle_cloud st → 0 <= rweight (store st l)) →
  (∀ l, l ∈ particle_cloud st →
        xlo <= x (store st l) <= xhi ∧ ylo <= y (store st l) <= yhi) →
  ∃ st' mx my qz qw,
    update_robot_pose st = (Ret tt, st')
    ∧ robot_pose st' = {| position := (Fin mx, Fin my, Fin 0);
                          orientation := (Fin 0, Fin 0, Fin qz, Fin qw) |}
    ∧ xlo <= mx <= xhi
    ∧ ylo <= my <= yhi
    ∧ qz * qz + qw * qw = 1.
Proof.
  intros Hnd Hsum Hpos Hw Hbox.
  destruct (update_robot_pose_ret st s Hnd Hsum Hpos) as (st' & Hrun & _ & Hpose).
  rewrite total_weight_val in Hsum.
  apply fold_fadd_fin in Hsum as [_ Hs]. rewrite Rplus_0_l in Hs.
  exists st'. do 4 eexists. split; [exact Hrun |]. split; [exact Hpose |].
  split; [| split].
  - apply weighted_mean_between; try assumption. intros l Hl. now apply Hbox.
  - apply weighted_mean_between; try assumption. intros l Hl. now apply Hbox.
  - pose proof (sin2_cos2 (weighted_mean theta (store st) (particle_cloud st) s / 2)) as H.
    unfold Rsqr in H. exact H.
Qed.

Lemma update_robot_pose_in_bounding_box_witness :
  ∃ st' mx my qz qw,
    update_robot_pose two_particle_filter = (Ret tt, st')
    ∧ robot_pose st' = {| position := (Fin mx, Fin my, Fin 0);
                          orientation := (Fin 0, Fin 0, Fin qz, Fin qw) |}
    ∧ 0 <= mx <= 0
    ∧ 0 <= my <= 0
    ∧ qz * qz + qw * qw = 1.
Proof.
  apply (update_robot_pose_in_bounding_box two_particle_filter (0 + 1 + 1) 0 0 0 0).
  - apply NoDup_two_particle_cloud.
  - reflexivity.
  - lra.
  - intros l _. cbn. lra.
  - intros l _. cbn. lra.
Defined.

(** ** The angle helpers *)

Lemma atan2_range (b a : R) : - PI < atan2 b a <= PI.
Proof.
  pose proof PI_RGT_0 as Hpi. unfold atan2.
  destruct (Rlt_dec 0 a) as [Ha | Ha].
  { pose proof (atan_bound (b / a)). lra. }
  destruct (Rlt_dec a 0) as [Ha' | Ha'].
  - pose proof (atan_bound (b / a)) as Hb.
    assert (Hinv : / a < 0) by now apply Rinv_lt_0_compat.
    destruct (Rle_dec 0 b) as [Hb0 | Hb0].
    + assert (Hq : b / a <= 0) by (unfold Rdiv; nra).
      assert (atan (b / a) <= 0).
      { destruct Hq as [Hq | Hq].
        - left. rewrite <- atan_0. now apply atan_increasing.
        - rewrite Hq, atan_0. lra. }
      lra.
    + assert (Hq : 0 < b / a) by (unfold Rdiv; nra).
      assert (0 < atan (b / a)) by (rewrite <- atan_0; now apply atan_increasing).
      lra.
  - destruct (Rlt_dec 0 b); [lra |]. destruct (Rlt_dec b 0); lra.
Qed.

Lemma sqrt_one_plus_tan (s c : R) :
  c ≠ 0 → s² + c² = 1 → sqrt (1 + (s / c)²) = / Rabs c.
Proof.
  intros Hc H.
  assert (Habs : 0 < Rabs c) by now apply Rabs_pos_lt.
  replace (1 + (s / c)²) with ((/ Rabs c)²).
  - apply sqrt_Rsqr. left. now apply Rinv_0_lt_compat.
  - unfold Rsqr in *. unfold Rabs. destruct (Rcase_abs c); field_simplify; try lra.
    + rewrite <- H. field. lra.
    + rewrite <- H. field. lra.
Qed.

Lemma atan2_sin_cos (z : R) :
  sin (atan2 (sin z) (cos z)) = sin z ∧ cos (atan2 (sin z) (cos z)) = cos z.
Proof.
  pose proof (sin2_cos2 z) as H. unfold atan2.
  destruct (Rlt_dec 0 (cos z)) as [Hc | Hc].
  { rewrite sin_atan, cos_atan, (sqrt_one_plus_tan _ _ (Rgt_not_eq _ _ Hc) H).
    rewrite Rabs_pos_eq by lra. split; field; lra. }
  destruct (Rlt_dec (cos z) 0) as [Hc' | Hc'].
  - assert (Hsq := sqrt_one_plus_tan _ _ (Rlt_not_eq _ _ Hc') H).
    rewrite Rabs_left in Hsq by assumption.
    destruct (Rle_dec 0 (sin z)) as [Hs | Hs].
    + rewrite neg_sin, neg_cos, sin_atan, cos_atan, Hsq. split; field; lra.
    + unfold Rminus. rewrite sin_plus, cos_plus, sin_neg, cos_neg, sin_PI, cos_PI.
      rewrite sin_atan, cos_atan, Hsq. split; field; lra.
  - assert (Hc0 : cos z = 0) by lra. rewrite Hc0 in *.
    unfold Rsqr in H.
    destruct (Rlt_dec 0 (sin z)) as [Hs | Hs].
    + rewrite sin_PI2, cos_PI2. split; [nra | reflexivity].
    + destruct (Rlt_dec (sin z) 0) as [Hs' | Hs'].
      * replace (- PI / 2) with (- (PI / 2)) by lra.
        rewrite sin_neg, cos_neg, sin_PI2, cos_PI2. split; [nra | reflexivity].
      * nra.
Qed.

(** Two angles of (-pi, pi] with the same sine and cosine are equal. *)
Lemma angle_unique (u v : R) :
  - PI < u <= PI → - PI < v <= PI → sin u = sin v → cos u = cos v → u = v.
Proof.
  intros Hu Hv Hs Hc. pose proof PI_RGT_0 as Hpi.
  assert (H1 : cos (u - v) = 1).
  { rewrite cos_minus, Hs, Hc. pose proof (sin2_cos2 v) as H. unfold Rsqr in H. lra. }
  assert (H0 : sin ((u - v) / 2) = 0).
  { replace (u - v) with (2 * ((u - v) / 2)) in H1 by lra.
    rewrite cos_2a_sin in H1. nra. }
  destruct (Rle_dec 0 ((u - v) / 2)) as [Hpos | Hneg].
  - destruct (sin_eq_O_2PI_0 ((u - v) / 2)) as [H | [H | H]]; try lra.
  - assert (H0' : sin (- ((u - v) / 2)) = 0) by (rewrite sin_neg, H0; lra).
    destruct (sin_eq_O_2PI_0 (- ((u - v) / 2))) as [H | [H | H]]; try lra.
Qed.

Lemma sin_cos_period_Z (z : R) (k : Z) :
  sin (z + 2 * IZR k * PI) = sin z ∧ cos (z + 2 * IZR k * PI) = cos z.
Proof.
  destruct (Z_le_gt_dec 0 k) as [Hk | Hk].
  - rewrite <- (Z2Nat.id k Hk), <- INR_IZR_INZ. split; [apply sin_period | apply cos_period].
  - assert (Hk' : (0 <= - k)%Z) by lia.
    pose proof (sin_period (z + 2 * IZR k * PI) (Z.to_nat (- k))) as Hs.
    pose proof (cos_period (z + 2 * IZR k * PI) (Z.to_nat (- k))) as Hc.
    rewrite INR_IZR_INZ, (Z2Nat.id _ Hk'), opp_IZR in Hs, Hc.
    replace (z + 2 * IZR k * PI + 2 * - IZR k * PI) with z in Hs, Hc by lra.
    split; congruence.
Qed.

(** X28: [angle_normalize] maps every angle into (-pi, pi] and keeps its
    direction: the result has the sine and the cosine of the argument. *)
Theorem angle_normalize_range (z : R) :
  - PI < angle_normalize z <= PI
  ∧ sin (angle_normalize z) = sin z
  ∧ cos (angle_normalize z) = cos z.
Proof.
  split; [apply atan2_range | apply atan2_sin_cos].
Qed.

Lemma angle_normalize_fixed (z0 : R) (k : Z) :
  - PI < z0 <= PI → angle_normalize (z0 + 2 * IZR k * PI) = z0.
Proof.
  intros Hz. destruct (sin_cos_period_Z z0 k) as [Hs Hc].
  destruct (atan2_sin_cos (z0 + 2 * IZR k * PI)) as [Hs' Hc'].
  apply angle_unique; [apply atan2_range | exact Hz | |].
  - unfold angle_normalize. congruence.
  - unfold angle_normalize. congruence.
Qed.

(** X29: [angle_normalize] picks the representative of an angle in
    (-pi, pi]: it is the identity on that interval and forgets every whole
    number of turns added to its argument. *)
Theorem angle_normalize_representative (z0 : R) (k : Z) :
  - PI < z0 <= PI → angle_normalize (z0 + 2 * IZR k * PI) = z0.
Proof. exact (angle_normalize_fixed z0 k). Qed.

Lemma angle_normalize_representative_witness :
  - PI < 1 / 10 <= PI ∧ angle_normalize (1 / 10 + 2 * IZR 3 * PI) = 1 / 10.
Proof.
  pose proof PI2_3_2 as Hpi.
  assert (H : - PI < 1 / 10 <= PI) by lra.
  split; [exact H | exact (angle_normalize_representative (1 / 10) 3 H)].
Defined.

(** The three cases of [angle_diff], on the difference of the normalised
    angles. *)
Lemma angle_diff_cases (a b : R) :
  let d := angle_normalize a - angle_normalize b in
  (angle_diff a b = d ∧ - PI < d < PI)
  ∨ (angle_diff a b = d - 2 * PI ∧ PI <= d)
  ∨ (angle_diff a b = d + 2 * PI ∧ d <= - PI).
Proof.
  intros d. pose proof PI_RGT_0 as Hpi.
  pose proof (atan2_range (sin a) (cos a)) as Ha.
  pose proof (atan2_range (sin b) (cos b)) as Hb.
  fold (angle_normalize a) in Ha. fold (angle_normalize b) in Hb.
  unfold angle_diff. fold d. cbv zeta.
  assert (Hd : - (2 * PI) < d < 2 * PI) by (unfold d; lra).
  unfold Rgtb, Rltb.
  destruct (Rgt_dec d 0) as [Hpos | Hpos].
  - rewrite (Rabs_pos_eq d) by lra.
    replace ((2 * PI - d) * -1) with (- (2 * PI - d)) by lra.
    rewrite Rabs_Ropp, (Rabs_pos_eq (2 * PI - d)) by lra.
    destruct (Rlt_dec d (2 * PI - d)); [left | right; left]; split; lra.
  - assert (Hle : d <= 0) by lra.
    rewrite (Rabs_left1 d) by lra.
    rewrite (Rabs_pos_eq (2 * PI - - d)) by lra.
    destruct (Rlt_dec (- d) (2 * PI - - d)); [left | right; right]; split; lra.
Qed.

(** X30: [angle_diff a b] is the rotation from [b] to [a] by the shortest
    way round: its absolute value is at most pi, it has the sine and the
    cosine of [a - b], so it differs from [a - b] by whole turns only, and
    exchanging the arguments changes its sign. *)
Theorem angle_diff_closest (a b : R) :
  Rabs (angle_diff a b) <= PI
  ∧ sin (angle_diff a b) = sin (a - b)
  ∧ cos (angle_diff a b) = cos (a - b)
  ∧ angle_diff b a = - angle_diff a b.
Proof.
  pose proof PI_RGT_0 as Hpi.
  pose proof (atan2_range (sin a) (cos a)) as Ha.
  pose proof (atan2_range (sin b) (cos b)) as Hb.
  destruct (atan2_sin_cos a) as [Hsa Hca]. destruct (atan2_sin_cos b) as [Hsb Hcb].
  fold (angle_normalize a) in Ha, Hsa, Hca. fold (angle_normalize b) in Hb, Hsb, Hcb.
  assert (Hsd : sin (angle_normalize a - angle_normalize b) = sin (a - b))
    by (rewrite !sin_minus; congruence).
  assert (Hcd : cos (angle_normalize a - angle_normalize b) = cos (a - b))
    by (rewrite !cos_minus; congruence).
  pose proof (angle_diff_cases a b) as Hab. pose proof (angle_diff_cases b a) as Hba.
  cbv zeta in Hab, Hba.
  set (d := angle_normalize a - angle_normalize b) in *.
  replace (angle_normalize b - angle_normalize a) with (- d) in Hba by (unfold d; lra).
  assert (Hd : - (2 * PI) < d < 2 * PI) by (unfold d; lra).
  destruct (sin_cos_period_Z d 1) as [Hp1 Hp2].
  destruct (sin_cos_period_Z (d - 2 * PI) 1) as [Hm1 Hm2].
  replace (d - 2 * PI + 2 * 1 * PI) with d in Hm1, Hm2 by lra.
  replace (d + 2 * 1 * PI) with (d + 2 * PI) in Hp1, Hp2 by lra.
  destruct Hab as [[-> Hr] | [[-> Hr] | [-> Hr]]].
  - split; [apply Rabs_le; lra |]. split; [exact Hsd |]. split; [exact Hcd |].
    destruct Hba as [[-> Hr'] | [[-> Hr'] | [-> Hr']]]; lra.
  - split; [apply Rabs_le; lra |].
    split; [congruence |]. split; [congruence |].
    destruct Hba as [[-> Hr'] | [[-> Hr'] | [-> Hr']]]; lra.
  - split; [apply Rabs_le; lra |].
    split; [congruence |]. split; [congruence |].
    destruct Hba as [[-> Hr'] | [[-> Hr'] | [-> Hr']]]; lra.
Qed.
